(** * The batch translation pipeline of scripts/translate_qa_parallel.py and
      scripts/translate_qa_resume.py

    A shallow embedding of the cache, the token-bucket rate limiter, the
    batch translator with its retry loop, the order-preserving gather of the
    batch tasks, and the resume analysis, followed by the properties the
    specification states about them.

    Conventions of the model.
    - A Python [str] is a [string]: a sequence of characters, one [ascii]
      per character (code points below 256).
    - A Python value that comes out of [json.load]/[json.loads] is a [json];
      Python's [None] is [JNull]. An [int] is [JInt], a finite [float] is
      [JFloat] with its exact rational value.
    - The translation cache ([Dict[str, str]]) and a QA pair
      ([Dict[str, Any]]) are finite maps from strings to [json].
    - [time.monotonic()] readings, token counts and waits are rationals.
    - The remote API is an oracle: what [session.post] yields for a given
      batch at a given attempt. [json.loads] is a parameter.
    - A task is modelled from suspension to suspension. Waiting for the
      rate limiter, for the semaphore or in a backoff sleep only delays a
      task (no shared state is read or written meanwhile), so these waits
      appear as actions in the trace of the task and not as states of their
      own; the limiter and the semaphore are taken to let every caller
      through eventually, as they do for a positive rate and a positive
      number of permits. The limiter itself is modelled separately, as the
      sequential object its lock makes it.
    - [print] calls and the files are left out: [save_cache] and the final
      dump write what the run computed and feed nothing back. *)

From Stdlib Require Import ZArith QArith Qminmax Lqa Ascii String.
From stdpp Require Import gmap strings list fin_maps.

Set Warnings "-register-all".
Local Open Scope string_scope.
Local Open Scope list_scope.
Local Open Scope nat_scope.

(** ** Python values *)

Inductive json : Type :=
| JNull
| JBool (b : bool)
| JInt (n : Z)
| JFloat (q : Q)
| JStr (s : string)
| JList (l : list json)
| JDict (kvs : list (string * json)).

(** [bool(v)]: None, False, zero, and empty str/list/dict are falsy. *)
Definition truthy (v : json) : bool :=
  match v with
  | JNull => false
  | JBool b => b
  | JInt n => negb (n =? 0)%Z
  | JFloat q => negb (Qeq_bool q 0)
  | JStr s => negb (String.length s =? 0)
  | JList l => negb (length l =? 0)
  | JDict kvs => negb (length kvs =? 0)
  end.

(** [d[k]] / [k in d] for a JSON object held as an association list. *)
Fixpoint dict_lookup (k : string) (kvs : list (string * json)) : option json :=
  match kvs with
  | [] => None
  | (k', v) :: rest => if String.eqb k k' then Some v else dict_lookup k rest
  end.

(** The numeric value of a bool, int or float, for [==] across them. *)
Definition num_value (v : json) : option Q :=
  match v with
  | JBool b => Some (inject_Z (if b then 1 else 0))
  | JInt n => Some (inject_Z n)
  | JFloat q => Some q
  | _ => None
  end.

(** Python's [a == b] on values built from JSON. *)
Fixpoint py_eq (a b : json) {struct a} : bool :=
  match a, b with
  | JNull, JNull => true
  | JStr s, JStr t => String.eqb s t
  | JList l1, JList l2 =>
      (fix pairwise (xs ys : list json) {struct xs} : bool :=
         match xs, ys with
         | [], [] => true
         | x :: xs', y :: ys' => py_eq x y && pairwise xs' ys'
         | _, _ => false
         end) l1 l2
  | JDict d1, JDict d2 =>
      (length d1 =? length d2) &&
      (fix each (kvs : list (string * json)) {struct kvs} : bool :=
         match kvs with
         | [] => true
         | (k, v) :: rest =>
             match dict_lookup k d2 with
             | Some v' => py_eq v v'
             | None => false
             end && each rest
         end) d1
  | _, _ =>
      match num_value a, num_value b with
      | Some x, Some y => Qeq_bool x y
      | _, _ => false
      end
  end.

(** [len(v)]; [None] stands for the TypeError on None, bool and numbers. *)
Definition py_len (v : json) : option nat :=
  match v with
  | JStr s => Some (String.length s)
  | JList l => Some (length l)
  | JDict kvs => Some (length kvs)
  | _ => None
  end.

(** ** The str methods used on the response content *)

(** [str.isspace] on one character. *)
Definition is_space (c : ascii) : bool :=
  let n := nat_of_ascii c in
  ((9 <=? n) && (n <=? 13)) || ((28 <=? n) && (n <=? 32))
  || (n =? 133) || (n =? 160).

Fixpoint lstrip (s : string) : string :=
  match s with
  | String c rest => if is_space c then lstrip rest else s
  | EmptyString => EmptyString
  end.

Fixpoint rstrip (s : string) : string :=
  match s with
  | EmptyString => EmptyString
  | String c rest =>
      match rstrip rest with
      | EmptyString => if is_space c then EmptyString else String c EmptyString
      | r => String c r
      end
  end.

(** [s.strip()] *)
Definition strip (s : string) : string := rstrip (lstrip s).

(** [s.startswith(p)] *)
Definition startswith (s p : string) : bool := String.prefix p s.

(** [s[n:]] *)
Fixpoint str_drop (n : nat) (s : string) : string :=
  match n, s with
  | S n', String _ rest => str_drop n' rest
  | _, _ => s
  end.

(** The text before the first occurrence of [sep] and the text after it. *)
Fixpoint partition_at (sep s : string) : option (string * string) :=
  if String.prefix sep s then Some (EmptyString, str_drop (String.length sep) s)
  else match s with
       | EmptyString => None
       | String c rest =>
           match partition_at sep rest with
           | Some (before, after) => Some (String c before, after)
           | None => None
           end
       end.

Fixpoint split_fuel (fuel : nat) (sep s : string) : list string :=
  match fuel with
  | O => [s]
  | S fuel' =>
      match partition_at sep s with
      | Some (before, after) => before :: split_fuel fuel' sep after
      | None => [s]
      end
  end.

(** [s.split(sep)] for a non-empty [sep]: every cut consumes at least one
    character, so [length s] rounds are enough. *)
Definition split (s sep : string) : list string :=
  split_fuel (String.length s) sep s.

(** [s.replace(a, b)] for single characters [a], [b]. *)
Fixpoint replace_char (a b : ascii) (s : string) : string :=
  match s with
  | EmptyString => EmptyString
  | String c rest =>
      String (if Ascii.eqb c a then b else c) (replace_char a b rest)
  end.

(** [s.replace(a, '')] for a single character [a]. *)
Fixpoint remove_char (a : ascii) (s : string) : string :=
  match s with
  | EmptyString => EmptyString
  | String c rest =>
      if Ascii.eqb c a then remove_char a rest else String c (remove_char a rest)
  end.

Definition LF : ascii := "010"%char.
Definition CR : ascii := "013"%char.
Definition SP : ascii := " "%char.
Definition FENCE : string := "```".

(** ** TranslationCache *)

Abbreviation cache_t := (gmap string json).

(** A QA pair, [Dict[str, Any]]. *)
Abbreviation qa_t := (gmap string json).

(** [TranslationCache.get]: [self.cache.get(text)], None when absent. *)
Definition cache_get (cache : cache_t) (text : string) : option json :=
  cache !! text.

(** [TranslationCache.set]: [self.cache[text] = translation]. *)
Definition cache_set (cache : cache_t) (text : string) (translation : json)
  : cache_t :=
  <[text := translation]> cache.

(** ** One attempt of the batch translator *)

(** What [session.post ... raise_for_status ... await response.json()]
    yields: an exception (connection error, timeout, non-2xx status, a body
    that is not JSON), or the decoded body. *)
Inductive http_outcome : Type :=
| HttpError
| HttpJson (result : json).

(** [result['choices'][0]['message']['content'].strip()], after the guard
    [if not result or 'choices' not in result or len(result['choices']) == 0].
    [None] is any exception on the way: the ValueError of the guard, or the
    TypeError/KeyError/AttributeError Python raises when [result] is not a
    dict, ['choices'] is not a non-empty list, its first element has no
    ['message'] dict, or ['content'] is not a str. *)
Definition extract_content (result : json) : option string :=
  if negb (truthy result) then None
  else match result with
       | JDict d =>
           match dict_lookup "choices" d with
           | Some (JList (first :: _)) =>
               match first with
               | JDict fd =>
                   match dict_lookup "message" fd with
                   | Some (JDict md) =>
                       match dict_lookup "content" md with
                       | Some (JStr content) => Some (strip content)
                       | _ => None
                       end
                   | _ => None
                   end
               | _ => None
               end
           | _ => None
           end
       | _ => None
       end.

(** The [if content.startswith(FENCE)] block: keep what stands between the
    first two fences, drop a leading [json] tag, strip. *)
Definition unwrap_fence (content : string) : string :=
  if startswith content FENCE then
    let parts := split content FENCE in
    let content :=
      if 2 <=? length parts then
        let content := nth 1 parts EmptyString in
        if startswith content "json" then str_drop 4 content else content
      else content in
    strip content
  else content.

(** The three lists the cache check builds: [translations] (None at the
    un-cached positions), [texts_to_translate] and [text_indices]. *)
Record checked : Type := Checked {
  translations : list json;
  texts_to_translate : list string;
  text_indices : list nat
}.

(** The loop [for idx, text in enumerate(texts)] at the head of
    [translate_batch_async], from index [idx] on. *)
Fixpoint check_cache_from (idx : nat) (cache : cache_t) (texts : list string)
  : checked :=
  match texts with
  | [] => Checked [] [] []
  | text :: rest =>
      let r := check_cache_from (S idx) cache rest in
      match cache_get cache text with
      | Some cached =>
          if truthy cached then
            Checked (cached :: translations r) (texts_to_translate r)
                    (text_indices r)
          else
            Checked (JNull :: translations r) (text :: texts_to_translate r)
                    (idx :: text_indices r)
      | None =>
          Checked (JNull :: translations r) (text :: texts_to_translate r)
                  (idx :: text_indices r)
      end
  end.

Definition check_cache (cache : cache_t) (texts : list string) : checked :=
  check_cache_from 0 cache texts.

(** Observable actions of a batch task, in program order. *)
Inductive event : Type :=
| EvAcquire
| EvEnter
| EvPost (attempt : nat) (request : list string)
| EvSleep (seconds : nat)
| EvCacheSet (text : string) (translation : json)
| EvExit.

(** A batch task between two suspensions: waiting for the response to its
    [attempt]-th request, or returned. *)
Inductive task : Type :=
| InFlight (texts : list string) (ck : checked) (attempt : nat)
| Done (result : list json).

Definition max_retries : nat := 3.

(** One round of [for idx, translated in zip(text_indices, translated_texts)]:
    [cache.set(texts[idx], translated); translations[idx] = translated]. *)
Definition store_one (texts : list string) (st : cache_t * list json)
  (p : nat * json) : cache_t * list json :=
  (cache_set st.1 (texts !!! p.1) p.2, <[p.1 := p.2]> st.2).

Definition store_translations (texts : list string) (cache : cache_t)
  (ck : checked) (translated_texts : list json) : cache_t * list json :=
  fold_left (store_one texts) (zip (text_indices ck) translated_texts)
            (cache, translations ck).

(** [for idx in text_indices: translations[idx] = texts[idx]]. *)
Definition fallback (texts : list string) (ck : checked) : list json :=
  fold_left (fun tr idx => <[idx := JStr (texts !!! idx)]> tr)
            (text_indices ck) (translations ck).

Section Translator.

(** [json.loads]: [None] is a JSONDecodeError. *)
Variable json_loads : string -> option json.

(** [json.loads(content)], and on JSONDecodeError once more after
    [content.replace(LF, ' ').replace(CR, '')]. *)
Definition parse_json (content : string) : option json :=
  match json_loads content with
  | Some v => Some v
  | None => json_loads (remove_char CR (replace_char LF SP content))
  end.

(** [translated_texts] as the try block computes it before validating. *)
Definition parse_response (o : http_outcome) : option json :=
  match o with
  | HttpError => None
  | HttpJson result =>
      content ← extract_content result;
      parse_json (unwrap_fence content)
  end.

(** The two [raise ValueError] checks on [translated_texts]. *)
Definition validate (n : nat) (translated_texts : json) : option (list json) :=
  match translated_texts with
  | JList l => if length l =? n then Some l else None
  | _ => None
  end.

(** The try block of one attempt: the accepted list, or [None] when any
    exception reaches [except Exception]. *)
Definition attempt_body (ck : checked) (o : http_outcome)
  : option (list json) :=
  translated_texts ← parse_response o;
  validate (length (texts_to_translate ck)) translated_texts.

(** [translate_batch_async] up to its first suspension on the network: the
    cache check, the early return, and otherwise
    [await rate_limiter.acquire()], [async with semaphore] and the first
    [session.post]. *)
Definition start (cache : cache_t) (texts : list string) : task * list event :=
  let ck := check_cache cache texts in
  match texts_to_translate ck with
  | [] => (Done (translations ck), [])
  | _ :: _ =>
      (InFlight texts ck 0,
       [EvAcquire; EvEnter; EvPost 0 (texts_to_translate ck)])
  end.

(** From the arrival of a response to the next suspension or the return:
    the rest of the loop body of [for attempt in range(max_retries)]. The
    last round ([attempt = max_retries - 1]) returns on both branches, so the
    loop never runs off its range. *)
Definition resume (cache : cache_t) (t : task) (o : http_outcome)
  : cache_t * task * list event :=
  match t with
  | Done _ => (cache, t, [])
  | InFlight texts ck attempt =>
      match attempt_body ck o with
      | Some translated_texts =>
          let '(cache', result) :=
            store_translations texts cache ck translated_texts in
          (cache', Done result,
           map (fun p : nat * json => EvCacheSet (texts !!! p.1) p.2)
               (zip (text_indices ck) translated_texts) ++ [EvExit])
      | None =>
          if attempt <? max_retries - 1 then
            (cache, InFlight texts ck (S attempt),
             [EvSleep (2 ^ attempt);
              EvPost (S attempt) (texts_to_translate ck)])
          else
            (cache, Done (fallback texts ck), [EvExit])
      end
  end.

(** A task run on its own: each response is delivered as soon as awaited. *)
Fixpoint drive (fuel : nat) (resp : nat -> http_outcome) (cache : cache_t)
  (t : task) : cache_t * task * list event :=
  match fuel, t with
  | S fuel', InFlight _ _ attempt =>
      let '(cache1, t1, ev1) := resume cache t (resp attempt) in
      let '(cache2, t2, ev2) := drive fuel' resp cache1 t1 in
      (cache2, t2, ev1 ++ ev2)
  | _, _ => (cache, t, [])
  end.

(** [translate_batch_async(session, texts, cache, rate_limiter, semaphore)]
    with [resp attempt] the remote answer to the [attempt]-th request:
    the cache afterwards, the final task state and the actions performed. *)
Definition translate_batch_async (cache : cache_t) (texts : list string)
  (resp : nat -> http_outcome) : cache_t * task * list event :=
  let '(t0, ev0) := start cache texts in
  let '(cache', t', ev) := drive max_retries resp cache t0 in
  (cache', t', ev0 ++ ev).

End Translator.

(** ** Batching *)

(** [range(0, n, step)] for a positive [step]. *)
Definition range_step (n step : nat) : list nat :=
  map (fun k => k * step) (seq 0 ((n + step - 1) / step)).

(** [l[i:j]] for [0 <= i <= j]. *)
Definition slice {A} (l : list A) (i j : nat) : list A :=
  take (j - i) (drop i l).

(** [[lst[i:i + n] for i in range(0, len(lst), n)]]. A zero step makes
    [range] raise ValueError ([None]); a negative step gives the empty range. *)
Definition batch_list (lst : list string) (n : Z) : option (list (list string)) :=
  match n with
  | Z0 => None
  | Zneg _ => Some []
  | Zpos p =>
      Some (map (fun i => slice lst i (i + Pos.to_nat p))
                (range_step (length lst) (Pos.to_nat p)))
  end.

(** ** asyncio.gather over the batch tasks

    [gather] wraps each coroutine in a task; the tasks take their first step
    in list order, each up to its first suspension, before any response can
    arrive. Afterwards the event loop resumes whichever task has its
    response ready: the schedule [sched] lists the batch indices in that
    order. Between two suspensions a task runs alone. The result list is
    indexed by task position, not by completion time. *)

Abbreviation trace_t := (list (nat * event)).

Record pool : Type := Pool {
  pool_cache : cache_t;
  pool_tasks : list task;
  pool_trace : trace_t
}.

(** The remote behaviour during one gather: the answer to each batch's
    [attempt]-th request, and the order in which responses arrive. *)
Record phase : Type := Phase {
  api : nat -> nat -> http_outcome;
  sched : list nat
}.

Definition tag (b : nat) (ev : list event) : trace_t := map (pair b) ev.

Definition task_result (t : task) : option (list json) :=
  match t with
  | Done result => Some result
  | InFlight _ _ _ => None
  end.

(** The results of the tasks by position; [None] if one has not returned. *)
Definition results_of (tasks : list task) : option (list (list json)) :=
  mapM task_result tasks.

(** [all_translations.extend(result)] for each result in order. *)
Definition flatten (results : list (list json)) : list json := concat results.

(** Every task is offered [max_retries] more deliveries, in index order:
    whatever the schedule left in flight completes before gather returns. *)
Definition drain_order (n : nat) : list nat :=
  concat (replicate max_retries (seq 0 n)).

Section Orchestrator.

Variable json_loads : string -> option json.
Variable BATCH_SIZE : Z.

(** The first step of every task, in list order. *)
Definition spawn (cache : cache_t) (batches : list (list string))
  : list task * trace_t :=
  (map (fun batch => (start cache batch).1) batches,
   concat (imap (fun b batch => tag b (start cache batch).2) batches)).

(** The response to batch [b]'s pending request arrives. *)
Definition deliver (api : nat -> nat -> http_outcome) (st : pool) (b : nat)
  : pool :=
  match pool_tasks st !! b with
  | Some (InFlight texts ck attempt) =>
      let '(cache', t', ev) :=
        resume json_loads (pool_cache st) (InFlight texts ck attempt)
               (api b attempt) in
      Pool cache' (<[b := t']> (pool_tasks st)) (pool_trace st ++ tag b ev)
  | _ => st
  end.

Definition gather (cache : cache_t) (batches : list (list string))
  (ph : phase) : pool :=
  let '(tasks, tr) := spawn cache batches in
  fold_left (deliver (api ph))
            (sched ph ++ drain_order (length batches))
            (Pool cache tasks tr).

(** [translate_all_batches(texts, cache, desc)]: the flattened translations,
    the cache afterwards and the actions performed. *)
Definition translate_all_batches (texts : list string) (cache : cache_t)
  (ph : phase) : option (list json * cache_t * trace_t) :=
  batches ← batch_list texts BATCH_SIZE;
  let st := gather cache batches ph in
  results ← results_of (pool_tasks st);
  Some (flatten results, pool_cache st, pool_trace st).

(** ** QA pairs *)

(** [qa[key]] used as a text: [None] is the KeyError, or a value that is
    not a str (the texts are [List[str]]). *)
Definition text_field (key : string) (qa : qa_t) : option string :=
  match qa !! key with
  | Some (JStr s) => Some s
  | _ => None
  end.

(** [qa.get(key, '')] *)
Definition get_or_empty (key : string) (qa : qa_t) : json :=
  default (JStr EmptyString) (qa !! key).

(** [qa.get('context', '') if qa.get('context', '') else N/A]. *)
Definition context_text (qa : qa_t) : option string :=
  let v := get_or_empty "context" qa in
  if truthy v then match v with JStr s => Some s | _ => None end
  else Some "N/A".

(** The three assignments of the final loop for the pair at [idx] of the
    translated lists; [None] is an IndexError. *)
Definition set_translations (tq ta tc : list json) (idx : nat) (qa : qa_t)
  : option qa_t :=
  q ← tq !! idx;
  a ← ta !! idx;
  c ← (if truthy (get_or_empty "context" qa) then tc !! idx
       else Some (JStr EmptyString));
  Some (<["context_en" := c]> (<["answer_en" := a]> (<["question_en" := q]> qa))).

(** [translate_qa_pairs(qa_pairs, cache)]. *)
Definition translate_qa_pairs (qa_pairs : list qa_t) (cache : cache_t)
  (ph_q ph_a ph_c : phase) : option (list qa_t * cache_t * trace_t) :=
  questions ← mapM (text_field "question_pt") qa_pairs;
  answers ← mapM (text_field "answer_pt") qa_pairs;
  contexts ← mapM context_text qa_pairs;
  '(translated_questions, cache1, tr1) ←
    translate_all_batches questions cache ph_q;
  '(translated_answers, cache2, tr2) ←
    translate_all_batches answers cache1 ph_a;
  '(translated_contexts, cache3, tr3) ←
    translate_all_batches contexts cache2 ph_c;
  out ← mapM (fun p : nat * qa_t =>
                set_translations translated_questions translated_answers
                                 translated_contexts p.1 p.2)
             (imap pair qa_pairs);
  Some (out, cache3, tr1 ++ tr2 ++ tr3).

(** ** Resume analysis (translate_qa_resume.py) *)

(** [needs_translation(qa_pair)]; [None] is the TypeError of [len] on a
    value that has no length. *)
Definition needs_translation (qa_pair : qa_t) : option bool :=
  let q_pt := get_or_empty "question_pt" qa_pair in
  let q_en := get_or_empty "question_en" qa_pair in
  let a_pt := get_or_empty "answer_pt" qa_pair in
  let a_en := get_or_empty "answer_en" qa_pair in
  if negb (truthy q_en) || negb (truthy a_en) then Some true
  else if py_eq q_en q_pt || py_eq a_en a_pt then Some true
  else
    len_q ← py_len q_en;
    if len_q <? 3 then Some true
    else
      len_a ← py_len a_en;
      if len_a <? 3 then Some true else Some false.

(** The first loop of [translate_missing_only]: the flagged pairs with
    their indices, in order. *)
Fixpoint flagged_from (idx : nat) (qa_pairs : list qa_t)
  : option (list (nat * qa_t)) :=
  match qa_pairs with
  | [] => Some []
  | qa :: rest =>
      flag ← needs_translation qa;
      more ← flagged_from (S idx) rest;
      Some (if flag : bool then (idx, qa) :: more else more)
  end.

(** One round of the final loop [for i, idx in enumerate(pair_indices)]:
    the pair at [idx] gets the [i]-th translations. [pairs_to_translate[i]]
    is the very dict [qa_pairs[idx]], so its context is read from there.
    [None] is an IndexError. *)
Definition write_back (tq ta tc : list json) (acc : option (list qa_t))
  (p : nat * nat) : option (list qa_t) :=
  let '(i, idx) := p in
  qa_pairs ← acc;
  qa ← qa_pairs !! idx;
  q ← tq !! i;
  a ← ta !! i;
  c ← (if truthy (default JNull (qa !! "context")) then tc !! i
       else Some (JStr EmptyString));
  Some (<[idx :=
          <["context_en" := c]> (<["answer_en" := a]> (<["question_en" := q]> qa))]>
        qa_pairs).

(** [translate_missing_only(qa_pairs, cache)]. *)
Definition translate_missing_only (qa_pairs : list qa_t) (cache : cache_t)
  (ph_q ph_a ph_c : phase) : option (list qa_t * cache_t * trace_t) :=
  flagged ← flagged_from 0 qa_pairs;
  match flagged with
  | [] => Some (qa_pairs, cache, [])
  | _ :: _ =>
      let pair_indices := flagged.*1 in
      let pairs_to_translate := flagged.*2 in
      questions ← mapM (text_field "question_pt") pairs_to_translate;
      answers ← mapM (text_field "answer_pt") pairs_to_translate;
      contexts ← mapM context_text pairs_to_translate;
      q_batches ← batch_list questions BATCH_SIZE;
      a_batches ← batch_list answers BATCH_SIZE;
      c_batches ← batch_list contexts BATCH_SIZE;
      let st_q := gather cache q_batches ph_q in
      translated_questions ← flatten <$> results_of (pool_tasks st_q);
      let st_a := gather (pool_cache st_q) a_batches ph_a in
      translated_answers ← flatten <$> results_of (pool_tasks st_a);
      let st_c := gather (pool_cache st_a) c_batches ph_c in
      translated_contexts ← flatten <$> results_of (pool_tasks st_c);
      out ← fold_left (write_back translated_questions translated_answers
                                  translated_contexts)
                      (imap pair pair_indices) (Some qa_pairs);
      Some (out, pool_cache st_c,
            pool_trace st_q ++ pool_trace st_a ++ pool_trace st_c)
  end.

End Orchestrator.

(** ** The status report of the resume script *)

(** The dict [analyze_translation_status] returns. *)
Record status_t : Type := Status {
  st_total : nat;
  st_needs_translation : nat;
  st_already_translated : nat;
  st_missing_question : nat;
  st_missing_answer : nat;
  st_failed_translation : nat
}.

(** [qa.get(key)] *)
Definition get_or_none (key : string) (qa : qa_t) : json :=
  default JNull (qa !! key).

(** One round of the loop of [analyze_translation_status]; [None] is the
    TypeError [needs_translation] may raise. *)
Definition analyze_step (acc : option status_t) (qa : qa_t)
  : option status_t :=
  status ← acc;
  flag ← needs_translation qa;
  if flag : bool then
    Some (Status
      (st_total status)
      (st_needs_translation status + 1)
      (st_already_translated status)
      (st_missing_question status +
       if truthy (get_or_none "question_en" qa) then 0 else 1)
      (st_missing_answer status +
       if truthy (get_or_none "answer_en" qa) then 0 else 1)
      (st_failed_translation status +
       if py_eq (get_or_none "question_en" qa) (get_or_none "question_pt" qa)
          || py_eq (get_or_none "answer_en" qa) (get_or_none "answer_pt" qa)
       then 1 else 0))
  else
    Some (Status
      (st_total status)
      (st_needs_translation status)
      (st_already_translated status + 1)
      (st_missing_question status)
      (st_missing_answer status)
      (st_failed_translation status)).

(** [analyze_translation_status(qa_pairs)]. *)
Definition analyze_translation_status (qa_pairs : list qa_t)
  : option status_t :=
  fold_left analyze_step qa_pairs (Some (Status (length qa_pairs) 0 0 0 0 0)).

(** ** RateLimiter *)

Record RateLimiter : Type := mkRateLimiter {
  requests_per_minute : Z;
  tokens : Q;
  updated_at : Q
}.

(** [RateLimiter(requests_per_minute)], built at clock reading [now]. *)
Definition RateLimiter_init (rpm : Z) (now : Q) : RateLimiter :=
  mkRateLimiter rpm (inject_Z rpm) now.

(** The refill at the head of the loop of [acquire]. *)
Definition refill (rl : RateLimiter) (now : Q) : RateLimiter :=
  let elapsed := (now - updated_at rl)%Q in
  let rpm := inject_Z (requests_per_minute rl) in
  mkRateLimiter (requests_per_minute rl)
                (Qmin rpm (tokens rl + elapsed * (rpm / 60)))%Q
                now.

Inductive round_result : Type :=
| Granted
| MustWait (wait_time : Q)
| ZeroDivision.

(** One turn of the [while True] loop of [acquire] at clock reading [now].
    With no token, the wait is [(1 - tokens) * (60.0 / requests_per_minute)],
    which raises ZeroDivisionError for a zero rate. *)
Definition acquire_round (rl : RateLimiter) (now : Q)
  : RateLimiter * round_result :=
  let rl1 := refill rl now in
  if Qle_bool 1 (tokens rl1) then
    (mkRateLimiter (requests_per_minute rl1) (tokens rl1 - 1)%Q (updated_at rl1),
     Granted)
  else if (requests_per_minute rl1 =? 0)%Z then (rl1, ZeroDivision)
  else
    (rl1,
     MustWait ((1 - tokens rl1) * (60 / inject_Z (requests_per_minute rl1)))%Q).

(** [acquire()] against the successive readings of [time.monotonic()]:
    the state, the readings left, and how the call ended ([MustWait] when
    the readings run out while it is still sleeping). *)
Fixpoint acquire (rl : RateLimiter) (clock : list Q)
  : RateLimiter * list Q * round_result :=
  match clock with
  | [] => (rl, [], MustWait 0)
  | now :: rest =>
      match acquire_round rl now with
      | (rl', Granted) => (rl', rest, Granted)
      | (rl', ZeroDivision) => (rl', rest, ZeroDivision)
      | (rl', MustWait _) => acquire rl' rest
      end
  end.

(** [n] calls of [acquire()] one after the other (the lock serialises
    concurrent callers). *)
Fixpoint acquire_many (n : nat) (rl : RateLimiter) (clock : list Q)
  : RateLimiter * list Q :=
  match n with
  | O => (rl, clock)
  | S n' =>
      let '(rl', rest, _) := acquire rl clock in
      acquire_many n' rl' rest
  end.

(** 1 for a call of [acquire()] that returned with its token. *)
Definition granted (r : round_result) : nat :=
  match r with
  | Granted => 1
  | MustWait _ | ZeroDivision => 0
  end.

(** How many of [n] calls of [acquire()], one after the other, returned
    with a token. *)
Fixpoint acquire_count (n : nat) (rl : RateLimiter) (clock : list Q) : nat :=
  match n with
  | O => 0
  | S n' =>
      let '(rl', rest, res) := acquire rl clock in
      granted res + acquire_count n' rl' rest
  end.

(** [time.monotonic()] never goes backwards. *)
Fixpoint monotonic_from (t : Q) (clock : list Q) : Prop :=
  match clock with
  | [] => True
  | now :: rest => (t <= now)%Q /\ monotonic_from now rest
  end.

(** [0 <= tokens <= capacity], capacity being [requests_per_minute]. *)
Definition tokens_in_range (rl : RateLimiter) : Prop :=
  (0 <= tokens rl)%Q /\ (tokens rl <= inject_Z (requests_per_minute rl))%Q.

(** ** Vocabulary of the statements *)

(** The text is sent to the API: no entry, or an entry that is falsy. *)
Definition uncached (cache : cache_t) (text : string) : bool :=
  match cache_get cache text with
  | Some cached => negb (truthy cached)
  | None => true
  end.

(** A cache hit, as [if cached:] decides it. *)
Definition cache_hit (cache : cache_t) (text : string) (cached : json) : Prop :=
  cache_get cache text = Some cached /\ truthy cached = true.

(** The seconds slept, in order. *)
Definition sleeps_of (ev : list event) : list nat :=
  omap (fun e => match e with EvSleep s => Some s | _ => None end) ev.

(** The delay the backoff sleeps add up to. *)
Definition total_delay (ev : list event) : nat := sum_list (sleeps_of ev).

(** The [cache.set] calls, in order. *)
Definition cache_sets_of (ev : list event) : list (string * json) :=
  omap (fun e => match e with EvCacheSet t v => Some (t, v) | _ => None end) ev.

(** The cache after the given [cache.set] calls. *)
Definition apply_sets (sets : list (string * json)) (cache : cache_t) : cache_t :=
  fold_left (fun c p => cache_set c p.1 p.2) sets cache.

(** The position of [p] among the un-cached texts of a batch. *)
Definition rank (cache : cache_t) (texts : list string) (p : nat) : nat :=
  length (List.filter (uncached cache) (take p texts)).

(** The assignments [translations[idx] = value], one after the other. *)
Definition write_slots (ps : list (nat * json)) (tr : list json) : list json :=
  fold_left (fun tr p => <[p.1 := p.2]> tr) ps tr.

(** The actions between a failed attempt and the next request, for the
    attempts [a, a+1, ..., a+K-1]. *)
Definition backoff_events (ck : checked) (a K : nat) : list event :=
  flat_map (fun j => [EvSleep (2 ^ j); EvPost (S j) (texts_to_translate ck)])
           (seq a K).

(** The [cache.set] actions of an accepted response. *)
Definition store_events (texts : list string) (ck : checked)
  (translated_texts : list json) : list event :=
  map (fun p : nat * json => EvCacheSet (texts !!! p.1) p.2)
      (zip (text_indices ck) translated_texts).

(** A task in flight has attempts left. *)
Definition task_wf (t : task) : Prop :=
  match t with
  | InFlight _ _ attempt => attempt < max_retries
  | Done _ => True
  end.

(** An upper bound on the responses a task still consumes. *)
Definition task_need (t : task) : nat :=
  match t with
  | InFlight _ _ attempt => max_retries - attempt
  | Done _ => 0
  end.

(** The list a batch call returns. *)
Definition batch_result (json_loads : string -> option json) (cache : cache_t)
  (batch : list string) (resp : nat -> http_outcome) : list json :=
  match (translate_batch_async json_loads cache batch resp).1.2 with
  | Done result => result
  | InFlight _ _ _ => []
  end.

(** The state a task settles in when all its responses are delivered. *)
Definition outcome (json_loads : string -> option json)
  (resp : nat -> http_outcome) (t : task) : task :=
  (drive json_loads max_retries resp ∅ t).1.2.

(** Every task is on the way to the result of its own batch, computed
    against the cache the gather started with. *)
Definition pool_inv (json_loads : string -> option json)
  (api : nat -> nat -> http_outcome) (cache0 : cache_t)
  (batches : list (list string)) (tasks : list task) : Prop :=
  length tasks = length batches /\
  forall b batch t, batches !! b = Some batch -> tasks !! b = Some t ->
    task_wf t /\
    outcome json_loads (api b) t
      = Done (batch_result json_loads cache0 batch (api b)).

(** The batches of [batch_list] for a step [n]. *)
Definition chunks (n : nat) (texts : list string) : list (list string) :=
  map (fun k => take n (drop (k * n) texts))
      (seq 0 ((length texts + n - 1) / n)).

(** [v] is what the batch call leaves at position [p], where the batch has
    the text [t]: the cached translation on a hit; otherwise the element of
    rank [p] of the first accepted response, or [t] itself once every
    attempt has failed. *)
Definition slot_ok (json_loads : string -> option json) (cache : cache_t)
  (batch : list string)
  (resp : nat -> http_outcome) (p : nat) (t : string) (v : json) : Prop :=
  if uncached cache t then
    (exists K l, K < max_retries /\
       (forall j, j < K ->
          attempt_body json_loads (check_cache cache batch) (resp j) = None) /\
       attempt_body json_loads (check_cache cache batch) (resp K) = Some l /\
       l !! rank cache batch p = Some v)
    \/ ((forall j, j < max_retries ->
           attempt_body json_loads (check_cache cache batch) (resp j) = None)
        /\ v = JStr t)
  else cache_hit cache t v.

(** The output written without any schedule: batch by batch, each batch's
    own result against the cache the call started with. *)
Definition reference_output (json_loads : string -> option json) (n : nat)
  (texts : list string) (cache : cache_t) (api : nat -> nat -> http_outcome)
  : list json :=
  concat (imap (fun b batch => batch_result json_loads cache batch (api b))
               (chunks n texts)).

(** The context translation that the final loop assigns. *)
Definition context_en_of (qa : qa_t) (tc : list json) (idx : nat) : json :=
  if truthy (get_or_empty "context" qa) then default JNull (tc !! idx)
  else JStr EmptyString.

(** What [cache.get(text)] gives on a hit. *)
Definition cached_value (cache : cache_t) (text : string) : json :=
  default JNull (cache_get cache text).

(** The field is absent, null or a str: the shapes a target field has in a
    file the pipeline wrote from text translations. *)
Definition text_or_missing (qa : qa_t) (key : string) : Prop :=
  match qa !! key with
  | None | Some JNull | Some (JStr _) => True
  | Some _ => False
  end.

(** The text of a field, empty when the field is absent or null. *)
Definition field_text (qa : qa_t) (key : string) : string :=
  match qa !! key with
  | Some (JStr s) => s
  | _ => EmptyString
  end.

(** The three criteria of the resume analysis. *)
Definition resume_criteria (qa : qa_t) : Prop :=
  (field_text qa "question_en" = EmptyString \/
   field_text qa "answer_en" = EmptyString)
  \/ (get_or_empty "question_en" qa = get_or_empty "question_pt" qa \/
      get_or_empty "answer_en" qa = get_or_empty "answer_pt" qa)
  \/ (String.length (field_text qa "question_en") < 3 \/
      String.length (field_text qa "answer_en") < 3).

(** Every request carries the un-cached texts of the batch it belongs to. *)
Definition posts_ok (cache0 : cache_t) (batches : list (list string))
  (tr : trace_t) : Prop :=
  forall b a request, (b, EvPost a request) ∈ tr ->
    exists batch, batches !! b = Some batch /\
                  request = texts_to_translate (check_cache cache0 batch).

(** Every task in flight carries the cache check of its own batch. *)
Definition tasks_checked (cache0 : cache_t) (batches : list (list string))
  (tasks : list task) : Prop :=
  forall b texts ck a, tasks !! b = Some (InFlight texts ck a) ->
    exists batch, batches !! b = Some batch /\ ck = check_cache cache0 batch.

(** [qa'] differs from [qa] at most in the three target fields. *)
Definition only_targets_differ (qa qa' : qa_t) : Prop :=
  forall k : string, k <> "question_en" -> k <> "answer_en" ->
                     k <> "context_en" -> qa' !! k = qa !! k.

(** The requests posted, in order. *)
Definition posts_of (ev : list event) : list (list string) :=
  omap (fun e => match e with EvPost _ request => Some request | _ => None end)
       ev.

(** The rate-limiter and semaphore actions, in order. *)
Definition gate_events (ev : list event) : list event :=
  List.filter (fun e => match e with
                        | EvAcquire | EvEnter | EvExit => true
                        | _ => false
                        end) ev.

(** The [cache.set] calls of a gather, in order. *)
Definition pool_sets (tr : trace_t) : list (string * json) :=
  cache_sets_of tr.*2.

(** Every task in flight still holds its own batch and the cache check made
    when the gather started. *)
Definition tasks_bound (cache0 : cache_t) (batches : list (list string))
  (tasks : list task) : Prop :=
  forall b texts ck a, tasks !! b = Some (InFlight texts ck a) ->
    batches !! b = Some texts /\ ck = check_cache cache0 texts.

(** Every [cache.set] of the gather stores under a text of some batch that
    was un-cached when the gather started. *)
Definition sets_ok (cache0 : cache_t) (batches : list (list string))
  (sets : list (string * json)) : Prop :=
  forall t v, (t, v) ∈ sets ->
    uncached cache0 t = true /\ exists batch, batch ∈ batches /\ t ∈ batch.

(** The actions of batch [b] in the trace of a gather, in order. *)
Definition actions_of (b : nat) (tr : trace_t) : list event :=
  omap (fun p : nat * event => if p.1 =? b then Some p.2 else None) tr.

(** What batch [b] has done so far, followed by what its task has still to
    do, is what the batch call does on its own. *)
Definition trace_inv (json_loads : string -> option json)
  (api : nat -> nat -> http_outcome) (cache0 : cache_t)
  (batches : list (list string)) (st : pool) : Prop :=
  length (pool_tasks st) = length batches /\
  (forall b e, (b, e) ∈ pool_trace st -> b < length batches) /\
  forall b batch t, batches !! b = Some batch -> pool_tasks st !! b = Some t ->
    task_wf t /\
    actions_of b (pool_trace st)
      ++ (drive json_loads max_retries (api b) ∅ t).2
    = (translate_batch_async json_loads cache0 batch (api b)).2.

(** ** Sample data *)

(** A stand-in for [json.loads] that knows three documents. *)
Definition sample_loads (content : string) : option json :=
  if String.eqb content "PAIR" then
    Some (JList [JStr "Hi, all good?"; JStr "How much does it cost?"])
  else if String.eqb content "ONE" then Some (JList [JStr "Hi"])
  else if String.eqb content "OBJ" then Some (JDict [])
  else None.

(** A well-formed response body whose content is [content]. *)
Definition body_of (content : string) : http_outcome :=
  HttpJson (JDict [("choices",
    JList [JDict [("message", JDict [("content", JStr content)])]])]).

Definition sample_texts : list string := ["Oi, tudo bem?"; "Quanto custa?"].

Definition sample_pair (q_pt q_en a_pt a_en : string) : qa_t :=
  <["answer_en" := JStr a_en]> (<["answer_pt" := JStr a_pt]>
    (<["question_en" := JStr q_en]> (<["question_pt" := JStr q_pt]> ∅))).

(** A prior output of three pairs: the second one carries its own source
    text as translation (a degraded batch of the earlier run). *)
Definition sample_prior : list qa_t :=
  [sample_pair "Oi, tudo bem?" "Hi, all good?" "Tudo" "All good";
   sample_pair "Oi" "Oi" "Sim" "Yes";
   sample_pair "Quanto custa?" "How much does it cost?" "Dez" "Ten"].

Definition sample_phase : phase := Phase (fun _ _ => body_of "ONE") [0].

(** A stand-in for [json.loads] that knows one document, a list holding a
    number: valid JSON, a list, and of the length of a one-text request. *)
Definition numeric_loads (content : string) : option json :=
  if String.eqb content "[12345]" then Some (JList [JInt 12345]) else None.

(** A pair whose [question_en] is that number. *)
Definition numeric_pair : qa_t :=
  <["question_en" := JInt 12345]> (sample_pair "Oi" "x" "Sim" "Yes").

(** * Properties *)

(** ** The cache check *)

Lemma uncached_hit cache text cached :
  cache_hit cache text cached -> uncached cache text = false.
Proof. intros [Hget Ht]. unfold uncached. by rewrite Hget, Ht. Qed.

Lemma uncached_false cache text :
  uncached cache text = false ->
  exists cached, cache_hit cache text cached.
Proof.
  unfold uncached, cache_hit. destruct (cache_get cache text) as [v|]; [|done].
  intros Hv. exists v. split; [done|]. by destruct (truthy v).
Qed.

Lemma check_cache_from_translations idx cache texts :
  translations (check_cache_from idx cache texts) =
  map (fun t => if uncached cache t then JNull
                else default JNull (cache_get cache t)) texts.
Proof.
  revert idx. induction texts as [|t texts IH]; intros idx; [done|].
  simpl. unfold uncached at 1.
  destruct (cache_get cache t) as [v|]; [destruct (truthy v)|];
    simpl; by rewrite IH.
Qed.

Lemma check_cache_from_texts idx cache texts :
  texts_to_translate (check_cache_from idx cache texts) =
  List.filter (uncached cache) texts.
Proof.
  revert idx. induction texts as [|t texts IH]; intros idx; [done|].
  simpl. unfold uncached at 1.
  destruct (cache_get cache t) as [v|]; [destruct (truthy v)|];
    simpl; by rewrite IH.
Qed.

Lemma check_cache_from_indices idx cache texts :
  text_indices (check_cache_from idx cache texts) =
  map fst (List.filter (fun p => uncached cache p.2)
                       (zip (seq idx (length texts)) texts)).
Proof.
  revert idx. induction texts as [|t texts IH]; intros idx; [done|].
  simpl. unfold uncached at 1.
  destruct (cache_get cache t) as [v|]; [destruct (truthy v)|];
    simpl; by rewrite IH.
Qed.

Lemma check_cache_length cache texts :
  length (translations (check_cache cache texts)) = length texts.
Proof.
  unfold check_cache. by rewrite check_cache_from_translations, length_map.
Qed.

Lemma check_cache_indices_length idx cache texts :
  length (text_indices (check_cache_from idx cache texts)) =
  length (texts_to_translate (check_cache_from idx cache texts)).
Proof.
  revert idx. induction texts as [|t texts IH]; intros idx; [done|].
  simpl. specialize (IH (S idx)).
  destruct (cache_get cache t) as [v|]; [destruct (truthy v)|];
    simpl; by rewrite ?IH.
Qed.

(** The [k]-th index recorded is the position of the [k]-th text sent. *)
Lemma check_cache_from_index_lookup idx cache texts k i :
  text_indices (check_cache_from idx cache texts) !! k = Some i ->
  idx <= i /\
  exists t, texts !! (i - idx) = Some t /\ uncached cache t = true /\
            texts_to_translate (check_cache_from idx cache texts) !! k = Some t.
Proof.
  revert idx k. induction texts as [|t texts IH]; intros idx k; [done|].
  simpl. pose proof (IH (S idx)) as IH'.
  assert (Hrest : forall k',
    text_indices (check_cache_from (S idx) cache texts) !! k' = Some i ->
    idx <= i /\ exists t', (t :: texts) !! (i - idx) = Some t' /\
      uncached cache t' = true /\
      texts_to_translate (check_cache_from (S idx) cache texts) !! k' = Some t').
  { intros k' Hk'. destruct (IH' k' Hk') as (Hle & t' & Ht' & Hu & Hl).
    split; [lia|]. exists t'. repeat split; try done.
    replace (i - idx) with (S (i - S idx)) by lia. done. }
  assert (Hmiss : uncached cache t = true ->
    (idx :: text_indices (check_cache_from (S idx) cache texts)) !! k = Some i ->
    idx <= i /\ exists t', (t :: texts) !! (i - idx) = Some t' /\
      uncached cache t' = true /\
      (t :: texts_to_translate (check_cache_from (S idx) cache texts)) !! k
        = Some t').
  { intros Hu Hk. destruct k as [|k]; simpl in Hk.
    - injection Hk as <-. split; [lia|]. exists t.
      by rewrite Nat.sub_diag.
    - by apply Hrest. }
  unfold uncached in Hmiss.
  destruct (cache_get cache t) as [v|]; [destruct (truthy v)|]; simpl;
    auto.
Qed.

(** The recorded indices are pairwise distinct. *)
Lemma check_cache_from_indices_NoDup idx cache texts :
  NoDup (text_indices (check_cache_from idx cache texts)).
Proof.
  revert idx. induction texts as [|t texts IH]; intros idx; [constructor|].
  simpl.
  assert (Hcons : NoDup
            (idx :: text_indices (check_cache_from (S idx) cache texts))).
  { constructor; [|apply IH]. intros Hi.
    apply list_elem_of_lookup in Hi as [k Hk].
    apply check_cache_from_index_lookup in Hk. lia. }
  destruct (cache_get cache t) as [v|]; [destruct (truthy v)|]; simpl;
    auto.
Qed.

Lemma check_cache_indices_NoDup cache texts :
  NoDup (text_indices (check_cache cache texts)).
Proof. apply check_cache_from_indices_NoDup. Qed.

(** Every un-cached position is recorded, at its rank. *)
Lemma check_cache_from_index_of idx cache texts p t :
  texts !! p = Some t -> uncached cache t = true ->
  text_indices (check_cache_from idx cache texts) !! rank cache texts p
    = Some (idx + p).
Proof.
  revert idx p. induction texts as [|t0 texts IH]; intros idx p; [done|].
  intros Hp Hu. destruct p as [|p]; simpl in Hp.
  - injection Hp as ->. simpl. unfold uncached in Hu.
    destruct (cache_get cache t) as [v|]; [destruct (truthy v)|]; simpl;
      try done; by rewrite Nat.add_0_r.
  - specialize (IH (S idx) p Hp Hu). unfold rank in *. simpl.
    replace (idx + S p) with (S idx + p) by lia.
    unfold uncached at 1 3.
    destruct (cache_get cache t0) as [v|]; [destruct (truthy v)|]; simpl;
      done.
Qed.

Lemma check_cache_hit_slot cache texts p t :
  texts !! p = Some t -> uncached cache t = false ->
  translations (check_cache cache texts) !! p = cache_get cache t /\
  p ∉ text_indices (check_cache cache texts).
Proof.
  intros Hp Hu. unfold check_cache. split.
  - rewrite check_cache_from_translations, list_lookup_fmap, Hp. simpl.
    rewrite Hu. apply uncached_false in Hu as (v & Hv & _). by rewrite Hv.
  - intros Hin. apply list_elem_of_lookup in Hin as [k Hk].
    apply check_cache_from_index_lookup in Hk as (_ & t' & Ht' & Hu' & _).
    rewrite Nat.sub_0_r in Ht'. congruence.
Qed.

(** ** Writing results into the index-addressed slots *)

Lemma write_slots_length ps tr : length (write_slots ps tr) = length tr.
Proof.
  revert tr. induction ps as [|p ps IH]; intros tr; [done|].
  simpl. unfold write_slots in IH. by rewrite IH, length_insert.
Qed.

Lemma write_slots_other ps tr j :
  j ∉ ps.*1 -> write_slots ps tr !! j = tr !! j.
Proof.
  revert tr. induction ps as [|[i v] ps IH]; intros tr Hj; [done|].
  simpl in *. apply not_elem_of_cons in Hj as [Hne Hj].
  unfold write_slots in IH. rewrite IH by done.
  by apply list_lookup_insert_ne.
Qed.

Lemma write_slots_at ps tr k j v :
  NoDup ps.*1 -> ps !! k = Some (j, v) -> j < length tr ->
  write_slots ps tr !! j = Some v.
Proof.
  revert tr k. induction ps as [|[i w] ps IH]; intros tr k Hnd Hk Hlt; [done|].
  simpl in *. apply NoDup_cons in Hnd as [Hni Hnd].
  destruct k as [|k]; simpl in Hk.
  - injection Hk as -> ->.
    fold (write_slots ps (<[j:=v]> tr)).
    rewrite write_slots_other by done. by apply list_lookup_insert_eq.
  - fold (write_slots ps (<[i:=w]> tr)).
    apply (IH _ k); [done|done|]. by rewrite length_insert.
Qed.

Lemma store_translations_split texts ps cache tr :
  fold_left (store_one texts) ps (cache, tr) =
  (apply_sets (map (fun p : nat * json => (texts !!! p.1, p.2)) ps) cache,
   write_slots ps tr).
Proof.
  revert cache tr. induction ps as [|p ps IH]; intros cache tr; [done|].
  simpl. unfold store_one at 2. simpl. by rewrite IH.
Qed.

Lemma fallback_write_slots texts ck :
  fallback texts ck =
  write_slots (map (fun idx => (idx, JStr (texts !!! idx))) (text_indices ck))
              (translations ck).
Proof.
  unfold fallback, write_slots.
  generalize (translations ck). induction (text_indices ck) as [|i l IH];
    intros tr; [done|]. simpl. by rewrite IH.
Qed.

(** What an accepted response leaves in the result: at an un-cached
    position the response element of the same rank, elsewhere the cached
    translation. *)
Lemma accepted_slots cache texts l :
  length l = length (texts_to_translate (check_cache cache texts)) ->
  let result := (store_translations texts cache (check_cache cache texts) l).2 in
  length result = length texts /\
  forall p t, texts !! p = Some t ->
    if uncached cache t then
      text_indices (check_cache cache texts) !! rank cache texts p = Some p /\
      texts_to_translate (check_cache cache texts) !! rank cache texts p
        = Some t /\
      exists v, l !! rank cache texts p = Some v /\ result !! p = Some v
    else result !! p = cache_get cache t.
Proof.
  intros Hlen result. subst result. unfold store_translations.
  rewrite store_translations_split. simpl.
  set (ck := check_cache cache texts) in *.
  assert (Hfst : (zip (text_indices ck) l).*1 = text_indices ck).
  { apply fst_zip. subst ck. unfold check_cache.
    rewrite check_cache_indices_length. unfold check_cache in Hlen. lia. }
  split; [by rewrite write_slots_length; apply check_cache_length|].
  intros p t Hp. destruct (uncached cache t) eqn:Hu.
  - pose proof (check_cache_from_index_of 0 cache texts p t Hp Hu) as Hidx.
    simpl in Hidx. fold (check_cache cache texts) in Hidx. fold ck in Hidx.
    destruct (check_cache_from_index_lookup 0 cache texts _ _ Hidx)
      as (_ & t' & Ht' & _ & Hsent).
    rewrite Nat.sub_0_r in Ht'. assert (t' = t) as -> by congruence.
    split; [done|]. split; [done|].
    assert (Hk : rank cache texts p < length l).
    { rewrite Hlen. by apply lookup_lt_Some in Hsent. }
    destruct (lookup_lt_is_Some_2 l _ Hk) as [v Hv]. exists v. split; [done|].
    apply (write_slots_at _ _ (rank cache texts p)).
    + by rewrite Hfst; apply check_cache_indices_NoDup.
    + apply lookup_zip_with_Some. eauto.
    + subst ck. rewrite check_cache_length. by apply lookup_lt_Some in Hp.
  - destruct (check_cache_hit_slot cache texts p t Hp Hu) as [Hslot Hni].
    rewrite write_slots_other by (by rewrite Hfst). done.
Qed.

(** What the fallback leaves in the result: at an un-cached position the
    source text itself, elsewhere the cached translation. *)
Lemma fallback_slots cache texts :
  let result := fallback texts (check_cache cache texts) in
  length result = length texts /\
  forall p t, texts !! p = Some t ->
    if uncached cache t then result !! p = Some (JStr t)
    else result !! p = cache_get cache t.
Proof.
  intros result. subst result. rewrite fallback_write_slots.
  set (ck := check_cache cache texts).
  assert (Hfst : (map (fun idx => (idx, JStr (texts !!! idx)))
                      (text_indices ck)).*1 = text_indices ck).
  { rewrite <- list_fmap_compose. apply list_fmap_id. }
  split; [by rewrite write_slots_length; apply check_cache_length|].
  intros p t Hp. destruct (uncached cache t) eqn:Hu.
  - pose proof (check_cache_from_index_of 0 cache texts p t Hp Hu) as Hidx.
    simpl in Hidx. fold (check_cache cache texts) in Hidx. fold ck in Hidx.
    apply (write_slots_at _ _ (rank cache texts p)).
    + by rewrite Hfst; apply check_cache_indices_NoDup.
    + rewrite list_lookup_fmap, Hidx. simpl.
      by rewrite (list_lookup_total_correct _ _ _ Hp).
    + subst ck. rewrite check_cache_length. by apply lookup_lt_Some in Hp.
  - destruct (check_cache_hit_slot cache texts p t Hp Hu) as [Hslot Hni].
    rewrite write_slots_other by (by rewrite Hfst). done.
Qed.

(** ** The retry loop *)

Lemma first_success {A} (f : nat -> option A) (n : nat) :
  (exists K x, K < n /\ (forall j, j < K -> f j = None) /\ f K = Some x) \/
  (forall j, j < n -> f j = None).
Proof.
  induction n as [|n [(K & x & HK & Hnone & Hsome)|Hnone]].
  - right. intros j Hj. lia.
  - left. exists K, x. split; [lia|done].
  - destruct (f n) as [x|] eqn:Hn.
    + left. exists n, x. split; [lia|done].
    + right. intros j Hj. destruct (decide (j = n)) as [-> |]; [done|].
      apply Hnone. lia.
Qed.

Section TranslatorFacts.

Variable json_loads : string -> option json.

Lemma drive_done fuel resp cache result :
  drive json_loads fuel resp cache (Done result) = (cache, Done result, []).
Proof. by destruct fuel. Qed.

Lemma resume_accept cache texts ck a o l :
  attempt_body json_loads ck o = Some l ->
  resume json_loads cache (InFlight texts ck a) o =
  ((store_translations texts cache ck l).1,
   Done (store_translations texts cache ck l).2,
   store_events texts ck l ++ [EvExit]).
Proof.
  intros Hl. simpl. rewrite Hl.
  by destruct (store_translations texts cache ck l).
Qed.

Lemma resume_retry cache texts ck a o :
  attempt_body json_loads ck o = None -> a < max_retries - 1 ->
  resume json_loads cache (InFlight texts ck a) o =
  (cache, InFlight texts ck (S a),
   [EvSleep (2 ^ a); EvPost (S a) (texts_to_translate ck)]).
Proof.
  intros Hl Ha. unfold resume. rewrite Hl.
  by destruct (Nat.ltb_spec a (max_retries - 1)); [|lia].
Qed.

Lemma resume_fallback cache texts ck a o :
  attempt_body json_loads ck o = None -> max_retries - 1 <= a ->
  resume json_loads cache (InFlight texts ck a) o =
  (cache, Done (fallback texts ck), [EvExit]).
Proof.
  intros Hl Ha. unfold resume. rewrite Hl.
  by destruct (Nat.ltb_spec a (max_retries - 1)); [lia|].
Qed.

(** [K] failures from attempt [a] on, then an accepted response. *)
Lemma drive_accept K : forall fuel a resp cache texts ck l,
  (forall j, a <= j < a + K -> attempt_body json_loads ck (resp j) = None) ->
  attempt_body json_loads ck (resp (a + K)) = Some l ->
  a + K < max_retries -> K < fuel ->
  drive json_loads fuel resp cache (InFlight texts ck a) =
  ((store_translations texts cache ck l).1,
   Done (store_translations texts cache ck l).2,
   backoff_events ck a K ++ store_events texts ck l ++ [EvExit]).
Proof.
  induction K as [|K IH]; intros fuel a resp cache texts ck l Hnone Hsome Hlt Hf;
    (destruct fuel as [|fuel]; [lia|]).
  - rewrite Nat.add_0_r in Hsome.
    cbn [drive]. rewrite (resume_accept _ _ _ _ _ _ Hsome), drive_done.
    by rewrite app_nil_r.
  - cbn [drive]. rewrite resume_retry by (try apply Hnone; lia).
    rewrite (IH fuel (S a) resp cache texts ck l); try lia.
    + done.
    + intros j Hj. apply Hnone. lia.
    + by replace (S a + K) with (a + S K) by lia.
Qed.

(** Every attempt from [a] on fails. *)
Lemma drive_exhaust n : forall fuel a resp cache texts ck,
  (forall j, a <= j < max_retries ->
             attempt_body json_loads ck (resp j) = None) ->
  a + n = max_retries - 1 -> n < fuel ->
  drive json_loads fuel resp cache (InFlight texts ck a) =
  (cache, Done (fallback texts ck), backoff_events ck a n ++ [EvExit]).
Proof.
  induction n as [|n IH]; intros fuel a resp cache texts ck Hnone Ha Hf;
    (destruct fuel as [|fuel]; [lia|]).
  - cbn [drive]. rewrite resume_fallback, drive_done; [done| |lia].
    apply Hnone. unfold max_retries in *. lia.
  - cbn [drive]. rewrite resume_retry by (try apply Hnone; lia).
    rewrite (IH fuel (S a) resp cache texts ck); try lia; [done|].
    intros j Hj. apply Hnone. lia.
Qed.

(** The three ways a batch call ends. *)
Lemma translate_batch_async_all_cached cache texts resp :
  texts_to_translate (check_cache cache texts) = [] ->
  translate_batch_async json_loads cache texts resp =
  (cache, Done (translations (check_cache cache texts)), []).
Proof.
  intros Hnil. unfold translate_batch_async, start. rewrite Hnil.
  by rewrite drive_done.
Qed.

Lemma translate_batch_async_accepted cache texts resp K l :
  let ck := check_cache cache texts in
  texts_to_translate ck <> [] ->
  (forall j, j < K -> attempt_body json_loads ck (resp j) = None) ->
  attempt_body json_loads ck (resp K) = Some l ->
  K < max_retries ->
  translate_batch_async json_loads cache texts resp =
  ((store_translations texts cache ck l).1,
   Done (store_translations texts cache ck l).2,
   [EvAcquire; EvEnter; EvPost 0 (texts_to_translate ck)] ++
   backoff_events ck 0 K ++ store_events texts ck l ++ [EvExit]).
Proof.
  intros ck Hne Hnone Hsome HK. unfold translate_batch_async, start.
  fold ck. destruct (texts_to_translate ck) as [|t ts] eqn:Htt; [done|].
  rewrite (drive_accept K max_retries 0 resp cache texts ck l); try done.
  intros j Hj. apply Hnone. lia.
Qed.

Lemma translate_batch_async_exhausted cache texts resp :
  let ck := check_cache cache texts in
  texts_to_translate ck <> [] ->
  (forall j, j < max_retries -> attempt_body json_loads ck (resp j) = None) ->
  translate_batch_async json_loads cache texts resp =
  (cache, Done (fallback texts ck),
   [EvAcquire; EvEnter; EvPost 0 (texts_to_translate ck)] ++
   backoff_events ck 0 (max_retries - 1) ++ [EvExit]).
Proof.
  intros ck Hne Hnone. unfold translate_batch_async, start.
  fold ck. destruct (texts_to_translate ck) as [|t ts] eqn:Htt; [done|].
  rewrite (drive_exhaust (max_retries - 1) max_retries 0 resp cache texts ck).
  - done.
  - intros j Hj. apply Hnone. lia.
  - done.
  - unfold max_retries. lia.
Qed.

(** The call always returns a list. *)
Lemma translate_batch_async_returns cache texts resp :
  exists result,
    (translate_batch_async json_loads cache texts resp).1.2 = Done result.
Proof.
  destruct (texts_to_translate (check_cache cache texts)) as [|t ts] eqn:Htt.
  - rewrite translate_batch_async_all_cached by done. by eexists.
  - destruct (first_success
               (fun j => attempt_body json_loads (check_cache cache texts)
                                      (resp j)) max_retries)
      as [(K & l & HK & Hnone & Hsome)|Hnone].
    + rewrite (translate_batch_async_accepted _ _ _ K l);
        [by eexists|by rewrite Htt|done..].
    + rewrite translate_batch_async_exhausted; [by eexists|by rewrite Htt|done].
Qed.

End TranslatorFacts.

(** ** Reading the trace *)

Lemma sleeps_of_backoff ck a K :
  sleeps_of (backoff_events ck a K) = map (fun i => 2 ^ i) (seq a K).
Proof.
  unfold backoff_events. revert a.
  induction K as [|K IH]; intros a; [done|]. simpl. f_equal. apply IH.
Qed.

Lemma cache_sets_of_backoff ck a K : cache_sets_of (backoff_events ck a K) = [].
Proof.
  unfold backoff_events. revert a.
  induction K as [|K IH]; intros a; [done|]. simpl. apply IH.
Qed.

Lemma sleeps_of_store texts ck l : sleeps_of (store_events texts ck l) = [].
Proof.
  unfold store_events. by induction (zip (text_indices ck) l) as [|p ps IH].
Qed.

Lemma cache_sets_of_store texts ck l :
  cache_sets_of (store_events texts ck l) =
  map (fun p : nat * json => (texts !!! p.1, p.2)) (zip (text_indices ck) l).
Proof.
  unfold store_events. induction (zip (text_indices ck) l) as [|p ps IH];
    [done|]. simpl. by rewrite <- IH.
Qed.

Lemma store_translations_cache texts cache ck l :
  (store_translations texts cache ck l).1 =
  apply_sets (cache_sets_of (store_events texts ck l)) cache.
Proof.
  unfold store_translations.
  by rewrite store_translations_split, cache_sets_of_store.
Qed.

(** Nothing un-cached is left exactly when every text is a hit. *)
Lemma all_cached_uncached cache texts :
  texts_to_translate (check_cache cache texts) = [] <->
  forall t, t ∈ texts -> uncached cache t = false.
Proof.
  unfold check_cache. rewrite check_cache_from_texts. split.
  - intros Hnil t Ht. destruct (uncached cache t) eqn:Hu; [|done].
    assert (Hin : In t (List.filter (uncached cache) texts)).
    { apply filter_In. split; [by apply list_elem_of_In|done]. }
    rewrite Hnil in Hin. destruct Hin.
  - intros Hall. induction texts as [|t texts IH]; [done|]. simpl.
    rewrite (Hall t) by left. apply IH. intros t' Ht'. apply Hall. by right.
Qed.

Lemma rank_all_uncached cache texts p :
  (forall t, t ∈ texts -> uncached cache t = true) -> p <= length texts ->
  rank cache texts p = p.
Proof.
  unfold rank. revert p. induction texts as [|t texts IH]; intros p Hall Hp.
  - simpl in Hp. by assert (p = 0) as -> by lia.
  - destruct p as [|p]; [done|]. simpl in *. rewrite (Hall t) by left.
    simpl. f_equal. apply IH; [|lia]. intros t' Ht'. apply Hall. by right.
Qed.

Section AttemptFacts.

Variable json_loads : string -> option json.

(** An attempt is accepted exactly when the parsed content is a list as
    long as the request. *)
Lemma attempt_body_Some ck o l :
  attempt_body json_loads ck o = Some l <->
  parse_response json_loads o = Some (JList l) /\
  length l = length (texts_to_translate ck).
Proof.
  unfold attempt_body. destruct (parse_response json_loads o) as [v|];
    simpl; [|split; [done|by intros [? _]]].
  destruct v as [| | | | |l'|]; simpl;
    try (split; [done|by intros [? _]]).
  destruct (Nat.eqb_spec (length l') (length (texts_to_translate ck)))
    as [Heq|Hne]; split.
  - by intros [= ->].
  - by intros [[= ->] _].
  - done.
  - intros [[= ->] ?]. done.
Qed.

End AttemptFacts.

(** ** The batch translator: claims *)

Lemma hit_slot_value cache (result : list json) p t :
  uncached cache t = false ->
  result !! p = cache_get cache t ->
  exists cached, cache_hit cache t cached /\ result !! p = Some cached.
Proof.
  intros Hu Hres. destruct (uncached_false _ _ Hu) as (v & Hv).
  exists v. split; [done|]. rewrite Hres. apply Hv.
Qed.

(** C2 -- Fallback degradation. When the remote call of a batch fails on
    every one of the [max_retries] attempts, [translate_batch_async] still
    returns a list (nothing is raised): it has one slot per input text, every
    un-cached text's slot holds that text itself, every cached text's slot
    holds its cached translation, and the cache is left as it was. *)
Theorem fallback_degradation json_loads cache texts resp :
  (forall j, j < max_retries ->
     attempt_body json_loads (check_cache cache texts) (resp j) = None) ->
  exists result ev,
    translate_batch_async json_loads cache texts resp
      = (cache, Done result, ev) /\
    length result = length texts /\
    forall p t, texts !! p = Some t ->
      if uncached cache t then result !! p = Some (JStr t)
      else exists cached, cache_hit cache t cached /\ result !! p = Some cached.
Proof.
  intros Hfail.
  destruct (texts_to_translate (check_cache cache texts)) as [|t0 ts] eqn:Htt.
  - exists (translations (check_cache cache texts)), [].
    split; [by apply translate_batch_async_all_cached|].
    split; [apply check_cache_length|].
    intros p t Hp.
    assert (Hu : uncached cache t = false).
    { apply (proj1 (all_cached_uncached cache texts) Htt).
      apply list_elem_of_lookup. eauto. }
    rewrite Hu. apply (hit_slot_value cache _ p t Hu).
    by apply check_cache_hit_slot.
  - eexists _, _. split.
    { apply translate_batch_async_exhausted; [by rewrite Htt|done]. }
    destruct (fallback_slots cache texts) as [Hlen Hslots].
    split; [done|]. intros p t Hp. specialize (Hslots p t Hp).
    destruct (uncached cache t) eqn:Hu; [done|].
    by apply (hit_slot_value cache _ p t Hu).
Qed.

Lemma fallback_degradation_witness :
  exists result ev,
    translate_batch_async sample_loads ∅ sample_texts (fun _ => HttpError)
      = (∅, Done result, ev) /\
    length result = length sample_texts /\
    forall p t, sample_texts !! p = Some t ->
      if uncached ∅ t then result !! p = Some (JStr t)
      else exists cached, cache_hit ∅ t cached /\ result !! p = Some cached.
Proof.
  apply (fallback_degradation sample_loads ∅ sample_texts (fun _ => HttpError)).
  intros j _. reflexivity.
Defined.

(** C3 -- Backoff and recovery. A batch call that sends a request, fails on
    exactly its first [K] attempts ([K < max_retries]) and is accepted on
    the next one sleeps 2^0, 2^1, ..., 2^(K-1) seconds in that order, so the
    induced delay is the sum of 2^i for i in [0, K-1]; the list it returns
    carries the successful response: the [k]-th translation of the response
    sits in the slot of the [k]-th un-cached text, cached texts keep their
    cached translation, and when nothing was cached the list is the response
    itself. *)
Theorem backoff_and_recovery json_loads cache texts resp K l :
  texts_to_translate (check_cache cache texts) <> [] ->
  K < max_retries ->
  (forall j, j < K ->
     attempt_body json_loads (check_cache cache texts) (resp j) = None) ->
  attempt_body json_loads (check_cache cache texts) (resp K) = Some l ->
  exists cache' result ev,
    translate_batch_async json_loads cache texts resp
      = (cache', Done result, ev) /\
    sleeps_of ev = map (fun i => 2 ^ i) (seq 0 K) /\
    total_delay ev = sum_list (map (fun i => 2 ^ i) (seq 0 K)) /\
    length result = length texts /\
    (forall p t, texts !! p = Some t ->
       if uncached cache t then
         exists v, l !! rank cache texts p = Some v /\ result !! p = Some v
       else exists cached, cache_hit cache t cached /\ result !! p = Some cached) /\
    (forall k v, l !! k = Some v ->
       exists p, text_indices (check_cache cache texts) !! k = Some p /\
                 result !! p = Some v) /\
    ((forall t, t ∈ texts -> uncached cache t = true) -> result = l).
Proof.
  intros Hne HK Hnone Hsome.
  pose proof (proj1 (attempt_body_Some _ _ _ _) Hsome) as [_ Hlen].
  destruct (accepted_slots cache texts l Hlen) as [Hrlen Hslots].
  eexists _, _, _. split.
  { by apply (translate_batch_async_accepted json_loads cache texts resp K l). }
  assert (Hsl : sleeps_of
            ([EvAcquire; EvEnter;
              EvPost 0 (texts_to_translate (check_cache cache texts))] ++
             backoff_events (check_cache cache texts) 0 K ++
             store_events texts (check_cache cache texts) l ++ [EvExit])
          = map (fun i => 2 ^ i) (seq 0 K)).
  { unfold sleeps_of. rewrite !omap_app.
    fold (sleeps_of (backoff_events (check_cache cache texts) 0 K)).
    fold (sleeps_of (store_events texts (check_cache cache texts) l)).
    rewrite sleeps_of_backoff, sleeps_of_store. simpl. by rewrite app_nil_r. }
  split; [done|]. split; [by unfold total_delay; rewrite Hsl|].
  split; [done|]. split; [|split].
  - intros p t Hp. specialize (Hslots p t Hp).
    destruct (uncached cache t) eqn:Hu.
    + by destruct Hslots as (_ & _ & Hv).
    + by apply (hit_slot_value cache _ p t Hu).
  - intros k v Hk.
    assert (Hklt : k < length (text_indices (check_cache cache texts))).
    { unfold check_cache. rewrite check_cache_indices_length.
      fold (check_cache cache texts). rewrite <- Hlen.
      by apply lookup_lt_Some in Hk. }
    destruct (lookup_lt_is_Some_2 _ _ Hklt) as [p Hp]. exists p.
    split; [done|].
    destruct (check_cache_from_index_lookup 0 cache texts k p Hp)
      as (_ & t & Ht & Hu & _).
    rewrite Nat.sub_0_r in Ht. specialize (Hslots p t Ht). rewrite Hu in Hslots.
    destruct Hslots as (Hidx & _ & v' & Hv' & Hres).
    assert (rank cache texts p = k) as Hrk.
    { eapply NoDup_lookup; [apply check_cache_indices_NoDup|done..]. }
    rewrite Hrk in Hv'. congruence.
  - intros Hall. apply list_eq. intros p.
    destruct (texts !! p) as [t|] eqn:Hp.
    + specialize (Hslots p t Hp). rewrite Hall in Hslots
        by (apply list_elem_of_lookup; eauto).
      destruct Hslots as (_ & _ & v & Hv & Hres).
      rewrite rank_all_uncached in Hv; [congruence|done|].
      apply lookup_lt_Some in Hp. lia.
    + apply lookup_ge_None in Hp.
      rewrite !(proj2 (lookup_ge_None _ _)); [done| |lia].
      rewrite Hlen. unfold check_cache. rewrite check_cache_from_texts.
      assert (List.filter (uncached cache) texts = texts) as ->; [|done].
      clear -Hall. induction texts as [|t texts IH]; [done|]. simpl.
      rewrite (Hall t) by left. f_equal. apply IH. intros t' Ht'.
      apply Hall. by right.
Qed.

Lemma backoff_and_recovery_witness :
  exists cache' result ev,
    translate_batch_async sample_loads ∅ sample_texts
      (fun j => if j =? 0 then HttpError else body_of "```json PAIR ```")
      = (cache', Done result, ev) /\
    sleeps_of ev = map (fun i => 2 ^ i) (seq 0 1) /\
    total_delay ev = sum_list (map (fun i => 2 ^ i) (seq 0 1)) /\
    length result = length sample_texts /\
    (forall p t, sample_texts !! p = Some t ->
       if uncached ∅ t then
         exists v, [JStr "Hi, all good?"; JStr "How much does it cost?"]
                     !! rank ∅ sample_texts p = Some v /\
                   result !! p = Some v
       else exists cached, cache_hit ∅ t cached /\ result !! p = Some cached) /\
    (forall k v,
       [JStr "Hi, all good?"; JStr "How much does it cost?"] !! k = Some v ->
       exists p, text_indices (check_cache ∅ sample_texts) !! k = Some p /\
                 result !! p = Some v) /\
    ((forall t, t ∈ sample_texts -> uncached ∅ t = true) ->
     result = [JStr "Hi, all good?"; JStr "How much does it cost?"]).
Proof.
  apply (backoff_and_recovery sample_loads ∅ sample_texts
           (fun j => if j =? 0 then HttpError else body_of "```json PAIR ```")
           1 [JStr "Hi, all good?"; JStr "How much does it cost?"]).
  - discriminate.
  - unfold max_retries. lia.
  - intros j Hj. assert (j = 0) as -> by lia. reflexivity.
  - reflexivity.
Defined.

Section BatchClaims.

Variable json_loads : string -> option json.

(** How a batch call ends: everything cached, an accepted attempt after
    [K] failures, or [max_retries] failures. *)
Lemma translate_batch_async_cases cache texts resp :
  let ck := check_cache cache texts in
  (texts_to_translate ck = [] /\
   translate_batch_async json_loads cache texts resp
     = (cache, Done (translations ck), [])) \/
  (texts_to_translate ck <> [] /\
   exists K l, K < max_retries /\
     (forall j, j < K -> attempt_body json_loads ck (resp j) = None) /\
     attempt_body json_loads ck (resp K) = Some l /\
     translate_batch_async json_loads cache texts resp
       = ((store_translations texts cache ck l).1,
          Done (store_translations texts cache ck l).2,
          [EvAcquire; EvEnter; EvPost 0 (texts_to_translate ck)] ++
          backoff_events ck 0 K ++ store_events texts ck l ++ [EvExit])) \/
  (texts_to_translate ck <> [] /\
   (forall j, j < max_retries -> attempt_body json_loads ck (resp j) = None) /\
   translate_batch_async json_loads cache texts resp
     = (cache, Done (fallback texts ck),
        [EvAcquire; EvEnter; EvPost 0 (texts_to_translate ck)] ++
        backoff_events ck 0 (max_retries - 1) ++ [EvExit])).
Proof.
  cbv zeta.
  destruct (texts_to_translate (check_cache cache texts)) as [|t ts] eqn:Htt.
  { left. split; [done|]. by apply translate_batch_async_all_cached. }
  right.
  destruct (first_success
              (fun j => attempt_body json_loads (check_cache cache texts)
                                     (resp j)) max_retries)
    as [(K & l & HK & Hnone & Hsome)|Hnone].
  - left. split; [done|]. exists K, l. repeat split; try done.
    rewrite <- Htt.
    apply translate_batch_async_accepted; try done. by rewrite Htt.
  - right. split; [done|]. split; [done|]. rewrite <- Htt.
    apply translate_batch_async_exhausted; [by rewrite Htt|done].
Qed.

Lemma cache_sets_of_accepted_trace ck texts K l :
  cache_sets_of ([EvAcquire; EvEnter; EvPost 0 (texts_to_translate ck)] ++
                 backoff_events ck 0 K ++ store_events texts ck l ++ [EvExit])
  = cache_sets_of (store_events texts ck l).
Proof.
  unfold cache_sets_of. rewrite !omap_app.
  fold (cache_sets_of (backoff_events ck 0 K)).
  rewrite cache_sets_of_backoff. simpl. by rewrite app_nil_r.
Qed.

Lemma cache_sets_of_exhausted_trace ck K :
  cache_sets_of ([EvAcquire; EvEnter; EvPost 0 (texts_to_translate ck)] ++
                 backoff_events ck 0 K ++ [EvExit]) = [].
Proof.
  unfold cache_sets_of. rewrite !omap_app.
  fold (cache_sets_of (backoff_events ck 0 K)).
  by rewrite cache_sets_of_backoff.
Qed.

(** C4 -- Response length validation. An attempt is accepted exactly when
    the parsed content of the response is a list whose length is the number
    of un-cached texts sent; an accepted attempt merges and caches the
    translations; every other attempt, in particular a parsed response that
    is no list or a list of another length, is a failure of the attempt: it
    leaves the cache untouched, calls no [cache.set], and leads to a retry
    after the backoff sleep or to the fallback. *)
Theorem response_length_validation cache texts ck a o :
  (forall l, attempt_body json_loads ck o = Some l <->
     parse_response json_loads o = Some (JList l) /\
     length l = length (texts_to_translate ck)) /\
  (forall l, attempt_body json_loads ck o = Some l ->
     resume json_loads cache (InFlight texts ck a) o =
     ((store_translations texts cache ck l).1,
      Done (store_translations texts cache ck l).2,
      store_events texts ck l ++ [EvExit])) /\
  (forall v, parse_response json_loads o = Some v ->
     (forall l, v = JList l -> length l <> length (texts_to_translate ck)) ->
     attempt_body json_loads ck o = None) /\
  (attempt_body json_loads ck o = None ->
     exists t' ev,
       resume json_loads cache (InFlight texts ck a) o = (cache, t', ev) /\
       cache_sets_of ev = [] /\
       (a < max_retries - 1 /\ t' = InFlight texts ck (S a) /\
        sleeps_of ev = [2 ^ a]
        \/ max_retries - 1 <= a /\ t' = Done (fallback texts ck))).
Proof.
  split; [intros l; apply attempt_body_Some|].
  split; [intros l; apply resume_accept|]. split.
  - intros v Hv Hbad.
    destruct (attempt_body json_loads ck o) as [l|] eqn:Hl; [|done].
    apply attempt_body_Some in Hl as [Hp Hlen].
    rewrite Hp in Hv. injection Hv as <-. by destruct (Hbad l).
  - intros Hnone. destruct (Nat.lt_ge_cases a (max_retries - 1)) as [Ha|Ha].
    + eexists _, _. split; [by apply resume_retry|]. split; [done|].
      left. done.
    + eexists _, _. split; [by apply resume_fallback|]. split; [done|].
      right. done.
Qed.

(** C9 -- Degraded results never poison the cache. A batch call changes the
    cache only through its [cache.set] calls, and each of them stores an
    element of a response that was parsed and length-validated, under the
    text sent at the same position. When every attempt fails, no [cache.set]
    is made and the cache is left as it was, although the source texts are
    written into the result; so on the next run the cache check classifies
    the batch exactly as before and the same texts are sent again. *)
Theorem degraded_results_not_cached cache texts resp :
  let ck := check_cache cache texts in
  exists cache' result ev,
    translate_batch_async json_loads cache texts resp
      = (cache', Done result, ev) /\
    cache' = apply_sets (cache_sets_of ev) cache /\
    (forall t v, (t, v) ∈ cache_sets_of ev ->
       exists K l k, K < max_retries /\
         parse_response json_loads (resp K) = Some (JList l) /\
         length l = length (texts_to_translate ck) /\
         texts_to_translate ck !! k = Some t /\ l !! k = Some v) /\
    ((forall j, j < max_retries ->
        attempt_body json_loads ck (resp j) = None) ->
     cache_sets_of ev = [] /\ cache' = cache /\
     (forall p t, texts !! p = Some t -> uncached cache t = true ->
        result !! p = Some (JStr t) /\ uncached cache' t = true) /\
     check_cache cache' texts = ck).
Proof.
  cbv zeta.
  destruct (translate_batch_async_cases cache texts resp)
    as [[Htt Hrun]|[(Hne & K & l & HK & Hnone & Hsome & Hrun)
                   |(Hne & Hnone & Hrun)]];
    rewrite Hrun; eexists _, _, _; (split; [done|]).
  - split; [done|]. split; [by intros t v Hin; apply elem_of_nil in Hin|].
    intros _. split; [done|]. split; [done|]. split; [|done].
    intros p t Hp Hu.
    rewrite (proj1 (all_cached_uncached cache texts) Htt t) in Hu; [done|].
    apply list_elem_of_lookup. eauto.
  - rewrite cache_sets_of_accepted_trace. split; [apply store_translations_cache|].
    split.
    + intros t v Hin. rewrite cache_sets_of_store in Hin.
      apply list_elem_of_fmap in Hin as ([i w] & [= -> ->] & Hin).
      apply list_elem_of_lookup in Hin as [k Hk].
      apply lookup_zip_with_Some in Hk as (i' & w' & [= <- <-] & Hi & Hw).
      apply attempt_body_Some in Hsome as [Hparse Hlen].
      exists K, l, k. repeat split; try done.
      destruct (check_cache_from_index_lookup 0 cache texts k i Hi)
        as (_ & t & Ht & _ & Hsent).
      rewrite Nat.sub_0_r in Ht. simpl.
      by rewrite (list_lookup_total_correct _ _ _ Ht).
    + intros Hfail. rewrite (Hfail K HK) in Hsome. done.
  - rewrite cache_sets_of_exhausted_trace. split; [done|].
    split; [by intros t v Hin; apply elem_of_nil in Hin|].
    intros _. split; [done|]. split; [done|]. split; [|done].
    intros p t Hp Hu. split; [|done].
    pose proof (proj2 (fallback_slots cache texts) p t Hp) as Hslot.
    by rewrite Hu in Hslot.
Qed.

(** C10 -- Empty-string cache entries are treated as misses. When the cache
    holds the empty string for a text, [TranslationCache.get] returns it,
    yet the truthiness test of the cache check takes it for a miss: the
    text's slot is left at None, the text is put on the list of texts to
    translate at its rank, and the batch call acquires the rate limiter and
    the semaphore and posts a request that carries the text. *)
Theorem empty_string_entry_is_a_miss cache texts resp p t :
  texts !! p = Some t ->
  cache_get cache t = Some (JStr EmptyString) ->
  let ck := check_cache cache texts in
  uncached cache t = true /\
  translations ck !! p = Some JNull /\
  text_indices ck !! rank cache texts p = Some p /\
  texts_to_translate ck !! rank cache texts p = Some t /\
  exists ev,
    (translate_batch_async json_loads cache texts resp).2 =
    [EvAcquire; EvEnter; EvPost 0 (texts_to_translate ck)] ++ ev.
Proof.
  intros Hp Hget. cbv zeta.
  assert (Hu : uncached cache t = true) by (unfold uncached; by rewrite Hget).
  pose proof (check_cache_from_index_of 0 cache texts p t Hp Hu) as Hidx.
  simpl in Hidx. fold (check_cache cache texts) in Hidx.
  destruct (check_cache_from_index_lookup 0 cache texts _ _ Hidx)
    as (_ & t' & Ht' & _ & Hsent).
  rewrite Nat.sub_0_r in Ht'. assert (t' = t) as -> by congruence.
  fold (check_cache cache texts) in Hsent.
  split; [done|]. split.
  { unfold check_cache.
    rewrite check_cache_from_translations, list_lookup_fmap, Hp. simpl.
    by rewrite Hu. }
  split; [done|]. split; [done|].
  assert (Hne : texts_to_translate (check_cache cache texts) <> []).
  { intros Hnil. by rewrite Hnil in Hsent. }
  destruct (translate_batch_async_cases cache texts resp)
    as [[Htt _]|[(_ & K & l & _ & _ & _ & Hrun)|(_ & _ & Hrun)]];
    [done|rewrite Hrun; by eexists..].
Qed.

End BatchClaims.

(** Two texts were sent: a list of one element, an object and a body
    without choices are failures of the attempt; a list of two is accepted,
    also inside a code fence. *)
Example wrong_length_is_rejected :
  attempt_body sample_loads (check_cache ∅ sample_texts) (body_of "ONE")
  = None.
Proof. reflexivity. Qed.

Example non_list_is_rejected :
  attempt_body sample_loads (check_cache ∅ sample_texts) (body_of "OBJ")
  = None.
Proof. reflexivity. Qed.

Example malformed_body_is_rejected :
  attempt_body sample_loads (check_cache ∅ sample_texts)
               (HttpJson (JDict [("choices", JList [])])) = None.
Proof. reflexivity. Qed.

Example fenced_list_is_accepted :
  attempt_body sample_loads (check_cache ∅ sample_texts)
               (body_of "  ```json PAIR ```  ")
  = Some [JStr "Hi, all good?"; JStr "How much does it cost?"].
Proof. reflexivity. Qed.

Lemma empty_string_entry_is_a_miss_witness :
  let cache : cache_t := {[ "Quanto custa?" := JStr EmptyString ]} in
  let ck := check_cache cache sample_texts in
  uncached cache "Quanto custa?" = true /\
  translations ck !! 1 = Some JNull /\
  text_indices ck !! rank cache sample_texts 1 = Some 1 /\
  texts_to_translate ck !! rank cache sample_texts 1 = Some "Quanto custa?" /\
  exists ev,
    (translate_batch_async sample_loads cache sample_texts
       (fun _ => body_of "PAIR")).2 =
    [EvAcquire; EvEnter; EvPost 0 (texts_to_translate ck)] ++ ev.
Proof.
  apply (empty_string_entry_is_a_miss sample_loads
           {[ "Quanto custa?" := JStr EmptyString ]} sample_texts
           (fun _ => body_of "PAIR") 1 "Quanto custa?").
  - reflexivity.
  - reflexivity.
Defined.

(** ** The gather: every task ends as if it had run alone *)

Section GatherFacts.

Variable json_loads : string -> option json.

Lemma drive_step fuel resp cache texts ck a :
  drive json_loads (S fuel) resp cache (InFlight texts ck a) =
  let r := resume json_loads cache (InFlight texts ck a) (resp a) in
  let d := drive json_loads fuel resp r.1.1 r.1.2 in
  (d.1.1, d.1.2, r.2 ++ d.2).
Proof.
  cbn [drive].
  destruct (resume json_loads cache (InFlight texts ck a) (resp a))
    as [[c1 t1] ev1].
  cbn [fst snd].
  by destruct (drive json_loads fuel resp c1 t1) as [[c2 t2] ev2].
Qed.

Lemma resume_task_indep cache cache' t o :
  (resume json_loads cache t o).1.2 = (resume json_loads cache' t o).1.2.
Proof.
  destruct t as [texts ck a|r]; [|done].
  destruct (attempt_body json_loads ck o) as [l|] eqn:Hl.
  - rewrite !(resume_accept _ _ _ _ _ _ _ Hl). simpl.
    unfold store_translations. by rewrite !store_translations_split.
  - destruct (Nat.lt_ge_cases a (max_retries - 1));
      [rewrite !resume_retry by done|rewrite !resume_fallback by done]; done.
Qed.

Lemma resume_wf cache t o :
  task_wf t ->
  task_wf (resume json_loads cache t o).1.2 /\
  (task_need t <> 0 ->
   task_need (resume json_loads cache t o).1.2 < task_need t).
Proof.
  destruct t as [texts ck a|r]; [|done]. intros Ha.
  destruct (attempt_body json_loads ck o) as [l|] eqn:Hl.
  - rewrite (resume_accept _ _ _ _ _ _ _ Hl).
    unfold task_wf, task_need, max_retries in *. simpl. split; [done|lia].
  - destruct (Nat.lt_ge_cases a (max_retries - 1));
      [rewrite resume_retry by done|rewrite resume_fallback by done];
      unfold task_wf, task_need, max_retries in *; simpl; lia.
Qed.

Lemma drive_task_indep fuel resp : forall cache cache' t,
  (drive json_loads fuel resp cache t).1.2 =
  (drive json_loads fuel resp cache' t).1.2.
Proof.
  induction fuel as [|fuel IH]; intros cache cache' t; [done|].
  destruct t as [texts ck a|r]; [|done].
  rewrite !drive_step. cbn zeta. cbn [fst snd].
  rewrite (resume_task_indep cache cache'). apply IH.
Qed.

(** More fuel than needed changes nothing. *)
Lemma drive_fuel_stable fuel resp : forall fuel' cache t,
  task_wf t -> task_need t <= fuel -> task_need t <= fuel' ->
  (drive json_loads fuel resp cache t).1.2 =
  (drive json_loads fuel' resp cache t).1.2.
Proof.
  induction fuel as [|fuel IH]; intros fuel' cache t Hwf Hf Hf'.
  - destruct t as [texts ck a|r];
      [unfold task_wf, task_need in *; lia|]. by rewrite !drive_done.
  - destruct t as [texts ck a|r]; [|by rewrite !drive_done].
    destruct fuel' as [|fuel'];
      [unfold task_wf, task_need in *; lia|].
    rewrite !drive_step. cbn zeta. cbn [fst snd].
    destruct (resume_wf cache (InFlight texts ck a) (resp a) Hwf)
      as [Hwf' Hdec].
    apply IH; [done|..]; unfold task_wf, task_need in *; lia.
Qed.

Lemma drive_returns fuel resp : forall cache t,
  task_wf t -> task_need t <= fuel ->
  exists r, (drive json_loads fuel resp cache t).1.2 = Done r.
Proof.
  induction fuel as [|fuel IH]; intros cache t Hwf Hf.
  - destruct t as [texts ck a|r];
      [unfold task_wf, task_need in *; lia|]. by eexists.
  - destruct t as [texts ck a|r]; [|by eexists].
    rewrite drive_step. cbn zeta. cbn [fst snd].
    destruct (resume_wf cache (InFlight texts ck a) (resp a) Hwf)
      as [Hwf' Hdec].
    apply IH; [done|]. unfold task_wf, task_need in *. lia.
Qed.

(** Delivering a response does not change where the task settles. *)
Lemma outcome_resume resp cache texts ck a :
  a < max_retries ->
  outcome json_loads resp (resume json_loads cache (InFlight texts ck a) (resp a)).1.2
  = outcome json_loads resp (InFlight texts ck a).
Proof.
  intros Ha. unfold outcome at 2.
  change max_retries with (S (max_retries - 1)) at 1.
  rewrite drive_step. cbn zeta. cbn [fst snd].
  destruct (resume_wf ∅ (InFlight texts ck a) (resp a) Ha) as [Hwf' Hdec].
  rewrite (resume_task_indep cache ∅). unfold outcome.
  set (t' := (resume json_loads ∅ (InFlight texts ck a) (resp a)).1.2) in *.
  rewrite (drive_task_indep (max_retries - 1) resp _ ∅).
  apply drive_fuel_stable; [done|..];
    unfold task_wf, task_need, max_retries in *; lia.
Qed.

Lemma outcome_Done resp r : outcome json_loads resp (Done r) = Done r.
Proof. done. Qed.

Lemma start_wf cache batch : task_wf (start cache batch).1.
Proof.
  unfold start.
  destruct (texts_to_translate (check_cache cache batch)); simpl; [done|].
  unfold max_retries. lia.
Qed.

Lemma outcome_start cache batch resp :
  outcome json_loads resp (start cache batch).1 =
  Done (batch_result json_loads cache batch resp).
Proof.
  unfold batch_result.
  destruct (translate_batch_async_returns json_loads cache batch resp)
    as [r Hr].
  rewrite Hr. revert Hr. unfold translate_batch_async, outcome.
  destruct (start cache batch) as [t0 ev0]. cbn [fst snd].
  rewrite (drive_task_indep _ _ ∅ cache).
  by destruct (drive json_loads max_retries resp cache t0) as [[c t] ev].
Qed.

End GatherFacts.

Section PoolFacts.

Variable json_loads : string -> option json.
Variable api : nat -> nat -> http_outcome.
Variable cache0 : cache_t.
Variable batches : list (list string).

Lemma spawn_inv : pool_inv json_loads api cache0 batches (spawn cache0 batches).1.
Proof.
  unfold spawn. simpl. split; [by rewrite length_map|].
  intros b batch t Hb Ht. rewrite list_lookup_fmap, Hb in Ht.
  injection Ht as <-. split; [apply start_wf|apply outcome_start].
Qed.

Lemma deliver_tasks st b :
  pool_tasks (deliver json_loads api st b) =
  match pool_tasks st !! b with
  | Some (InFlight texts ck a) =>
      <[b := (resume json_loads (pool_cache st) (InFlight texts ck a)
                     (api b a)).1.2]> (pool_tasks st)
  | _ => pool_tasks st
  end.
Proof.
  unfold deliver. destruct (pool_tasks st !! b) as [[texts ck a|r]|]; try done.
  by destruct (resume json_loads (pool_cache st) (InFlight texts ck a) (api b a))
    as [[c t] ev].
Qed.

Lemma deliver_inv st b :
  pool_inv json_loads api cache0 batches (pool_tasks st) -> pool_inv json_loads api cache0 batches (pool_tasks (deliver json_loads api st b)).
Proof.
  intros [Hlen Hinv]. rewrite deliver_tasks.
  destruct (pool_tasks st !! b) as [[texts ck a|r]|] eqn:Hb; try done.
  split; [by rewrite length_insert|].
  intros b' batch t Hbatch Ht.
  destruct (decide (b = b')) as [<-|Hne].
  - rewrite list_lookup_insert_eq in Ht by (by apply lookup_lt_Some in Hb).
    injection Ht as <-.
    destruct (Hinv b batch _ Hbatch Hb) as [Hwf Hout].
    split.
    + exact (proj1 (resume_wf json_loads (pool_cache st)
                      (InFlight texts ck a) (api b a) Hwf)).
    + rewrite <- Hout. by apply outcome_resume.
  - rewrite list_lookup_insert_ne in Ht by done. by apply Hinv.
Qed.

Lemma deliver_all_inv ds : forall st,
  pool_inv json_loads api cache0 batches (pool_tasks st) ->
  pool_inv json_loads api cache0 batches (pool_tasks (fold_left (deliver json_loads api) ds st)).
Proof.
  induction ds as [|d ds IH]; intros st Hinv; [done|].
  simpl. apply IH. by apply deliver_inv.
Qed.

(** A task that is offered as many deliveries as it can still consume has
    returned at the end. *)
Lemma deliver_all_returns ds : forall st b t,
  pool_tasks st !! b = Some t -> task_wf t ->
  task_need t <= count_occ Nat.eq_dec ds b ->
  exists r,
    pool_tasks (fold_left (deliver json_loads api) ds st) !! b = Some (Done r).
Proof.
  induction ds as [|d ds IH]; intros st b t Hb Hwf Hneed.
  - destruct t as [texts ck a|r]; [|by eexists].
    unfold task_wf, task_need in *. simpl in Hneed. lia.
  - cbn [fold_left]. destruct (decide (d = b)) as [-> |Hne].
    + rewrite count_occ_cons_eq in Hneed by done.
      destruct t as [texts ck a|r].
      * destruct (resume_wf json_loads (pool_cache st) (InFlight texts ck a)
                            (api b a) Hwf) as [Hwf' Hdec].
        eapply IH; [| exact Hwf' |].
        -- rewrite deliver_tasks, Hb.
           apply list_lookup_insert_eq. by apply lookup_lt_Some in Hb.
        -- unfold task_wf, task_need in *. lia.
      * eapply (IH _ _ (Done r)); [|done|simpl; lia].
        by rewrite deliver_tasks, Hb.
    + rewrite count_occ_cons_neq in Hneed by done.
      eapply IH; [|exact Hwf|exact Hneed].
      rewrite deliver_tasks.
      destruct (pool_tasks st !! d) as [[texts ck a|r]|]; try done.
      by rewrite list_lookup_insert_ne.
Qed.

Lemma count_occ_drain_order n b :
  b < n -> max_retries <= count_occ Nat.eq_dec (drain_order n) b.
Proof.
  intros Hb. unfold drain_order, max_retries. simpl.
  rewrite !count_occ_app. simpl.
  assert (0 < count_occ Nat.eq_dec (seq 0 n) b).
  { apply count_occ_In, in_seq. lia. }
  lia.
Qed.

(** When gather returns, the task of each batch holds the list that
    [translate_batch_async] returns for that batch on its own. *)
Lemma gather_tasks sched b batch :
  batches !! b = Some batch ->
  pool_tasks (gather json_loads cache0 batches (Phase api sched)) !! b
  = Some (Done (batch_result json_loads cache0 batch (api b))).
Proof.
  intros Hb. unfold gather.
  pose proof spawn_inv as Hinv0.
  destruct (spawn cache0 batches) as [tasks tr] eqn:Hsp. simpl in *.
  set (st0 := Pool cache0 tasks tr).
  set (ds := sched ++ drain_order (length batches)).
  pose proof (deliver_all_inv ds st0 Hinv0) as [Hlen Hinv].
  destruct Hinv0 as [Hlen0 Hinv0].
  assert (Hlt : b < length tasks) by (rewrite Hlen0; by apply lookup_lt_Some in Hb).
  destruct (lookup_lt_is_Some_2 _ _ Hlt) as [t0 Ht0].
  destruct (Hinv0 b batch t0 Hb Ht0) as [Hwf0 _].
  destruct (deliver_all_returns ds st0 b t0 Ht0 Hwf0) as [r Hr].
  { subst ds. rewrite count_occ_app.
    pose proof (count_occ_drain_order (length batches) b) as Hc.
    assert (task_need t0 <= max_retries)
      by (destruct t0; unfold task_need, max_retries; lia).
    apply lookup_lt_Some in Hb. lia. }
  rewrite Hr. destruct (Hinv b batch _ Hb Hr) as [_ Hout].
  exact (f_equal Some Hout).
Qed.

Lemma gather_tasks_length sched :
  length (pool_tasks (gather json_loads cache0 batches (Phase api sched)))
  = length batches.
Proof.
  unfold gather. pose proof spawn_inv as Hinv0.
  destruct (spawn cache0 batches) as [tasks tr]. simpl in *.
  by destruct (deliver_all_inv (sched ++ drain_order (length batches))
                 (Pool cache0 tasks tr) Hinv0).
Qed.

(** The results gather hands back, by position. *)
Lemma gather_results sched :
  results_of (pool_tasks (gather json_loads cache0 batches (Phase api sched)))
  = Some (imap (fun b batch => batch_result json_loads cache0 batch (api b))
               batches).
Proof.
  unfold results_of. apply mapM_Some.
  apply Forall2_same_length_lookup_2.
  - by rewrite gather_tasks_length, length_imap.
  - intros b t r Ht Hr. apply list_lookup_imap_Some in Hr as (batch & Hb & ->).
    rewrite (gather_tasks sched b batch Hb) in Ht. by injection Ht as <-.
Qed.

End PoolFacts.

(** ** Batches *)

Lemma batch_list_pos texts p :
  batch_list texts (Zpos p) = Some (chunks (Pos.to_nat p) texts).
Proof.
  unfold batch_list, chunks, range_step. f_equal.
  rewrite <- list_fmap_compose. apply list_fmap_ext. intros _ k _. simpl.
  unfold slice. f_equal. lia.
Qed.

Lemma chunk_count_bound n len :
  0 < n -> len <= (len + n - 1) / n * n /\
           forall i, i < len -> i / n < (len + n - 1) / n.
Proof.
  intros Hn.
  pose proof (Nat.div_mod_eq (len + n - 1) n) as Hdm.
  pose proof (Nat.mod_upper_bound (len + n - 1) n) as Hm.
  split; [nia|]. intros i Hi. apply Nat.Div0.div_lt_upper_bound. nia.
Qed.

Lemma concat_chunks_take {A} n (texts : list A) k :
  concat (map (fun j => take n (drop (j * n) texts)) (seq 0 k))
  = take (k * n) texts.
Proof.
  induction k as [|k IH]; [done|].
  rewrite seq_S, map_app, concat_app, IH. simpl. rewrite app_nil_r.
  rewrite take_take_drop. f_equal. lia.
Qed.

Lemma concat_chunks n texts : 0 < n -> concat (chunks n texts) = texts.
Proof.
  intros Hn. unfold chunks. rewrite concat_chunks_take.
  apply take_ge. by apply chunk_count_bound.
Qed.

Lemma chunks_lookup n texts b :
  b < (length texts + n - 1) / n ->
  chunks n texts !! b = Some (take n (drop (b * n) texts)).
Proof.
  intros Hb. unfold chunks. rewrite list_lookup_fmap.
  by rewrite lookup_seq_lt.
Qed.

Lemma chunks_lookup_Some n texts b batch :
  chunks n texts !! b = Some batch -> batch = take n (drop (b * n) texts).
Proof.
  unfold chunks. rewrite list_lookup_fmap.
  destruct (seq 0 ((length texts + n - 1) / n) !! b) as [k|] eqn:Hk; [|done].
  apply lookup_seq in Hk as [-> _]. by intros [= <-].
Qed.

(** Reading a concatenation whose leading pieces all have length [n]. *)
Lemma concat_lookup_uniform {A} n (L : list (list A)) : forall b p l,
  (forall b' l', b' < b -> L !! b' = Some l' -> length l' = n) ->
  L !! b = Some l -> p < length l ->
  concat L !! (b * n + p) = l !! p.
Proof.
  induction L as [|l0 L IH]; intros b p l Hfull Hb Hp; [done|].
  destruct b as [|b]; simpl in *.
  - injection Hb as ->. by apply lookup_app_l.
  - pose proof (Hfull 0 l0 ltac:(lia) eq_refl) as Hl0.
    rewrite lookup_app_r by lia.
    replace (n + b * n + p - length l0) with (b * n + p) by lia.
    apply IH; [|done..]. intros b' l' Hb' Hl'.
    apply (Hfull (S b') l'); [lia|done].
Qed.

(** ** What a slot of the result holds *)

Section SlotFacts.

Variable json_loads : string -> option json.

Lemma batch_result_slots cache batch resp :
  length (batch_result json_loads cache batch resp) = length batch /\
  forall p t, batch !! p = Some t ->
    exists v, batch_result json_loads cache batch resp !! p = Some v /\
              slot_ok json_loads cache batch resp p t v.
Proof.
  unfold batch_result, slot_ok.
  destruct (translate_batch_async_cases json_loads cache batch resp)
    as [[Htt Hrun]|[(Hne & K & l & HK & Hnone & Hsome & Hrun)
                   |(Hne & Hnone & Hrun)]]; rewrite Hrun; simpl.
  - split; [apply check_cache_length|]. intros p t Hp.
    assert (Hu : uncached cache t = false).
    { apply (proj1 (all_cached_uncached cache batch) Htt).
      apply list_elem_of_lookup. eauto. }
    rewrite Hu.
    destruct (hit_slot_value cache (translations (check_cache cache batch))
                p t Hu) as (v & Hv & Hres);
      [by apply check_cache_hit_slot|by exists v].
  - pose proof (proj1 (attempt_body_Some _ _ _ _) Hsome) as [_ Hlen].
    destruct (accepted_slots cache batch l Hlen) as [Hrlen Hslots].
    split; [done|]. intros p t Hp. specialize (Hslots p t Hp).
    destruct (uncached cache t) eqn:Hu.
    + destruct Hslots as (_ & _ & v & Hv & Hres). exists v.
      split; [done|]. left. by exists K, l.
    + destruct (hit_slot_value cache _ p t Hu Hslots) as (v & Hv & Hres).
      by exists v.
  - destruct (fallback_slots cache batch) as [Hrlen Hslots].
    split; [done|]. intros p t Hp. specialize (Hslots p t Hp).
    destruct (uncached cache t) eqn:Hu.
    + exists (JStr t). split; [done|]. by right.
    + destruct (hit_slot_value cache _ p t Hu Hslots) as (v & Hv & Hres).
      by exists v.
Qed.

End SlotFacts.

(** ** translate_all_batches *)

Lemma concat_same_lengths {A B} (R : list (list A)) (C : list (list B)) :
  Forall2 (fun r c => length r = length c) R C ->
  length (concat R) = length (concat C).
Proof.
  induction 1 as [|r c R C Hrc _ IH]; [done|].
  simpl. rewrite !length_app. lia.
Qed.

Section AllBatchesFacts.

Variable json_loads : string -> option json.

Lemma translate_all_batches_output p texts cache api sched :
  exists cache' tr,
    translate_all_batches json_loads (Zpos p) texts cache (Phase api sched)
    = Some (reference_output json_loads (Pos.to_nat p) texts cache api,
            cache', tr).
Proof.
  unfold translate_all_batches. rewrite batch_list_pos. simpl.
  rewrite gather_results. simpl. by eexists _, _.
Qed.

Lemma reference_output_slots n texts cache api :
  0 < n ->
  length (reference_output json_loads n texts cache api) = length texts /\
  forall i t, texts !! i = Some t ->
    exists v,
      reference_output json_loads n texts cache api !! i = Some v /\
      slice texts (i / n * n) (i / n * n + n) !! (i mod n) = Some t /\
      slot_ok json_loads cache (slice texts (i / n * n) (i / n * n + n))
              (api (i / n)) (i mod n) t v.
Proof.
  intros Hn. unfold reference_output.
  set (R := imap (fun b batch => batch_result json_loads cache batch (api b))
                 (chunks n texts)).
  assert (HR : forall b r, R !! b = Some r ->
            exists batch, chunks n texts !! b = Some batch /\
              r = batch_result json_loads cache batch (api b) /\
              length r = length batch).
  { intros b r Hr. apply list_lookup_imap_Some in Hr as (batch & Hb & ->).
    exists batch. split; [done|]. split; [done|].
    apply batch_result_slots. }
  split.
  - transitivity (length (concat (chunks n texts)));
      [|by rewrite concat_chunks].
    apply concat_same_lengths.
    apply Forall2_same_length_lookup_2; [by subst R; rewrite length_imap|].
    intros b r batch Hr Hb. destruct (HR b r Hr) as (batch' & Hb' & _ & Hlen).
    congruence.
  - intros i t Hi.
    pose proof (lookup_lt_Some _ _ _ Hi) as Hlt.
    pose proof (Nat.div_mod_eq i n) as Hdm.
    pose proof (Nat.mod_upper_bound i n ltac:(lia)) as Hmod.
    destruct (chunk_count_bound n (length texts) Hn) as [_ Hcount].
    set (b := i / n) in *. set (q := i mod n) in *.
    assert (Hslice : slice texts (b * n) (b * n + n)
                     = take n (drop (b * n) texts)).
    { unfold slice. f_equal. lia. }
    rewrite Hslice.
    pose proof (chunks_lookup n texts b (Hcount i Hlt)) as Hb.
    set (batch := take n (drop (b * n) texts)) in *.
    assert (Hq : batch !! q = Some t).
    { subst batch. rewrite lookup_take_lt, lookup_drop by done.
      rewrite <- Hi. f_equal. lia. }
    destruct (batch_result_slots json_loads cache batch (api b))
      as [Hlen Hslots].
    destruct (Hslots q t Hq) as (v & Hv & Hok).
    exists v. split; [|done].
    replace i with (b * n + q) by lia. rewrite <- Hv.
    apply concat_lookup_uniform.
    + intros b' r' Hb' Hr'.
      destruct (HR b' r' Hr') as (batch' & Hbatch' & _ & ->).
      apply chunks_lookup_Some in Hbatch' as ->.
      rewrite length_take, length_drop. nia.
    + subst R. by rewrite list_lookup_imap, Hb.
    + rewrite Hlen. by apply lookup_lt_Some in Hq.
Qed.

End AllBatchesFacts.

(** ** translate_qa_pairs *)

Section QaPairsFacts.

Variable json_loads : string -> option json.

Lemma set_translations_Some tq ta tc idx qa q a :
  tq !! idx = Some q -> ta !! idx = Some a -> idx < length tc ->
  set_translations tq ta tc idx qa =
  Some (<["context_en" := context_en_of qa tc idx]>
          (<["answer_en" := a]> (<["question_en" := q]> qa))).
Proof.
  intros Hq Ha Hc. unfold set_translations, context_en_of. rewrite Hq, Ha. simpl.
  destruct (lookup_lt_is_Some_2 tc idx Hc) as [c Hc']. rewrite Hc'.
  by destruct (truthy (get_or_empty "context" qa)).
Qed.

(** The merge of [translate_qa_pairs]: the pair at [idx] receives the
    [idx]-th element of each translated list. *)
Lemma translate_qa_pairs_merge p qa_pairs cache ph_q ph_a ph_c
      questions answers contexts :
  mapM (text_field "question_pt") qa_pairs = Some questions ->
  mapM (text_field "answer_pt") qa_pairs = Some answers ->
  mapM context_text qa_pairs = Some contexts ->
  exists tq ta tc c1 c2 c3 tr1 tr2 tr3 out,
    translate_all_batches json_loads (Zpos p) questions cache ph_q
      = Some (tq, c1, tr1) /\
    translate_all_batches json_loads (Zpos p) answers c1 ph_a
      = Some (ta, c2, tr2) /\
    translate_all_batches json_loads (Zpos p) contexts c2 ph_c
      = Some (tc, c3, tr3) /\
    translate_qa_pairs json_loads (Zpos p) qa_pairs cache ph_q ph_a ph_c
      = Some (out, c3, tr1 ++ tr2 ++ tr3) /\
    length out = length qa_pairs /\
    forall idx qa, qa_pairs !! idx = Some qa ->
      exists q a, tq !! idx = Some q /\ ta !! idx = Some a /\
        out !! idx =
        Some (<["context_en" := context_en_of qa tc idx]>
                (<["answer_en" := a]> (<["question_en" := q]> qa))).
Proof.
  intros Hq Ha Hc. destruct ph_q as [api_q sched_q], ph_a as [api_a sched_a],
    ph_c as [api_c sched_c].
  destruct (translate_all_batches_output json_loads p questions cache
              api_q sched_q) as (c1 & tr1 & Hrq).
  destruct (translate_all_batches_output json_loads p answers c1
              api_a sched_a) as (c2 & tr2 & Hra).
  destruct (translate_all_batches_output json_loads p contexts c2
              api_c sched_c) as (c3 & tr3 & Hrc).
  set (tq := reference_output json_loads (Pos.to_nat p) questions cache api_q)
    in *.
  set (ta := reference_output json_loads (Pos.to_nat p) answers c1 api_a) in *.
  set (tc := reference_output json_loads (Pos.to_nat p) contexts c2 api_c) in *.
  assert (Hn : 0 < Pos.to_nat p) by lia.
  assert (Hlq : length tq = length qa_pairs).
  { subst tq. rewrite (proj1 (reference_output_slots _ _ _ _ _ Hn)).
    symmetry. by eapply length_mapM. }
  assert (Hla : length ta = length qa_pairs).
  { subst ta. rewrite (proj1 (reference_output_slots _ _ _ _ _ Hn)).
    symmetry. by eapply length_mapM. }
  assert (Hlc : length tc = length qa_pairs).
  { subst tc. rewrite (proj1 (reference_output_slots _ _ _ _ _ Hn)).
    symmetry. by eapply length_mapM. }
  set (merged := imap (fun idx qa =>
         <["context_en" := context_en_of qa tc idx]>
           (<["answer_en" := default JNull (ta !! idx)]>
              (<["question_en" := default JNull (tq !! idx)]> qa))) qa_pairs).
  assert (Hout : mapM (fun pr : nat * qa_t =>
                         set_translations tq ta tc pr.1 pr.2)
                      (imap pair qa_pairs) = Some merged).
  { apply mapM_Some, Forall2_same_length_lookup_2.
    - subst merged. by rewrite !length_imap.
    - intros idx [i qa] item Hi Hitem.
      apply list_lookup_imap_Some in Hi as (qa' & Hqa & [= -> ->]).
      subst merged. rewrite list_lookup_imap, Hqa in Hitem.
      injection Hitem as <-. simpl.
      pose proof (lookup_lt_Some _ _ _ Hqa) as Hlt.
      destruct (lookup_lt_is_Some_2 tq idx ltac:(lia)) as [q Hq'].
      destruct (lookup_lt_is_Some_2 ta idx ltac:(lia)) as [a Ha'].
      rewrite (set_translations_Some tq ta tc idx qa' q a) by (done || lia).
      by rewrite Hq', Ha'. }
  exists tq, ta, tc, c1, c2, c3, tr1, tr2, tr3, merged.
  split; [done|]. split; [done|]. split; [done|]. split.
  { unfold translate_qa_pairs. rewrite Hq, Ha, Hc. simpl.
    rewrite Hrq. simpl. rewrite Hra. simpl. rewrite Hrc. simpl.
    by rewrite Hout. }
  split; [by subst merged; rewrite length_imap|].
  intros idx qa Hqa. pose proof (lookup_lt_Some _ _ _ Hqa) as Hlt.
  destruct (lookup_lt_is_Some_2 tq idx ltac:(lia)) as [q Hq'].
  destruct (lookup_lt_is_Some_2 ta idx ltac:(lia)) as [a Ha'].
  exists q, a. split; [done|]. split; [done|].
  subst merged. rewrite list_lookup_imap, Hqa. simpl. by rewrite Hq', Ha'.
Qed.

End QaPairsFacts.

(** C1 -- Order preservation. With a positive batch size,
    [translate_all_batches] returns, whatever the order in which the
    responses of the concurrent batch tasks arrive, one and the same list:
    it is as long as the input, and its element [i] is the slot that the
    batch holding input [i] computed for it -- the cached translation of
    input [i], or the element answering input [i] in the first accepted
    response of that batch, or input [i] itself when the batch degraded.
    [translate_qa_pairs] then writes element [idx] of the translated
    questions and answers (and contexts) into the pair at [idx], and
    returns as many pairs as it was given. *)
Theorem order_preservation json_loads BATCH_SIZE :
  (0 < BATCH_SIZE)%Z ->
  let n := Z.to_nat BATCH_SIZE in
  (forall texts cache api sched,
     exists out cache' tr,
       translate_all_batches json_loads BATCH_SIZE texts cache
                             (Phase api sched) = Some (out, cache', tr) /\
       (forall sched', exists cache'' tr',
          translate_all_batches json_loads BATCH_SIZE texts cache
                                (Phase api sched') = Some (out, cache'', tr')) /\
       length out = length texts /\
       forall i t, texts !! i = Some t ->
         exists v, out !! i = Some v /\
           slice texts (i / n * n) (i / n * n + n) !! (i mod n) = Some t /\
           slot_ok json_loads cache (slice texts (i / n * n) (i / n * n + n))
                   (api (i / n)) (i mod n) t v) /\
  (forall qa_pairs cache ph_q ph_a ph_c questions answers contexts,
     mapM (text_field "question_pt") qa_pairs = Some questions ->
     mapM (text_field "answer_pt") qa_pairs = Some answers ->
     mapM context_text qa_pairs = Some contexts ->
     exists tq ta tc c1 c2 c3 tr1 tr2 tr3 out,
       translate_all_batches json_loads BATCH_SIZE questions cache ph_q
         = Some (tq, c1, tr1) /\
       translate_all_batches json_loads BATCH_SIZE answers c1 ph_a
         = Some (ta, c2, tr2) /\
       translate_all_batches json_loads BATCH_SIZE contexts c2 ph_c
         = Some (tc, c3, tr3) /\
       translate_qa_pairs json_loads BATCH_SIZE qa_pairs cache ph_q ph_a ph_c
         = Some (out, c3, tr1 ++ tr2 ++ tr3) /\
       length out = length qa_pairs /\
       forall idx qa, qa_pairs !! idx = Some qa ->
         exists q a, tq !! idx = Some q /\ ta !! idx = Some a /\
           out !! idx =
           Some (<["context_en" := context_en_of qa tc idx]>
                   (<["answer_en" := a]> (<["question_en" := q]> qa)))).
Proof.
  intros Hpos. destruct BATCH_SIZE as [|p|p]; [lia| |lia]. cbv zeta.
  rewrite Z2Nat.inj_pos. split.
  - intros texts cache api sched.
    destruct (translate_all_batches_output json_loads p texts cache api sched)
      as (cache' & tr & Hrun).
    destruct (reference_output_slots json_loads (Pos.to_nat p) texts cache api)
      as [Hlen Hslots]; [lia|].
    eexists _, _, _. split; [exact Hrun|]. split; [|split; [exact Hlen|]].
    + intros sched'. apply translate_all_batches_output.
    + intros i t Hi. apply Hslots, Hi.
  - intros. by apply translate_qa_pairs_merge.
Qed.

(** The concrete scenario of the specification: two texts, batch size 2,
    an empty cache and an API that answers with the two translations. *)
Example concrete_scenario :
  translate_all_batches sample_loads 2 sample_texts ∅
    (Phase (fun _ _ => body_of "PAIR") [])
  = Some ([JStr "Hi, all good?"; JStr "How much does it cost?"],
          <["Quanto custa?" := JStr "How much does it cost?"]>
            (<["Oi, tudo bem?" := JStr "Hi, all good?"]> ∅),
          [(0, EvAcquire); (0, EvEnter); (0, EvPost 0 sample_texts);
           (0, EvCacheSet "Oi, tudo bem?" (JStr "Hi, all good?"));
           (0, EvCacheSet "Quanto custa?" (JStr "How much does it cost?"));
           (0, EvExit)]).
Proof. vm_compute. reflexivity. Qed.

(** Three batches of size 2 whose responses arrive last batch first: the
    second batch fails twice and is accepted at its third attempt, the third
    batch degrades. *)
Example out_of_order_scenario :
  option_map (fun r => r.1.1)
  (translate_all_batches sample_loads 2
     ["Oi, tudo bem?"; "Quanto custa?"; "Oi"; "Sim"; "Tchau"] ∅
     (Phase (fun b attempt =>
               match b, attempt with
               | 0, _ => body_of "PAIR"
               | 1, 2 => body_of "PAIR"
               | _, _ => HttpError
               end)
            [2; 1; 2; 1; 2; 1; 0]))
  = Some [JStr "Hi, all good?"; JStr "How much does it cost?";
          JStr "Hi, all good?"; JStr "How much does it cost?";
          JStr "Tchau"].
Proof. vm_compute. reflexivity. Qed.

Lemma order_preservation_witness :
  exists out cache' tr,
    translate_all_batches sample_loads 2 sample_texts ∅
      (Phase (fun _ _ => body_of "PAIR") [0]) = Some (out, cache', tr) /\
    (forall sched', exists cache'' tr',
       translate_all_batches sample_loads 2 sample_texts ∅
         (Phase (fun _ _ => body_of "PAIR") sched') = Some (out, cache'', tr')) /\
    length out = length sample_texts /\
    forall i t, sample_texts !! i = Some t ->
      exists v, out !! i = Some v /\
        slice sample_texts (i / 2 * 2) (i / 2 * 2 + 2) !! (i mod 2) = Some t /\
        slot_ok sample_loads ∅ (slice sample_texts (i / 2 * 2) (i / 2 * 2 + 2))
                (fun _ => body_of "PAIR") (i mod 2) t v.
Proof.
  apply (proj1 (order_preservation sample_loads 2 ltac:(lia))
           sample_texts ∅ (fun _ _ => body_of "PAIR") [0]).
Defined.

(** ** A fully cached input *)

Lemma check_cache_all_hits cache texts :
  (forall t, t ∈ texts -> uncached cache t = false) ->
  check_cache cache texts = Checked (map (cached_value cache) texts) [] [].
Proof.
  intros Hall.
  pose proof (proj2 (all_cached_uncached cache texts) Hall) as Htt.
  pose proof (check_cache_indices_length 0 cache texts) as Hlen.
  pose proof (check_cache_from_translations 0 cache texts) as Htr.
  unfold check_cache in *.
  destruct (check_cache_from 0 cache texts) as [tr tt ti]. simpl in *.
  subst tt. destruct ti; [|done]. f_equal. rewrite Htr.
  apply list_fmap_ext. intros i t Ht. rewrite Hall; [done|].
  apply list_elem_of_lookup. eauto.
Qed.

Lemma concat_nils {A} (L : list (list A)) :
  (forall l, l ∈ L -> l = []) -> concat L = [].
Proof.
  induction L as [|l L IH]; intros Hall; [done|]. simpl.
  rewrite (Hall l) by left. apply IH. intros l' Hl'. apply Hall. by right.
Qed.

Section FullyCachedFacts.

Variable json_loads : string -> option json.

Lemma start_all_hits cache texts :
  (forall t, t ∈ texts -> uncached cache t = false) ->
  start cache texts = (Done (map (cached_value cache) texts), []).
Proof. intros Hall. unfold start. by rewrite check_cache_all_hits. Qed.

Lemma deliver_all_done api st b :
  (forall t, t ∈ pool_tasks st -> exists r, t = Done r) ->
  deliver json_loads api st b = st.
Proof.
  intros Hdone. unfold deliver.
  destruct (pool_tasks st !! b) as [t|] eqn:Hb; [|done].
  destruct (Hdone t) as [r ->]; [|done]. apply list_elem_of_lookup. eauto.
Qed.

Lemma gather_all_hits cache batches ph :
  (forall batch t, batch ∈ batches -> t ∈ batch -> uncached cache t = false) ->
  gather json_loads cache batches ph =
  Pool cache (map (fun batch => Done (map (cached_value cache) batch)) batches)
       [].
Proof.
  intros Hall. unfold gather, spawn.
  assert (Hstart : forall batch, batch ∈ batches ->
            start cache batch = (Done (map (cached_value cache) batch), [])).
  { intros batch Hb. apply start_all_hits. intros t Ht. by apply (Hall batch). }
  assert (Htasks : map (fun batch => (start cache batch).1) batches =
            map (fun batch => Done (map (cached_value cache) batch)) batches).
  { apply list_fmap_ext. intros i batch Hb. rewrite Hstart; [done|].
    apply list_elem_of_lookup. eauto. }
  assert (Htrace : concat (imap (fun b batch => tag b (start cache batch).2)
                                batches) = []).
  { apply concat_nils. intros l Hl.
    apply list_elem_of_lookup in Hl as [b Hb].
    apply list_lookup_imap_Some in Hb as (batch & Hbatch & ->).
    rewrite Hstart; [done|]. apply list_elem_of_lookup. eauto. }
  rewrite Htasks, Htrace.
  generalize (sched ph ++ drain_order (length batches)).
  intros ds. induction ds as [|d ds IH]; [done|]. simpl.
  rewrite deliver_all_done; [done|]. simpl. intros t Ht.
  apply list_elem_of_fmap in Ht as (batch & -> & _). by eexists.
Qed.

Lemma results_of_Done (rs : list (list json)) :
  results_of (map Done rs) = Some rs.
Proof.
  unfold results_of. apply mapM_Some.
  induction rs as [|r rs IH]; constructor; done.
Qed.

Lemma translate_all_batches_all_hits BATCH_SIZE texts cache ph :
  (forall t, t ∈ texts -> uncached cache t = false) ->
  translate_all_batches json_loads BATCH_SIZE texts cache ph =
  match batch_list texts BATCH_SIZE with
  | Some batches =>
      Some (map (cached_value cache) (concat batches), cache, [])
  | None => None
  end.
Proof.
  intros Hall. unfold translate_all_batches.
  destruct (batch_list texts BATCH_SIZE) as [batches|] eqn:Hb; [|done]. simpl.
  rewrite gather_all_hits.
  - simpl. rewrite (list_fmap_compose (map (cached_value cache)) Done).
    rewrite results_of_Done. simpl. unfold flatten.
    f_equal. f_equal. f_equal. clear.
    induction batches as [|b bs IH]; [done|]. simpl.
    rewrite map_app. by f_equal.
  - intros batch t Hbatch Ht. apply Hall.
    destruct BATCH_SIZE as [|p|p]; simpl in Hb; [done| |].
    + injection Hb as <-. apply list_elem_of_fmap in Hbatch as (i & -> & _).
      unfold slice in Ht. by apply subseteq_take, subseteq_drop in Ht.
    + injection Hb as <-. by apply elem_of_nil in Hbatch.
Qed.

End FullyCachedFacts.

(** C7 -- Cache short-circuit. When every text of a batch is a cache hit,
    [translate_batch_async] returns the cached translations and does
    nothing else: no rate-limiter token, no semaphore, no request, no
    [cache.set]; the cache is as before. So a run of [translate_all_batches]
    over a fully cached input performs no action at all, leaves the cache
    unchanged, returns the same output under every API behaviour and every
    schedule -- a re-run against the cache it left returns it again -- and
    with a positive batch size that output is the list of the cached
    translations. *)
Theorem cache_short_circuit json_loads BATCH_SIZE cache texts :
  (forall t, t ∈ texts -> exists cached, cache_hit cache t cached) ->
  (forall resp,
     translate_batch_async json_loads cache texts resp =
     (cache, Done (map (cached_value cache) texts), [])) /\
  (forall ph ph',
     translate_all_batches json_loads BATCH_SIZE texts cache ph =
     translate_all_batches json_loads BATCH_SIZE texts cache ph') /\
  (forall ph out cache' tr,
     translate_all_batches json_loads BATCH_SIZE texts cache ph
       = Some (out, cache', tr) ->
     cache' = cache /\ tr = [] /\
     forall ph', translate_all_batches json_loads BATCH_SIZE texts cache' ph'
                 = Some (out, cache', [])) /\
  ((0 < BATCH_SIZE)%Z ->
   forall ph,
     translate_all_batches json_loads BATCH_SIZE texts cache ph =
     Some (map (cached_value cache) texts, cache, [])).
Proof.
  intros Hhits.
  assert (Hall : forall t, t ∈ texts -> uncached cache t = false).
  { intros t Ht. destruct (Hhits t Ht) as [v Hv]. by eapply uncached_hit. }
  split; [|split; [|split]].
  - intros resp. rewrite translate_batch_async_all_cached.
    + by rewrite check_cache_all_hits.
    + by apply all_cached_uncached.
  - intros ph ph'. by rewrite !translate_all_batches_all_hits.
  - intros ph out cache' tr Hrun.
    rewrite translate_all_batches_all_hits in Hrun by done.
    destruct (batch_list texts BATCH_SIZE) as [batches|] eqn:Hb; [|done].
    injection Hrun as <- <- <-. split; [done|]. split; [done|].
    intros ph'. rewrite translate_all_batches_all_hits by done.
    by rewrite Hb.
  - intros Hpos ph. rewrite translate_all_batches_all_hits by done.
    destruct BATCH_SIZE as [|p|p]; [lia| |lia].
    rewrite batch_list_pos, concat_chunks; [done|lia].
Qed.

Lemma cache_short_circuit_witness :
  let cache : cache_t :=
    <["Quanto custa?" := JStr "How much does it cost?"]>
      (<["Oi, tudo bem?" := JStr "Hi, all good?"]> ∅) in
  (forall resp,
     translate_batch_async sample_loads cache sample_texts resp =
     (cache, Done (map (cached_value cache) sample_texts), [])) /\
  (forall ph ph',
     translate_all_batches sample_loads 2 sample_texts cache ph =
     translate_all_batches sample_loads 2 sample_texts cache ph') /\
  (forall ph out cache' tr,
     translate_all_batches sample_loads 2 sample_texts cache ph
       = Some (out, cache', tr) ->
     cache' = cache /\ tr = [] /\
     forall ph', translate_all_batches sample_loads 2 sample_texts cache' ph'
                 = Some (out, cache', [])) /\
  ((0 < 2)%Z ->
   forall ph,
     translate_all_batches sample_loads 2 sample_texts cache ph =
     Some (map (cached_value cache) sample_texts, cache, [])).
Proof.
  apply (cache_short_circuit sample_loads 2).
  intros t Ht. apply list_elem_of_In in Ht.
  destruct Ht as [<-|[<-|[]]]; eexists; split; reflexivity.
Defined.

(** ** The token bucket *)

Lemma refill_in_range rl now :
  (0 <= requests_per_minute rl)%Z -> tokens_in_range rl ->
  (updated_at rl <= now)%Q ->
  tokens_in_range (refill rl now).
Proof.
  intros Hrpm [Hlo Hhi] Hnow. unfold tokens_in_range, refill. simpl.
  assert (Hcap : (0 <= inject_Z (requests_per_minute rl))%Q).
  { change 0%Q with (inject_Z 0). by rewrite <- Zle_Qle. }
  assert (Hrate : (0 <= inject_Z (requests_per_minute rl) / 60)%Q).
  { apply Qle_shift_div_l; [reflexivity|]. by rewrite Qmult_0_l. }
  assert (Hel : (0 <= now - updated_at rl)%Q).
  { by apply (proj1 (Qle_minus_iff _ _)). }
  pose proof (Qmult_le_0_compat _ _ Hel Hrate) as Hadd.
  split.
  - apply Q.min_glb; [done|].
    rewrite <- (Qplus_0_r 0). by apply Qplus_le_compat.
  - apply Q.le_min_l.
Qed.

Lemma acquire_round_in_range rl now :
  (0 <= requests_per_minute rl)%Z -> tokens_in_range rl ->
  (updated_at rl <= now)%Q ->
  let rl' := (acquire_round rl now).1 in
  tokens_in_range rl' /\
  requests_per_minute rl' = requests_per_minute rl /\
  updated_at rl' = now.
Proof.
  intros Hrpm Hin Hnow. cbv zeta.
  destruct (refill_in_range rl now Hrpm Hin Hnow) as [Hlo Hhi].
  unfold acquire_round.
  destruct (Qle_bool 1 (tokens (refill rl now))) eqn:Hge.
  - apply Qle_bool_iff in Hge. simpl in *. split; [|done].
    unfold tokens_in_range. simpl. split.
    + by apply (proj1 (Qle_minus_iff _ _)).
    + eapply Qle_trans; [|exact Hhi].
      rewrite <- (Qplus_0_r (Qmin _ _)) at 2.
      apply Qplus_le_compat; [apply Qle_refl|done].
  - by destruct (requests_per_minute (refill rl now) =? 0)%Z.
Qed.

Lemma acquire_in_range clock : forall rl,
  (0 <= requests_per_minute rl)%Z -> tokens_in_range rl ->
  monotonic_from (updated_at rl) clock ->
  let r := acquire rl clock in
  tokens_in_range r.1.1 /\
  requests_per_minute r.1.1 = requests_per_minute rl /\
  monotonic_from (updated_at r.1.1) r.1.2.
Proof.
  induction clock as [|now rest IH]; intros rl Hrpm Hin Hmono; [done|].
  destruct Hmono as [Hnow Hrest]. cbn [acquire].
  destruct (acquire_round_in_range rl now Hrpm Hin Hnow) as (Hin' & Hrpm' & Hup).
  destruct (acquire_round rl now) as [rl' [| w |]]; simpl in *.
  - by rewrite Hup.
  - destruct (IH rl') as (H1 & H2 & H3); [lia|done|by rewrite Hup|].
    split; [done|]. split; [congruence|done].
  - by rewrite Hup.
Qed.

Lemma acquire_many_in_range n : forall rl clock,
  (0 <= requests_per_minute rl)%Z -> tokens_in_range rl ->
  monotonic_from (updated_at rl) clock ->
  tokens_in_range (acquire_many n rl clock).1.
Proof.
  induction n as [|n IH]; intros rl clock Hrpm Hin Hmono; [done|].
  cbn [acquire_many].
  destruct (acquire_in_range clock rl Hrpm Hin Hmono) as (H1 & H2 & H3).
  destruct (acquire rl clock) as [[rl' rest] res]. simpl in *.
  apply IH; [lia|done..].
Qed.

(** C8 -- Rate limiter token invariant. For a non-negative rate and a clock
    that never goes backwards, [0 <= tokens <= capacity] holds when the
    limiter is built and after any number of [acquire()] calls, hence
    before and after each of them. Within a call the refill never leaves
    more than the capacity, and a token is taken only when at least one is
    there, which leaves the count non-negative. *)
Theorem rate_limiter_token_invariant rpm t0 clock n :
  (0 <= rpm)%Z -> monotonic_from t0 clock ->
  tokens_in_range (RateLimiter_init rpm t0) /\
  tokens_in_range (acquire_many n (RateLimiter_init rpm t0) clock).1 /\
  forall rl now,
    (0 <= requests_per_minute rl)%Z -> tokens_in_range rl ->
    (updated_at rl <= now)%Q ->
    (tokens (refill rl now) <= inject_Z (requests_per_minute rl))%Q /\
    tokens_in_range (acquire_round rl now).1 /\
    ((acquire_round rl now).2 = Granted ->
     (1 <= tokens (refill rl now))%Q /\
     tokens (acquire_round rl now).1 = (tokens (refill rl now) - 1)%Q) /\
    ((acquire_round rl now).2 <> Granted ->
     tokens (acquire_round rl now).1 = tokens (refill rl now)).
Proof.
  intros Hrpm Hmono.
  assert (Hinit : tokens_in_range (RateLimiter_init rpm t0)).
  { unfold tokens_in_range. simpl. split; [|apply Qle_refl].
    change 0%Q with (inject_Z 0). by rewrite <- Zle_Qle. }
  split; [done|]. split; [by apply acquire_many_in_range|].
  intros rl now Hrl Hin Hnow.
  split; [apply (refill_in_range rl now Hrl Hin Hnow)|].
  split; [apply (acquire_round_in_range rl now Hrl Hin Hnow)|].
  unfold acquire_round.
  destruct (Qle_bool 1 (tokens (refill rl now))) eqn:Hge; simpl.
  - split; [|done]. intros _. split; [by apply Qle_bool_iff|done].
  - split; [by destruct (requests_per_minute rl =? 0)%Z|].
    by destruct (requests_per_minute rl =? 0)%Z.
Qed.

(** Two tokens a minute: two calls are served at once, the third waits
    for the refill. *)
Example acquire_three_times :
  let r := acquire_many 3 (RateLimiter_init 2 0) [0; 0; 0; 30]%Q in
  Qeq (tokens r.1) 0 /\ r.2 = [].
Proof. vm_compute. split; reflexivity. Qed.

Lemma rate_limiter_token_invariant_witness :
  tokens_in_range (RateLimiter_init 2 0) /\
  tokens_in_range
    (acquire_many 3 (RateLimiter_init 2 0) [0; 0; 0; 30]%Q).1 /\
  forall rl now,
    (0 <= requests_per_minute rl)%Z -> tokens_in_range rl ->
    (updated_at rl <= now)%Q ->
    (tokens (refill rl now) <= inject_Z (requests_per_minute rl))%Q /\
    tokens_in_range (acquire_round rl now).1 /\
    ((acquire_round rl now).2 = Granted ->
     (1 <= tokens (refill rl now))%Q /\
     tokens (acquire_round rl now).1 = (tokens (refill rl now) - 1)%Q) /\
    ((acquire_round rl now).2 <> Granted ->
     tokens (acquire_round rl now).1 = tokens (refill rl now)).
Proof.
  apply (rate_limiter_token_invariant 2 0 [0; 0; 0; 30]%Q 3).
  - lia.
  - simpl. unfold Qle. simpl. lia.
Defined.

(** ** Resume analysis *)

Lemma py_eq_text (a x : json) :
  a = JNull \/ (exists s, a = JStr s) -> (py_eq a x = true <-> a = x).
Proof.
  intros [Ha|[s Ha]]; subst a.
  - destruct x; simpl; split; try done.
  - destruct x as [| | | |s'| |]; simpl; split; try done.
    + intros Heq. apply String.eqb_eq in Heq. by subst.
    + intros [= ->]. apply String.eqb_refl.
Qed.

Lemma text_or_missing_shape qa key :
  text_or_missing qa key ->
  (get_or_empty key qa = JNull /\ field_text qa key = EmptyString) \/
  get_or_empty key qa = JStr (field_text qa key).
Proof.
  unfold text_or_missing, get_or_empty, field_text.
  destruct (qa !! key) as [[| | | |s| |]|]; simpl; try done; auto.
Qed.

Lemma truthy_text (a : json) (s : string) :
  (a = JNull /\ s = EmptyString) \/ a = JStr s ->
  (truthy a = false <-> s = EmptyString).
Proof.
  intros [[-> ->]| ->]; [done|]. simpl. by destruct s.
Qed.

(** C5 -- Resume classification. For a QA pair whose target fields are
    absent, null or text, [needs_translation] returns, and it returns true
    exactly when a target field is missing or empty, or a target field
    equals its source field, or a target field is shorter than 3
    characters; otherwise it returns false. *)
Theorem needs_translation_classification qa :
  text_or_missing qa "question_en" ->
  text_or_missing qa "answer_en" ->
  exists flag, needs_translation qa = Some flag /\
               (flag = true <-> resume_criteria qa).
Proof.
  intros Hq Ha. unfold needs_translation, resume_criteria.
  apply text_or_missing_shape in Hq, Ha.
  set (q_en := get_or_empty "question_en" qa) in *.
  set (a_en := get_or_empty "answer_en" qa) in *.
  set (q_pt := get_or_empty "question_pt" qa).
  set (a_pt := get_or_empty "answer_pt" qa).
  set (sq := field_text qa "question_en") in *.
  set (sa := field_text qa "answer_en") in *.
  pose proof (truthy_text q_en sq Hq) as Htq.
  pose proof (truthy_text a_en sa Ha) as Hta.
  assert (Heq_q : py_eq q_en q_pt = true <-> q_en = q_pt).
  { apply py_eq_text. destruct Hq as [[-> _]| ->]; eauto. }
  assert (Heq_a : py_eq a_en a_pt = true <-> a_en = a_pt).
  { apply py_eq_text. destruct Ha as [[-> _]| ->]; eauto. }
  destruct (truthy q_en) eqn:Etq; simpl.
  2:{ exists true. split; [done|]. split; [|done]. intros _. left. left.
      by apply Htq. }
  destruct (truthy a_en) eqn:Eta; simpl.
  2:{ exists true. split; [done|]. split; [|done]. intros _. left. right.
      by apply Hta. }
  assert (Hsq : q_en = JStr sq).
  { destruct Hq as [[Hn _]|?]; [by rewrite Hn in Etq|done]. }
  assert (Hsa : a_en = JStr sa).
  { destruct Ha as [[Hn _]|?]; [by rewrite Hn in Eta|done]. }
  assert (Hneq_q : sq <> EmptyString) by (intros H; by apply Htq in H).
  assert (Hneq_a : sa <> EmptyString) by (intros H; by apply Hta in H).
  destruct (py_eq q_en q_pt) eqn:Eq; simpl.
  { exists true. split; [done|]. split; [|done]. intros _. right. left. left.
    by apply Heq_q. }
  destruct (py_eq a_en a_pt) eqn:Ea; simpl.
  { exists true. split; [done|]. split; [|done]. intros _. right. left. right.
    by apply Heq_a. }
  assert (Hne_q : q_en <> q_pt) by (intros H; by apply Heq_q in H).
  assert (Hne_a : a_en <> a_pt) by (intros H; by apply Heq_a in H).
  rewrite Hsq, Hsa. simpl.
  destruct (Nat.ltb_spec (String.length sq) 3) as [Hlq|Hlq].
  { exists true. split; [done|]. split; [|done]. intros _. right. right. by left. }
  destruct (Nat.ltb_spec (String.length sa) 3) as [Hla|Hla].
  { exists true. split; [done|]. split; [|done]. intros _. right. right.
    by right. }
  exists false. split; [done|]. split; [done|].
  intros [[?|?]|[[?|?]|[?|?]]]; first [contradiction|lia|congruence].
Qed.

Example needs_translation_done :
  needs_translation
    (sample_pair "Oi, tudo bem?" "Hi, all good?" "Tudo" "All good")
  = Some false.
Proof. reflexivity. Qed.

Example needs_translation_fallback :
  needs_translation (sample_pair "Oi, tudo bem?" "Oi, tudo bem?" "Tudo" "All")
  = Some true.
Proof. reflexivity. Qed.

Example needs_translation_short :
  needs_translation (sample_pair "Oi, tudo bem?" "Hi" "Tudo" "All good")
  = Some true.
Proof. reflexivity. Qed.

Example needs_translation_missing :
  needs_translation (<["question_pt" := JStr "Oi"]> ∅) = Some true.
Proof. reflexivity. Qed.

(** A number in a target field has no length: [len] raises TypeError. *)
Example needs_translation_type_error :
  needs_translation
    (<["question_en" := JInt 12345]> (sample_pair "Oi" "x" "Tudo" "All good"))
  = None.
Proof. reflexivity. Qed.

Lemma needs_translation_classification_witness :
  exists flag,
    needs_translation
      (sample_pair "Oi, tudo bem?" "Hi" "Tudo" "All good") = Some flag /\
    (flag = true <->
     resume_criteria (sample_pair "Oi, tudo bem?" "Hi" "Tudo" "All good")).
Proof.
  apply (needs_translation_classification
           (sample_pair "Oi, tudo bem?" "Hi" "Tudo" "All good")).
  - exact I.
  - exact I.
Defined.

(** C5, counterexample -- The classification does not hold for every QA
    item. On a pair whose [question_en] is the number 12345 (truthy, and
    different from [question_pt]) [needs_translation] returns neither true
    nor false: [len(q_en)] raises TypeError. *)
Lemma needs_translation_classification_counterexample :
  needs_translation numeric_pair = None /\
  ~ (exists flag, needs_translation numeric_pair = Some flag /\
                  (flag = true <-> resume_criteria numeric_pair)).
Proof.
  assert (Hraise : needs_translation numeric_pair = None) by reflexivity.
  split; [exact Hraise|]. intros (flag & Hflag & _).
  rewrite Hraise in Hflag. discriminate Hflag.
Qed.

(** Such a pair is what the main script writes when the remote model
    answers a one-text request with [[12345]]: the response is a list of the
    right length, its element is stored unchecked, and the resume analysis
    of the output raises. *)
Example numeric_translation_reaches_resume :
  exists out cache' tr qa',
    translate_qa_pairs numeric_loads 2 [sample_pair "Oi" "" "Sim" ""] ∅
      (Phase (fun _ _ => body_of "[12345]") [0])
      (Phase (fun _ _ => body_of "[12345]") [0])
      (Phase (fun _ _ => body_of "[12345]") [0])
      = Some (out, cache', tr) /\
    out !! 0 = Some qa' /\
    qa' !! "question_en" = Some (JInt 12345) /\
    needs_translation qa' = None.
Proof.
  destruct (translate_qa_pairs numeric_loads 2 [sample_pair "Oi" "" "Sim" ""] ∅
              (Phase (fun _ _ => body_of "[12345]") [0])
              (Phase (fun _ _ => body_of "[12345]") [0])
              (Phase (fun _ _ => body_of "[12345]") [0]))
    as [[[out cache'] tr]|] eqn:Hrun; [|by vm_compute in Hrun].
  vm_compute in Hrun. injection Hrun as <- <- <-.
  eexists _, _, _, _. split; [reflexivity|]. split; [reflexivity|].
  split; reflexivity.
Qed.

(** ** The requests a gather posts *)

Lemma elem_of_concat {A} (x : A) (ls : list (list A)) :
  x ∈ concat ls <-> exists l, x ∈ l /\ l ∈ ls.
Proof.
  rewrite list_elem_of_In, in_concat. split.
  - intros (l & Hl & Hx). exists l. by rewrite !list_elem_of_In.
  - intros (l & Hx & Hl). exists l. by rewrite <- !list_elem_of_In.
Qed.

Section GatherPosts.

Variable json_loads : string -> option json.
Variable api : nat -> nat -> http_outcome.
Variable cache0 : cache_t.
Variable batches : list (list string).

Lemma elem_of_tag b b' e ev : (b', e) ∈ tag b ev <-> b' = b /\ e ∈ ev.
Proof.
  unfold tag. rewrite list_elem_of_fmap. split.
  - intros (e' & [= -> ->] & He). done.
  - intros [-> He]. by exists e.
Qed.

Lemma spawn_posts :
  tasks_checked cache0 batches (spawn cache0 batches).1 /\ posts_ok cache0 batches (spawn cache0 batches).2.
Proof.
  unfold spawn. simpl. split.
  - intros b texts ck a Hb. rewrite list_lookup_fmap in Hb.
    destruct (batches !! b) as [batch|] eqn:Hbatch; [|done].
    exists batch. split; [done|]. simpl in Hb. unfold start in Hb.
    destruct (texts_to_translate (check_cache cache0 batch)); simpl in Hb;
      [done|]. by injection Hb as _ <- _.
  - intros b a request Hin. apply elem_of_concat in Hin as (l & Hin & Hl).
    apply list_elem_of_lookup in Hl as [b' Hl].
    apply list_lookup_imap_Some in Hl as (batch & Hbatch & ->).
    apply elem_of_tag in Hin as [-> Hin]. exists batch. split; [done|].
    unfold start in Hin.
    destruct (texts_to_translate (check_cache cache0 batch)) eqn:Htt;
      simpl in Hin; [by apply elem_of_nil in Hin|].
    rewrite !elem_of_cons in Hin.
    destruct Hin as [?|[?|[[= _ <-]|Hin]]]; try done.
    by apply elem_of_nil in Hin.
Qed.

Lemma resume_posts cache texts ck a o a' request :
  EvPost a' request ∈ (resume json_loads cache (InFlight texts ck a) o).2 ->
  request = texts_to_translate ck.
Proof.
  destruct (attempt_body json_loads ck o) as [l|] eqn:Hl.
  - rewrite (resume_accept _ _ _ _ _ _ _ Hl). simpl.
    rewrite elem_of_app. intros [Hin|Hin].
    + unfold store_events in Hin. apply list_elem_of_fmap in Hin as (? & ? & _).
      done.
    + apply list_elem_of_singleton in Hin. done.
  - destruct (Nat.lt_ge_cases a (max_retries - 1));
      [rewrite resume_retry by done|rewrite resume_fallback by done]; simpl.
    + rewrite !elem_of_cons. intros [?|[[= _ <-]|Hin]]; try done.
      by apply elem_of_nil in Hin.
    + intros Hin. apply list_elem_of_singleton in Hin. done.
Qed.

Lemma resume_checked cache texts ck a o texts' ck' a' :
  (resume json_loads cache (InFlight texts ck a) o).1.2
    = InFlight texts' ck' a' -> ck' = ck.
Proof.
  destruct (attempt_body json_loads ck o) as [l|] eqn:Hl.
  - by rewrite (resume_accept _ _ _ _ _ _ _ Hl).
  - destruct (Nat.lt_ge_cases a (max_retries - 1));
      [rewrite resume_retry by done|rewrite resume_fallback by done]; simpl.
    + by intros [= _ <- _].
    + done.
Qed.

Lemma deliver_posts st b :
  tasks_checked cache0 batches (pool_tasks st) -> posts_ok cache0 batches (pool_trace st) ->
  tasks_checked cache0 batches (pool_tasks (deliver json_loads api st b)) /\
  posts_ok cache0 batches (pool_trace (deliver json_loads api st b)).
Proof.
  intros Htasks Hposts. unfold deliver.
  destruct (pool_tasks st !! b) as [[texts ck a|r]|] eqn:Hb; try done.
  destruct (Htasks b texts ck a Hb) as (batch & Hbatch & Hck).
  pose proof (resume_posts (pool_cache st) texts ck a (api b a)) as Hrp.
  pose proof (resume_checked (pool_cache st) texts ck a (api b a)) as Hrc.
  destruct (resume json_loads (pool_cache st) (InFlight texts ck a) (api b a))
    as [[c t] ev]. simpl in *. split.
  - intros b' texts' ck' a' Hb'.
    destruct (decide (b = b')) as [<-|Hne].
    + rewrite list_lookup_insert_eq in Hb' by (by apply lookup_lt_Some in Hb).
      injection Hb' as ->. exists batch. split; [done|].
      by rewrite (Hrc _ _ _ eq_refl).
    + rewrite list_lookup_insert_ne in Hb' by done. by eapply Htasks.
  - intros b' a' request Hin. apply elem_of_app in Hin as [Hin|Hin].
    + by eapply Hposts.
    + apply elem_of_tag in Hin as [-> Hin]. exists batch. split; [done|].
      by rewrite (Hrp _ _ Hin), Hck.
Qed.

Lemma gather_posts sched : posts_ok cache0 batches (pool_trace
  (gather json_loads cache0 batches (Phase api sched))).
Proof.
  unfold gather. destruct spawn_posts as [Ht Hp].
  destruct (spawn cache0 batches) as [tasks tr]. simpl in *.
  generalize (sched ++ drain_order (length batches)).
  intros ds.
  assert (Hinv : tasks_checked cache0 batches (pool_tasks (Pool cache0 tasks tr)) /\
                 posts_ok cache0 batches (pool_trace (Pool cache0 tasks tr))) by done.
  revert Hinv. generalize (Pool cache0 tasks tr).
  induction ds as [|d ds IH]; intros st [H1 H2]; [done|].
  simpl. apply IH. by apply deliver_posts.
Qed.

End GatherPosts.

Lemma batch_list_subseteq texts BATCH_SIZE batches batch t :
  batch_list texts BATCH_SIZE = Some batches ->
  batch ∈ batches -> t ∈ batch -> t ∈ texts.
Proof.
  intros Hb Hbatch Ht. destruct BATCH_SIZE as [|p|p]; simpl in Hb; [done| |].
  - injection Hb as <-. apply list_elem_of_fmap in Hbatch as (i & -> & _).
    unfold slice in Ht. by apply subseteq_take, subseteq_drop in Ht.
  - injection Hb as <-. by apply elem_of_nil in Hbatch.
Qed.

Lemma texts_to_translate_subseteq cache batch t :
  t ∈ texts_to_translate (check_cache cache batch) -> t ∈ batch.
Proof.
  unfold check_cache. rewrite check_cache_from_texts.
  intros Ht. apply list_elem_of_In, filter_In in Ht as [Ht _].
  by apply list_elem_of_In.
Qed.

(** ** translate_missing_only *)

Lemma only_targets_differ_refl qa : only_targets_differ qa qa.
Proof. by intros k _ _ _. Qed.

Lemma only_targets_differ_trans qa1 qa2 qa3 :
  only_targets_differ qa1 qa2 -> only_targets_differ qa2 qa3 ->
  only_targets_differ qa1 qa3.
Proof. intros H12 H23 k H1 H2 H3. by rewrite H23, H12. Qed.

Lemma only_targets_differ_set (qa : qa_t) q a c :
  only_targets_differ qa
    (<["context_en" := c]> (<["answer_en" := a]> (<["question_en" := q]> qa))).
Proof. intros k H1 H2 H3. by rewrite !lookup_insert_ne. Qed.

Lemma flagged_from_spec qa_pairs : forall idx fl,
  flagged_from idx qa_pairs = Some fl ->
  (forall i qa, (i, qa) ∈ fl ->
     idx <= i /\ qa_pairs !! (i - idx) = Some qa /\
     needs_translation qa = Some true) /\
  (forall p qa, qa_pairs !! p = Some qa ->
     needs_translation qa = Some false -> idx + p ∉ fl.*1).
Proof.
  induction qa_pairs as [|qa0 rest IH]; intros idx fl Hfl.
  - injection Hfl as <-. split; [|done]. intros i qa Hin.
    by apply elem_of_nil in Hin.
  - simpl in Hfl.
    destruct (needs_translation qa0) as [flag|] eqn:Hflag; [|done].
    destruct (flagged_from (S idx) rest) as [more|] eqn:Hmore; [|done].
    simpl in Hfl. injection Hfl as <-.
    destruct (IH (S idx) more Hmore) as [Hin Hout].
    assert (Hin' : forall i qa, (i, qa) ∈ more ->
              idx <= i /\ (qa0 :: rest) !! (i - idx) = Some qa /\
              needs_translation qa = Some true).
    { intros i qa Hi. destruct (Hin i qa Hi) as (Hle & Hl & Hn).
      split; [lia|]. split; [|done].
      by replace (i - idx) with (S (i - S idx)) by lia. }
    assert (Hout' : forall p qa, rest !! p = Some qa ->
              needs_translation qa = Some false -> idx + S p ∉ more.*1).
    { intros p qa Hp Hn. replace (idx + S p) with (S idx + p) by lia.
      by eapply Hout. }
    assert (Hidx : idx ∉ more.*1).
    { intros Hi. apply list_elem_of_fmap in Hi as ([i qa] & -> & Hi).
      apply Hin in Hi. simpl in Hi. lia. }
    split.
    + intros i qa Hi. destruct flag; [|by apply Hin'].
      apply elem_of_cons in Hi as [[= -> ->]|Hi]; [|by apply Hin'].
      by rewrite Nat.sub_diag.
    + intros p qa Hp Hn. destruct p as [|p]; simpl in Hp.
      * injection Hp as ->. rewrite Hn in Hflag. injection Hflag as <-.
        by rewrite Nat.add_0_r.
      * destruct flag; [|by eapply Hout'].
        simpl. apply not_elem_of_cons. split; [lia|by eapply Hout'].
Qed.

Section WriteBack.

Variables tq ta tc : list json.

Lemma write_back_Some cur i idx cur' :
  write_back tq ta tc (Some cur) (i, idx) = Some cur' ->
  exists qa q a c, cur !! idx = Some qa /\
    cur' = <[idx := <["context_en" := c]>
                      (<["answer_en" := a]> (<["question_en" := q]> qa))]> cur.
Proof.
  unfold write_back. simpl.
  destruct (cur !! idx) as [qa|]; [|done]. simpl.
  destruct (tq !! i) as [q|]; [|done]. simpl.
  destruct (ta !! i) as [a|]; [|done]. simpl.
  destruct (if truthy (default JNull (qa !! "context")) then tc !! i
            else Some (JStr EmptyString)) as [c|]; [|done]. simpl.
  intros [= <-]. by exists qa, q, a, c.
Qed.

Lemma write_back_None ps :
  fold_left (write_back tq ta tc) ps None = None.
Proof. induction ps as [|[i idx] ps IH]; [done|]. simpl. apply IH. Qed.

Lemma write_back_fold ps : forall cur out,
  fold_left (write_back tq ta tc) ps (Some cur) = Some out ->
  length out = length cur /\
  (forall idx, idx ∉ ps.*2 -> out !! idx = cur !! idx) /\
  (forall idx qa, cur !! idx = Some qa ->
     exists qa', out !! idx = Some qa' /\ only_targets_differ qa qa').
Proof.
  induction ps as [|[i idx] ps IH]; intros cur out Hfold.
  - injection Hfold as <-. split; [done|]. split; [done|].
    intros idx qa Hqa. exists qa. split; [done|apply only_targets_differ_refl].
  - cbn [fold_left] in Hfold.
    destruct (write_back tq ta tc (Some cur) (i, idx)) as [cur'|] eqn:Hstep;
      [|by rewrite write_back_None in Hfold].
    apply write_back_Some in Hstep as (qa0 & q & a & c & Hqa0 & ->).
    destruct (IH _ _ Hfold) as (Hlen & Hother & Hsame).
    split; [by rewrite Hlen, length_insert|]. split.
    + intros j Hj. simpl in Hj. apply not_elem_of_cons in Hj as [Hne Hj].
      rewrite (Hother j Hj). by apply list_lookup_insert_ne.
    + intros j qa Hqa. destruct (decide (idx = j)) as [<-|Hne].
      * assert (qa = qa0) as -> by congruence.
        destruct (Hsame idx _ (list_lookup_insert_eq cur idx _
                    (lookup_lt_Some _ _ _ Hqa0))) as (qa' & Hqa' & Hdiff).
        exists qa'. split; [done|].
        eapply only_targets_differ_trans; [|exact Hdiff].
        apply only_targets_differ_set.
      * apply (Hsame j qa). by rewrite list_lookup_insert_ne.
Qed.

End WriteBack.

Lemma imap_pair_snd {A} (l : list A) : (imap pair l).*2 = l.
Proof.
  apply list_eq. intros i. rewrite list_lookup_fmap, list_lookup_imap.
  by destruct (l !! i).
Qed.

Lemma mapM_elem_of {A B} (f : A -> option B) (l : list A) (k : list B) y :
  mapM f l = Some k -> y ∈ k -> exists x, x ∈ l /\ f x = Some y.
Proof.
  intros Hm Hy. apply mapM_Some in Hm.
  apply list_elem_of_lookup in Hy as [i Hi].
  destruct (Forall2_lookup_r _ _ _ _ _ Hm Hi) as (x & Hx & Hfx).
  exists x. split; [|done]. apply list_elem_of_lookup. eauto.
Qed.

Section ResumeFrame.

Variable json_loads : string -> option json.
Variable BATCH_SIZE : Z.

(** The texts one gather of the resumed run posts all come from the list
    it was given. *)
Lemma gather_posts_from texts cache batches ph b a request t :
  batch_list texts BATCH_SIZE = Some batches ->
  (b, EvPost a request) ∈ pool_trace (gather json_loads cache batches ph) ->
  t ∈ request -> t ∈ texts.
Proof.
  intros Hb Hin Ht. destruct ph as [api sched].
  destruct (gather_posts json_loads api cache batches sched b a request Hin)
    as (batch & Hbatch & ->).
  apply texts_to_translate_subseteq in Ht.
  eapply batch_list_subseteq; [exact Hb| |exact Ht].
  apply list_elem_of_lookup. eauto.
Qed.

(** C6 -- Resume frame property. Whenever [translate_missing_only] returns,
    it returns as many pairs as it was given; every pair that
    [needs_translation] does not flag is returned exactly as it was; a
    flagged pair can differ from its input only in the target fields
    [question_en], [answer_en] and [context_en]; and every text of every
    request the run posts is the source question, the source answer or the
    context text of a flagged pair. *)
Theorem resume_frame qa_pairs cache ph_q ph_a ph_c out cache' tr :
  translate_missing_only json_loads BATCH_SIZE qa_pairs cache ph_q ph_a ph_c
    = Some (out, cache', tr) ->
  length out = length qa_pairs /\
  (forall idx qa, qa_pairs !! idx = Some qa ->
     needs_translation qa = Some false -> out !! idx = Some qa) /\
  (forall idx qa, qa_pairs !! idx = Some qa ->
     exists qa', out !! idx = Some qa' /\ only_targets_differ qa qa') /\
  (forall b a request t, (b, EvPost a request) ∈ tr -> t ∈ request ->
     exists idx qa, qa_pairs !! idx = Some qa /\
       needs_translation qa = Some true /\
       (text_field "question_pt" qa = Some t \/
        text_field "answer_pt" qa = Some t \/
        context_text qa = Some t)).
Proof.
  unfold translate_missing_only. intros Hrun.
  destruct (flagged_from 0 qa_pairs) as [flagged|] eqn:Hfl; [|done].
  simpl in Hrun. destruct (flagged_from_spec qa_pairs 0 flagged Hfl)
    as [Hin Hout].
  destruct flagged as [|f0 fl].
  { injection Hrun as <- <- <-. split; [done|]. split; [done|]. split.
    - intros idx qa Hqa. exists qa. split; [done|].
      apply only_targets_differ_refl.
    - intros b a request t Hpost. by apply elem_of_nil in Hpost. }
  remember (f0 :: fl) as flagged eqn:Hflagged. clear Hflagged.
  destruct (mapM (text_field "question_pt") flagged.*2) as [questions|] eqn:Hq;
    [|done]. simpl in Hrun.
  destruct (mapM (text_field "answer_pt") flagged.*2) as [answers|] eqn:Ha;
    [|done]. simpl in Hrun.
  destruct (mapM context_text flagged.*2) as [contexts|] eqn:Hc;
    [|done]. simpl in Hrun.
  destruct (batch_list questions BATCH_SIZE) as [q_batches|] eqn:Hqb;
    [|done]. simpl in Hrun.
  destruct (batch_list answers BATCH_SIZE) as [a_batches|] eqn:Hab;
    [|done]. simpl in Hrun.
  destruct (batch_list contexts BATCH_SIZE) as [c_batches|] eqn:Hcb;
    [|done]. simpl in Hrun.
  set (st_q := gather json_loads cache q_batches ph_q) in *.
  destruct (results_of (pool_tasks st_q)) as [rq|]; [|done]. simpl in Hrun.
  set (st_a := gather json_loads (pool_cache st_q) a_batches ph_a) in *.
  destruct (results_of (pool_tasks st_a)) as [ra|]; [|done]. simpl in Hrun.
  set (st_c := gather json_loads (pool_cache st_a) c_batches ph_c) in *.
  destruct (results_of (pool_tasks st_c)) as [rc|]; [|done]. simpl in Hrun.
  destruct (fold_left (write_back (flatten rq) (flatten ra) (flatten rc))
                      (imap pair flagged.*1) (Some qa_pairs))
    as [updated|] eqn:Hfold; [|done].
  simpl in Hrun. injection Hrun as <- <- <-.
  destruct (write_back_fold _ _ _ _ _ _ Hfold) as (Hlen & Hother & Hsame).
  rewrite imap_pair_snd in Hother.
  split; [done|]. split; [|split].
  - intros idx qa Hqa Hn. rewrite Hother; [done|].
    by apply (Hout idx qa Hqa Hn).
  - done.
  - assert (Hsrc : forall (field : qa_t -> option string) texts t,
              mapM field flagged.*2 = Some texts -> t ∈ texts ->
              exists idx qa, qa_pairs !! idx = Some qa /\
                needs_translation qa = Some true /\ field qa = Some t).
    { intros field texts t Hm Ht.
      destruct (mapM_elem_of _ _ _ _ Hm Ht) as (qa & Hqa & Hf).
      apply list_elem_of_fmap in Hqa as ([idx qa'] & -> & Hqa).
      destruct (Hin idx qa' Hqa) as (_ & Hl & Hn).
      rewrite Nat.sub_0_r in Hl. by exists idx, qa'. }
    intros b a request t Hpost Ht.
    rewrite !elem_of_app in Hpost. destruct Hpost as [Hp|[Hp|Hp]].
    + pose proof (gather_posts_from _ _ _ _ _ _ _ _ Hqb Hp Ht) as Htin.
      destruct (Hsrc _ _ _ Hq Htin) as (idx & qa & ? & ? & ?).
      exists idx, qa. auto.
    + pose proof (gather_posts_from _ _ _ _ _ _ _ _ Hab Hp Ht) as Htin.
      destruct (Hsrc _ _ _ Ha Htin) as (idx & qa & ? & ? & ?).
      exists idx, qa. auto.
    + pose proof (gather_posts_from _ _ _ _ _ _ _ _ Hcb Hp Ht) as Htin.
      destruct (Hsrc _ _ _ Hc Htin) as (idx & qa & ? & ? & ?).
      exists idx, qa. auto.
Qed.

End ResumeFrame.

Example resumed_run_output :
  option_map (fun r => r.1.1)
    (translate_missing_only sample_loads 2 sample_prior ∅
       sample_phase sample_phase sample_phase)
  = Some [sample_pair "Oi, tudo bem?" "Hi, all good?" "Tudo" "All good";
          <["context_en" := JStr EmptyString]>
            (<["answer_en" := JStr "Hi"]>
               (<["question_en" := JStr "Hi"]>
                  (sample_pair "Oi" "Oi" "Sim" "Yes")));
          sample_pair "Quanto custa?" "How much does it cost?" "Dez" "Ten"].
Proof. vm_compute. reflexivity. Qed.

Lemma resume_frame_witness :
  exists out cache' tr,
    translate_missing_only sample_loads 2 sample_prior ∅
      sample_phase sample_phase sample_phase = Some (out, cache', tr) /\
    length out = length sample_prior /\
    (forall idx qa, sample_prior !! idx = Some qa ->
       needs_translation qa = Some false -> out !! idx = Some qa) /\
    (forall idx qa, sample_prior !! idx = Some qa ->
       exists qa', out !! idx = Some qa' /\ only_targets_differ qa qa') /\
    (forall b a request t, (b, EvPost a request) ∈ tr -> t ∈ request ->
       exists idx qa, sample_prior !! idx = Some qa /\
         needs_translation qa = Some true /\
         (text_field "question_pt" qa = Some t \/
          text_field "answer_pt" qa = Some t \/
          context_text qa = Some t)).
Proof.
  destruct (translate_missing_only sample_loads 2 sample_prior ∅
              sample_phase sample_phase sample_phase)
    as [[[out cache'] tr]|] eqn:Hrun; [|by vm_compute in Hrun].
  exists out, cache', tr. split; [reflexivity|].
  exact (resume_frame sample_loads 2 sample_prior ∅
           sample_phase sample_phase sample_phase out cache' tr Hrun).
Defined.

(** ** The run of translate_missing_only completes *)

Section ResumeReturns.

Variable json_loads : string -> option json.

Lemma write_back_fold_Some tq ta tc ps : forall cur,
  (forall i idx, (i, idx) ∈ ps ->
     idx < length cur /\ i < length tq /\ i < length ta /\ i < length tc) ->
  is_Some (fold_left (write_back tq ta tc) ps (Some cur)).
Proof.
  induction ps as [|[i idx] ps IH]; intros cur Hok; [by eexists|].
  cbn [fold_left].
  destruct (Hok i idx ltac:(left)) as (Hidx & Hq & Ha & Hc).
  destruct (lookup_lt_is_Some_2 cur idx Hidx) as [qa Hqa].
  destruct (lookup_lt_is_Some_2 tq i Hq) as [q Hq'].
  destruct (lookup_lt_is_Some_2 ta i Ha) as [a Ha'].
  destruct (lookup_lt_is_Some_2 tc i Hc) as [c Hc'].
  assert (Hstep : exists cur', write_back tq ta tc (Some cur) (i, idx)
                               = Some cur' /\ length cur' = length cur).
  { unfold write_back. simpl. rewrite Hqa, Hq', Ha', Hc'. simpl.
    destruct (truthy (default JNull (qa !! "context"))); simpl;
      eexists; (split; [done|]); by rewrite length_insert. }
  destruct Hstep as (cur' & -> & Hlen). apply IH.
  intros i' idx' Hin. rewrite Hlen. apply Hok. by right.
Qed.

(** X15 -- With a positive batch size, [translate_missing_only] returns as
    soon as [needs_translation] raises on no pair and every flagged pair has
    its source texts, whatever the remote service answers and in whatever
    order. *)
Lemma translate_missing_only_returns p qa_pairs cache ph_q ph_a ph_c flagged :
  flagged_from 0 qa_pairs = Some flagged ->
  is_Some (mapM (text_field "question_pt") flagged.*2) ->
  is_Some (mapM (text_field "answer_pt") flagged.*2) ->
  is_Some (mapM context_text flagged.*2) ->
  is_Some (translate_missing_only json_loads (Zpos p) qa_pairs cache
                                  ph_q ph_a ph_c).
Proof.
  intros Hfl [questions Hq] [answers Ha] [contexts Hc].
  unfold translate_missing_only. rewrite Hfl.
  cbn -[batch_list gather results_of].
  destruct (flagged_from_spec qa_pairs 0 flagged Hfl) as [Hin _].
  destruct flagged as [|f0 fl]; [by eexists|].
  remember (f0 :: fl) as fls eqn:Hfls. clear Hfls.
  rewrite Hq. cbn -[batch_list gather results_of].
  rewrite Ha. cbn -[batch_list gather results_of].
  rewrite Hc. cbn -[batch_list gather results_of].
  rewrite !batch_list_pos. cbn -[gather results_of].
  destruct ph_q as [api_q sched_q], ph_a as [api_a sched_a],
    ph_c as [api_c sched_c].
  rewrite gather_results. cbn -[gather results_of].
  rewrite gather_results. cbn -[gather results_of].
  rewrite gather_results. cbn -[gather results_of].
  assert (Hn : 0 < Pos.to_nat p) by lia.
  match goal with
  | |- is_Some (fold_left (write_back ?tq ?ta ?tc) ?ps ?acc ≫= _) =>
      destruct (write_back_fold_Some tq ta tc ps qa_pairs) as [out Hout]
  end.
  { intros i idx Hi. apply list_elem_of_lookup in Hi as [j Hj].
    apply list_lookup_imap_Some in Hj as (idx' & Hidx & [= -> ->]).
    rewrite list_lookup_fmap in Hidx.
    destruct (fls !! j) as [[idx0 qa]|] eqn:Hfj; [|done].
    injection Hidx as <-.
    destruct (Hin idx0 qa) as (_ & Hl & _);
      [apply list_elem_of_lookup; eauto|].
    rewrite Nat.sub_0_r in Hl. split; [by apply lookup_lt_Some in Hl|].
    pose proof (lookup_lt_Some _ _ _ Hfj) as Hj.
    unfold flatten.
    fold (reference_output json_loads (Pos.to_nat p) questions cache api_q).
    match goal with
    | |- _ /\ _ < length (concat (imap _ (chunks _ answers))) /\ _ =>
        idtac
    end.
    repeat split.
    - rewrite (proj1 (reference_output_slots _ _ _ _ _ Hn)).
      rewrite <- (length_mapM _ _ _ Hq), length_fmap. done.
    - match goal with
      | |- _ < length (concat (imap (fun b batch =>
               batch_result _ ?c batch (?api b)) (chunks _ answers))) =>
          fold (reference_output json_loads (Pos.to_nat p) answers c api)
      end.
      rewrite (proj1 (reference_output_slots _ _ _ _ _ Hn)).
      rewrite <- (length_mapM _ _ _ Ha), length_fmap. done.
    - match goal with
      | |- _ < length (concat (imap (fun b batch =>
               batch_result _ ?c batch (?api b)) (chunks _ contexts))) =>
          fold (reference_output json_loads (Pos.to_nat p) contexts c api)
      end.
      rewrite (proj1 (reference_output_slots _ _ _ _ _ Hn)).
      rewrite <- (length_mapM _ _ _ Hc), length_fmap. done. }
  rewrite Hout. simpl. by eexists.
Qed.

End ResumeReturns.

(** ** The rate limiter lets a caller through *)


(** * Further properties of the code *)

(** ** batch_list *)

(** X1 -- For a positive step, [batch_list] cuts the list into consecutive
    batches that lose, duplicate and reorder nothing: their concatenation is
    the list; there are ceil(len / n) of them; none is empty, none is longer
    than [n], and every batch but the last has exactly [n] elements. *)
Theorem batch_list_partition lst p :
  let n := Pos.to_nat p in
  exists batches,
    batch_list lst (Zpos p) = Some batches /\
    concat batches = lst /\
    length batches = (length lst + n - 1) / n /\
    (forall b batch, batches !! b = Some batch ->
       0 < length batch <= n /\
       batch = take n (drop (b * n) lst) /\
       (S b < length batches -> length batch = n)).
Proof.
  cbv zeta. set (n := Pos.to_nat p). assert (Hn : 0 < n) by (subst n; lia).
  exists (chunks n lst). split; [apply batch_list_pos|].
  split; [by apply concat_chunks|].
  assert (Hcount : length (chunks n lst) = (length lst + n - 1) / n).
  { unfold chunks. by rewrite length_map, length_seq. }
  split; [done|]. intros b batch Hb.
  pose proof (lookup_lt_Some _ _ _ Hb) as Hlt. rewrite Hcount in Hlt.
  apply chunks_lookup_Some in Hb as ->.
  pose proof (Nat.div_mod_eq (length lst + n - 1) n) as Hdm.
  pose proof (Nat.mod_upper_bound (length lst + n - 1) n ltac:(lia)) as Hm.
  rewrite length_take, length_drop. rewrite Hcount.
  split; [nia|]. split; [done|]. intros Hnext. nia.
Qed.

(** Five texts in steps of two: two full batches and the rest. *)
Example batch_list_five :
  batch_list ["a"; "b"; "c"; "d"; "e"] 2
  = Some [["a"; "b"]; ["c"; "d"]; ["e"]].
Proof. reflexivity. Qed.

(** ** More on the rate limiter *)








Lemma refill_tokens_cap rl now :
  (tokens (refill rl now) <= inject_Z (requests_per_minute rl))%Q.
Proof. unfold refill. cbn [tokens]. apply Q.le_min_l. Qed.

Lemma acquire_round_never_granted rl now :
  (requests_per_minute rl <= 0)%Z ->
  (acquire_round rl now).2 <> Granted /\
  requests_per_minute (acquire_round rl now).1 = requests_per_minute rl /\
  (requests_per_minute rl = 0%Z -> (acquire_round rl now).2 = ZeroDivision).
Proof.
  intros Hrpm. pose proof (refill_tokens_cap rl now) as Hcap.
  assert (Hz : (inject_Z (requests_per_minute rl) <= 0)%Q).
  { change 0%Q with (inject_Z 0). by rewrite <- Zle_Qle. }
  unfold acquire_round.
  destruct (Qle_bool 1 (tokens (refill rl now))) eqn:Hge.
  { apply (proj1 (Qle_bool_iff _ _)) in Hge. lra. }
  change (requests_per_minute (refill rl now)) with (requests_per_minute rl).
  destruct (Z.eqb_spec (requests_per_minute rl) 0); cbn [fst snd]; done.
Qed.

(** X4 -- A rate that is not positive never lets a call through. Whatever
    the state and the clock, [acquire()] returns no token: with
    [requests_per_minute = 0] it raises ZeroDivisionError at its first turn,
    computing the wait; with a negative rate every turn ends in another
    wait (the computed wait is not positive, so the loop spins). *)
Theorem acquire_needs_positive_rate rl clock :
  (requests_per_minute rl <= 0)%Z ->
  (acquire rl clock).2 <> Granted /\
  (requests_per_minute rl = 0%Z -> clock <> [] ->
   (acquire rl clock).2 = ZeroDivision) /\
  ((requests_per_minute rl < 0)%Z ->
   exists wait_time, (acquire rl clock).2 = MustWait wait_time).
Proof.
  revert rl. induction clock as [|now rest IH]; intros rl Hrpm.
  - cbn [acquire snd]. split; [done|]. split; [done|]. by eexists.
  - cbn [acquire].
    destruct (acquire_round_never_granted rl now Hrpm) as (Hng & Hsame & Hz).
    destruct (acquire_round rl now) as [rl' [| w |]] eqn:Hround;
      cbn [fst snd] in *; [done| |].
    + destruct (IH rl') as (H1 & H2 & H3); [lia|].
      split; [done|]. split.
      * intros H0. by specialize (Hz H0).
      * intros Hneg. apply H3. lia.
    + split; [done|]. split; [done|]. intros Hneg.
      unfold acquire_round in Hround.
      destruct (Qle_bool 1 (tokens (refill rl now))); [done|].
      change (requests_per_minute (refill rl now))
        with (requests_per_minute rl) in Hround.
      destruct (Z.eqb_spec (requests_per_minute rl) 0); [lia|done].
Qed.

Lemma acquire_needs_positive_rate_witness :
  (acquire (RateLimiter_init 0 0) [0; 1]%Q).2 <> Granted /\
  (requests_per_minute (RateLimiter_init 0 0) = 0%Z -> [0; 1]%Q <> [] ->
   (acquire (RateLimiter_init 0 0) [0; 1]%Q).2 = ZeroDivision) /\
  ((requests_per_minute (RateLimiter_init 0 0) < 0)%Z ->
   exists wait_time,
     (acquire (RateLimiter_init 0 0) [0; 1]%Q).2 = MustWait wait_time).
Proof.
  apply (acquire_needs_positive_rate (RateLimiter_init 0 0) [0; 1]%Q).
  simpl. lia.
Defined.

Lemma refill_tokens_ge rl now :
  (0 <= requests_per_minute rl)%Z -> (updated_at rl <= now)%Q ->
  (Qmin (inject_Z (requests_per_minute rl)) (tokens rl)
   <= tokens (refill rl now))%Q.
Proof.
  intros Hrpm Hnow. unfold refill. cbn [tokens].
  assert (Hrate : (0 <= inject_Z (requests_per_minute rl) / 60)%Q).
  { apply Qle_shift_div_l; [reflexivity|]. rewrite Qmult_0_l.
    change 0%Q with (inject_Z 0). by rewrite <- Zle_Qle. }
  assert (Hel : (0 <= now - updated_at rl)%Q) by lra.
  pose proof (Qmult_le_0_compat _ _ Hel Hrate) as Hadd.
  set (gain := ((now - updated_at rl) *
                (inject_Z (requests_per_minute rl) / 60))%Q) in *.
  apply Q.min_glb; [apply Q.le_min_l|].
  eapply Qle_trans; [apply Q.le_min_r|]. lra.
Qed.

(** A bucket that holds [k] whole tokens serves [k] calls at once, each at
    its first clock reading. *)
Lemma acquire_many_burst n : forall rl clock,
  (0 <= requests_per_minute rl)%Z ->
  (inject_Z (Z.of_nat n) <= tokens rl)%Q ->
  (inject_Z (Z.of_nat n) <= inject_Z (requests_per_minute rl))%Q ->
  monotonic_from (updated_at rl) clock ->
  n <= length clock ->
  acquire_count n rl clock = n /\
  (acquire_many n rl clock).2 = drop n clock.
Proof.
  induction n as [|n IH]; intros rl clock Hrpm Htk Hcap Hmono Hlen; [done|].
  destruct clock as [|now rest]; [simpl in Hlen; lia|].
  destruct Hmono as [Hnow Hrest].
  rewrite Nat2Z.inj_succ, <- Z.add_1_r, inject_Z_plus in Htk, Hcap.
  change (inject_Z 1) with 1%Q in *.
  pose proof (refill_tokens_ge rl now Hrpm Hnow) as Hge.
  assert (Hfull : (1 + inject_Z (Z.of_nat n) <= tokens (refill rl now))%Q).
  { eapply Qle_trans; [|exact Hge]. apply Q.min_glb; lra. }
  assert (Hone : (1 <= tokens (refill rl now))%Q).
  { assert (0 <= inject_Z (Z.of_nat n))%Q; [|lra].
    change 0%Q with (inject_Z 0). rewrite <- Zle_Qle. lia. }
  cbn [acquire_count acquire_many acquire]. unfold acquire_round.
  rewrite (proj2 (Qle_bool_iff _ _) Hone). cbn [granted].
  destruct (IH (mkRateLimiter (requests_per_minute (refill rl now))
                              (tokens (refill rl now) - 1)%Q
                              (updated_at (refill rl now))) rest)
    as [Hc Hd]; cbn [requests_per_minute tokens updated_at refill] in *;
    [done|lra|lra|done|simpl in Hlen; lia|].
  split; [by rewrite Hc|done].
Qed.

(** X5 -- Burst. A fresh limiter lets the first [requests_per_minute]
    callers through at once: for [n <= requests_per_minute] and a clock that
    never goes backwards, each of the first [n] calls of [acquire()] returns
    with a token at its first clock reading, without sleeping. *)
Theorem rate_limiter_burst rpm t0 clock n :
  (Z.of_nat n <= rpm)%Z -> monotonic_from t0 clock -> n <= length clock ->
  acquire_count n (RateLimiter_init rpm t0) clock = n /\
  (acquire_many n (RateLimiter_init rpm t0) clock).2 = drop n clock.
Proof.
  intros Hn Hmono Hlen.
  assert (Hq : (inject_Z (Z.of_nat n) <= inject_Z rpm)%Q)
    by (by rewrite <- Zle_Qle).
  apply acquire_many_burst; simpl; try done. lia.
Qed.

Lemma rate_limiter_burst_witness :
  acquire_count 2 (RateLimiter_init 2 0) [0; 0; 0; 30]%Q = 2 /\
  (acquire_many 2 (RateLimiter_init 2 0) [0; 0; 0; 30]%Q).2
    = drop 2 [0; 0; 0; 30]%Q.
Proof.
  apply (rate_limiter_burst 2 0 [0; 0; 0; 30]%Q 2).
  - lia.
  - simpl. unfold Qle. simpl. lia.
  - simpl. lia.
Defined.

(** ** Requests and tokens of one batch call *)

Lemma posts_of_backoff ck a K :
  posts_of (backoff_events ck a K) = replicate K (texts_to_translate ck).
Proof.
  unfold backoff_events. revert a.
  induction K as [|K IH]; intros a; [done|]. simpl. f_equal. apply IH.
Qed.

Lemma posts_of_store texts ck l : posts_of (store_events texts ck l) = [].
Proof.
  unfold store_events. by induction (zip (text_indices ck) l) as [|p ps IH].
Qed.

Lemma gate_events_backoff ck a K : gate_events (backoff_events ck a K) = [].
Proof.
  unfold backoff_events. revert a.
  induction K as [|K IH]; intros a; [done|]. simpl. apply IH.
Qed.

Lemma gate_events_store texts ck l : gate_events (store_events texts ck l) = [].
Proof.
  unfold store_events. by induction (zip (text_indices ck) l) as [|p ps IH].
Qed.

(** X6 -- One token, up to [max_retries] requests. A batch call with
    nothing to translate touches neither the rate limiter nor the semaphore
    nor the network. Otherwise it acquires the rate limiter once, enters the
    semaphore once and leaves it once on every way out, and posts between
    one and [max_retries] requests, each carrying exactly the un-cached
    texts of the batch in batch order (a text occurring twice is sent
    twice), with one backoff sleep between two requests: the retries are not
    rate-limited again. *)
Theorem translate_batch_async_requests json_loads cache texts resp :
  let request := List.filter (uncached cache) texts in
  let ev := (translate_batch_async json_loads cache texts resp).2 in
  exists k,
    posts_of ev = replicate k request /\
    k <= max_retries /\
    (k = 0 <-> request = []) /\
    gate_events ev = (if k is 0 then [] else [EvAcquire; EvEnter; EvExit]) /\
    length (sleeps_of ev) = k - 1.
Proof.
  cbv zeta. rewrite <- (check_cache_from_texts 0 cache texts).
  fold (check_cache cache texts).
  destruct (translate_batch_async_cases json_loads cache texts resp)
    as [[Htt Hrun]|[(Hne & K & l & HK & Hnone & Hsome & Hrun)
                   |(Hne & Hnone & Hrun)]]; rewrite Hrun; cbn [snd].
  - exists 0. rewrite Htt. split; [done|]. split; [lia|]. by split.
  - exists (S K). unfold posts_of, gate_events, sleeps_of.
    rewrite !omap_app, !List.filter_app.
    fold (posts_of (backoff_events (check_cache cache texts) 0 K)).
    fold (posts_of (store_events texts (check_cache cache texts) l)).
    fold (gate_events (backoff_events (check_cache cache texts) 0 K)).
    fold (gate_events (store_events texts (check_cache cache texts) l)).
    fold (sleeps_of (backoff_events (check_cache cache texts) 0 K)).
    fold (sleeps_of (store_events texts (check_cache cache texts) l)).
    rewrite posts_of_backoff, posts_of_store, gate_events_backoff,
      gate_events_store, sleeps_of_backoff, sleeps_of_store.
    simpl. rewrite !app_nil_r, length_map, length_seq.
    split; [done|]. split; [lia|]. split; [by split|]. split; [done|lia].
  - exists max_retries. unfold posts_of, gate_events, sleeps_of.
    rewrite !omap_app, !List.filter_app.
    fold (posts_of (backoff_events (check_cache cache texts) 0
                                   (max_retries - 1))).
    fold (gate_events (backoff_events (check_cache cache texts) 0
                                      (max_retries - 1))).
    fold (sleeps_of (backoff_events (check_cache cache texts) 0
                                    (max_retries - 1))).
    rewrite posts_of_backoff, gate_events_backoff, sleeps_of_backoff.
    simpl. split; [done|]. split; [lia|]. split; [by split|done].
Qed.

(** ** The cache after an accepted response *)

Lemma apply_sets_snoc sets t v cache :
  apply_sets (sets ++ [(t, v)]) cache = <[t := v]> (apply_sets sets cache).
Proof. unfold apply_sets. by rewrite fold_left_app. Qed.

Lemma apply_sets_app sets1 sets2 cache :
  apply_sets (sets1 ++ sets2) cache = apply_sets sets2 (apply_sets sets1 cache).
Proof. unfold apply_sets. by rewrite fold_left_app. Qed.

(** An entry is what the last [cache.set] for its key stored, or what it
    was when no [cache.set] had its key. *)
Lemma apply_sets_lookup sets : forall (cache : cache_t) t,
  ((t ∉ sets.*1) /\ apply_sets sets cache !! t = cache !! t) \/
  (exists v, (t, v) ∈ sets /\ apply_sets sets cache !! t = Some v).
Proof.
  induction sets as [|[t0 v0] sets IH] using rev_ind; intros cache t.
  - left. split; [apply not_elem_of_nil|done].
  - rewrite apply_sets_snoc. destruct (decide (t0 = t)) as [->|Hne].
    + right. exists v0. split; [apply elem_of_app; right; by left|].
      unfold cache_set. by rewrite lookup_insert_eq.
    + rewrite lookup_insert_ne by done.
      destruct (IH cache t) as [[Hni Hl]|(v & Hin & Hl)].
      * left. split; [|done]. rewrite fmap_app, not_elem_of_app.
        split; [done|]. simpl. apply not_elem_of_cons.
        split; [congruence|apply not_elem_of_nil].
      * right. exists v. split; [|done]. apply elem_of_app. by left.
Qed.

Lemma apply_sets_lookup_NoDup sets (cache : cache_t) t v :
  NoDup sets.*1 -> (t, v) ∈ sets -> apply_sets sets cache !! t = Some v.
Proof.
  intros Hnd Hin. destruct (apply_sets_lookup sets cache t)
    as [[Hni _]|(v' & Hin' & Hl)].
  - destruct Hni. apply list_elem_of_fmap. by exists (t, v).
  - rewrite Hl. f_equal.
    apply list_elem_of_lookup in Hin as [i Hi].
    apply list_elem_of_lookup in Hin' as [j Hj].
    assert (i = j) as ->; [|congruence].
    eapply NoDup_lookup; [exact Hnd| |]; rewrite list_lookup_fmap.
    + by rewrite Hi.
    + by rewrite Hj.
Qed.

(** The keys of the [cache.set] calls are the texts sent, in order. *)
Lemma store_sets_zip cache texts l :
  let ck := check_cache cache texts in
  map (fun p : nat * json => (texts !!! p.1, p.2)) (zip (text_indices ck) l)
  = zip (texts_to_translate ck) l.
Proof.
  cbv zeta. apply list_eq. intros k. rewrite list_lookup_fmap.
  destruct (zip (text_indices (check_cache cache texts)) l !! k)
    as [[i v]|] eqn:Hk; simpl.
  - apply lookup_zip_with_Some in Hk as (i' & v' & [= <- <-] & Hi & Hv).
    destruct (check_cache_from_index_lookup 0 cache texts k i Hi)
      as (_ & t & Ht & _ & Hsent).
    rewrite Nat.sub_0_r in Ht. rewrite (list_lookup_total_correct _ _ _ Ht).
    symmetry. apply lookup_zip_with_Some. by exists t, v.
  - symmetry. apply lookup_zip_with_None. apply lookup_zip_with_None in Hk.
    destruct Hk as [Hk|Hk]; [left|by right].
    apply lookup_ge_None. apply lookup_ge_None in Hk.
    unfold check_cache in *. by rewrite <- check_cache_indices_length.
Qed.

(** X7 -- What an accepted response leaves in the cache. After a batch call
    that was accepted with translations that are all truthy, every text of
    the batch is a cache hit; the same batch run again against that cache
    returns from the cache alone, with no token, no semaphore and no
    request; and when no un-cached text occurred twice in the batch, the
    second run returns the very list of the first. *)
Theorem accepted_batch_is_cached json_loads cache texts resp K l :
  let ck := check_cache cache texts in
  K < max_retries ->
  (forall j, j < K -> attempt_body json_loads ck (resp j) = None) ->
  attempt_body json_loads ck (resp K) = Some l ->
  Forall (fun v => truthy v = true) l ->
  exists cache' result ev,
    translate_batch_async json_loads cache texts resp
      = (cache', Done result, ev) /\
    (forall t, t ∈ texts -> exists v, cache_hit cache' t v) /\
    (forall resp',
       translate_batch_async json_loads cache' texts resp' =
       (cache', Done (map (cached_value cache') texts), [])) /\
    (NoDup (texts_to_translate ck) ->
     map (cached_value cache') texts = result).
Proof.
  cbv zeta. intros HK Hnone Hsome Htruthy.
  pose proof (proj1 (attempt_body_Some _ _ _ _) Hsome) as [_ Hlen].
  destruct (accepted_slots cache texts l Hlen) as [Hrlen Hslots].
  set (ck := check_cache cache texts) in *.
  set (sets := zip (texts_to_translate ck) l).
  assert (Hcache : (store_translations texts cache ck l).1
                   = apply_sets sets cache).
  { rewrite store_translations_cache, cache_sets_of_store.
    subst sets ck. by rewrite store_sets_zip. }
  assert (Hkeys : sets.*1 = texts_to_translate ck).
  { subst sets. apply fst_zip. lia. }
  assert (Hhit : forall t, t ∈ texts ->
            exists v, cache_hit (apply_sets sets cache) t v).
  { intros t Ht. destruct (apply_sets_lookup sets cache t)
      as [[Hni Hl]|(v & Hin & Hl)].
    - destruct (uncached cache t) eqn:Hu.
      + destruct Hni. rewrite Hkeys. subst ck. unfold check_cache.
        rewrite check_cache_from_texts. apply list_elem_of_In, filter_In.
        split; [by apply list_elem_of_In|done].
      + destruct (uncached_false _ _ Hu) as (v & Hv & Hv').
        exists v. split; [|done]. unfold cache_get in *. by rewrite Hl.
    - exists v. split; [done|]. rewrite Forall_forall in Htruthy.
      apply Htruthy.
      apply list_elem_of_lookup in Hin as [k Hk].
      apply lookup_zip_with_Some in Hk as (t' & v' & [= <- <-] & _ & Hv).
      apply list_elem_of_lookup. eauto. }
  assert (Hun : forall t, t ∈ texts ->
            uncached (apply_sets sets cache) t = false).
  { intros t Ht. destruct (Hhit t Ht) as [v Hv]. by eapply uncached_hit. }
  destruct (decide (texts_to_translate ck = [])) as [Htt|Hne].
  { (* nothing to translate: the attempts are never made *)
    exists cache, (translations ck), []. split.
    { by apply translate_batch_async_all_cached. }
    assert (sets = []) as Hs by (subst sets; by rewrite Htt).
    rewrite Hs in *. simpl in *.
    split; [done|]. split.
    - intros resp'. rewrite translate_batch_async_all_cached.
      + by rewrite check_cache_all_hits.
      + by apply all_cached_uncached.
    - intros _. subst ck. by rewrite check_cache_all_hits. }
  eexists _, _, _. split.
  { by apply (translate_batch_async_accepted json_loads cache texts resp K l). }
  fold ck. rewrite Hcache. split; [done|]. split.
  - intros resp'. rewrite translate_batch_async_all_cached.
    + by rewrite check_cache_all_hits.
    + by apply all_cached_uncached.
  - intros Hnd. apply list_eq. intros p. rewrite list_lookup_fmap.
    destruct (texts !! p) as [t|] eqn:Hp; simpl.
    + specialize (Hslots p t Hp). unfold cached_value, cache_get.
      destruct (uncached cache t) eqn:Hu.
      * destruct Hslots as (_ & Hsent & v & Hv & Hres). rewrite Hres.
        rewrite (apply_sets_lookup_NoDup sets cache t v); [done| |].
        -- by rewrite Hkeys.
        -- apply list_elem_of_lookup. exists (rank cache texts p).
           apply lookup_zip_with_Some. by exists t, v.
      * rewrite Hslots. destruct (apply_sets_lookup sets cache t)
          as [[_ Hl]|(v & Hin & _)].
        -- rewrite Hl. destruct (uncached_false _ _ Hu) as (v & Hv & _).
           unfold cache_get in Hv. by rewrite Hv.
        -- exfalso. assert (Ht : t ∈ sets.*1).
           { apply list_elem_of_fmap. by exists (t, v). }
           rewrite Hkeys in Ht. subst ck. unfold check_cache in Ht.
           rewrite check_cache_from_texts in Ht.
           apply list_elem_of_In, filter_In in Ht as [_ Ht]. congruence.
    + symmetry. apply lookup_ge_None. rewrite Hrlen.
      by apply lookup_ge_None in Hp.
Qed.

Lemma accepted_batch_is_cached_witness :
  exists cache' result ev,
    translate_batch_async sample_loads ∅ sample_texts (fun _ => body_of "PAIR")
      = (cache', Done result, ev) /\
    (forall t, t ∈ sample_texts -> exists v, cache_hit cache' t v) /\
    (forall resp',
       translate_batch_async sample_loads cache' sample_texts resp' =
       (cache', Done (map (cached_value cache') sample_texts), [])) /\
    (NoDup (texts_to_translate (check_cache ∅ sample_texts)) ->
     map (cached_value cache') sample_texts = result).
Proof.
  apply (accepted_batch_is_cached sample_loads ∅ sample_texts
           (fun _ => body_of "PAIR") 0
           [JStr "Hi, all good?"; JStr "How much does it cost?"]).
  - unfold max_retries. lia.
  - intros j Hj. lia.
  - reflexivity.
  - repeat constructor.
Defined.

(** A text sent twice in one batch: the first run returns both answers, the
    cache keeps the last one, and the second run returns it twice. *)
Example duplicate_text_second_run :
  let first := translate_batch_async sample_loads ∅ ["Oi"; "Oi"]
                 (fun _ => body_of "PAIR") in
  first.1.2 = Done [JStr "Hi, all good?"; JStr "How much does it cost?"] /\
  (translate_batch_async sample_loads first.1.1 ["Oi"; "Oi"]
     (fun _ => HttpError)).1.2
  = Done [JStr "How much does it cost?"; JStr "How much does it cost?"].
Proof. vm_compute. split; reflexivity. Qed.

(** ** The cache across a gather *)

Lemma pool_sets_app tr b ev :
  pool_sets (tr ++ tag b ev) = pool_sets tr ++ cache_sets_of ev.
Proof.
  unfold pool_sets, cache_sets_of, tag. rewrite fmap_app, omap_app.
  f_equal. f_equal. rewrite <- list_fmap_compose. apply list_fmap_id.
Qed.

Section GatherCache.

Variable json_loads : string -> option json.
Variable api : nat -> nat -> http_outcome.
Variable cache0 : cache_t.
Variable batches : list (list string).

Lemma spawn_bound : tasks_bound cache0 batches (spawn cache0 batches).1.
Proof.
  unfold spawn. simpl. intros b texts ck a Hb.
  rewrite list_lookup_fmap in Hb.
  destruct (batches !! b) as [batch|] eqn:Hbatch; [|done].
  simpl in Hb. unfold start in Hb.
  destruct (texts_to_translate (check_cache cache0 batch)); simpl in Hb;
    [done|]. by injection Hb as <- <- _.
Qed.

Lemma spawn_sets : pool_sets (spawn cache0 batches).2 = [].
Proof.
  unfold spawn, pool_sets. cbn [snd].
  assert (Hnone : forall e, e ∈ (concat (imap (fun b batch =>
                      tag b (start cache0 batch).2) batches)).*2 ->
                    forall t v, e <> EvCacheSet t v).
  { intros e He t v ->. apply list_elem_of_fmap in He as ([b e] & He & Hin).
    simpl in He. subst e.
    apply elem_of_concat in Hin as (l & Hin & Hl).
    apply list_elem_of_lookup in Hl as [b' Hl].
    apply list_lookup_imap_Some in Hl as (batch & _ & ->).
    apply elem_of_tag in Hin as [_ Hin]. unfold start in Hin.
    destruct (texts_to_translate (check_cache cache0 batch)); simpl in Hin;
      [by apply elem_of_nil in Hin|].
    rewrite !elem_of_cons in Hin. destruct Hin as [?|[?|[?|Hin]]]; try done.
    by apply elem_of_nil in Hin. }
  revert Hnone.
  generalize ((concat (imap (fun b batch => tag b (start cache0 batch).2)
                            batches)).*2).
  intros evs. induction evs as [|e evs IH]; intros Hnone; [done|].
  unfold cache_sets_of. simpl.
  destruct e; try (apply IH; intros e' He'; apply Hnone; by right).
  exfalso. eapply (Hnone (EvCacheSet text translation)); [by left|done].
Qed.

Lemma resume_texts_of cache texts a o texts' ck' a' :
  (resume json_loads cache (InFlight texts (check_cache cache0 texts) a) o).1.2
    = InFlight texts' ck' a' ->
  texts' = texts /\ ck' = check_cache cache0 texts.
Proof.
  destruct (attempt_body json_loads (check_cache cache0 texts) o)
    as [l|] eqn:Hl.
  - by rewrite (resume_accept _ _ _ _ _ _ _ Hl).
  - destruct (Nat.lt_ge_cases a (max_retries - 1));
      [rewrite resume_retry by done|rewrite resume_fallback by done]; simpl.
    + by intros [= <- <- _].
    + done.
Qed.

(** What a delivery does to the cache: it applies the task's own
    [cache.set] calls, whose keys are texts of the task's batch that were
    un-cached when the gather started. *)
Lemma resume_sets cache texts a o :
  let r := resume json_loads cache
             (InFlight texts (check_cache cache0 texts) a) o in
  r.1.1 = apply_sets (cache_sets_of r.2) cache /\
  forall t v, (t, v) ∈ cache_sets_of r.2 ->
    uncached cache0 t = true /\ t ∈ texts.
Proof.
  cbv zeta. set (ck := check_cache cache0 texts).
  destruct (attempt_body json_loads ck o) as [l|] eqn:Hl.
  - rewrite (resume_accept _ _ _ _ _ _ _ Hl). cbn [fst snd].
    unfold cache_sets_of. rewrite omap_app.
    fold (cache_sets_of (store_events texts ck l)). simpl.
    rewrite app_nil_r. split; [apply store_translations_cache|].
    intros t v Hin. rewrite cache_sets_of_store in Hin.
    subst ck. rewrite store_sets_zip in Hin.
    apply list_elem_of_lookup in Hin as [k Hk].
    apply lookup_zip_with_Some in Hk as (t' & v' & [= -> ->] & Ht & _).
    assert (Hin : t' ∈ texts_to_translate (check_cache cache0 texts)).
    { apply list_elem_of_lookup. eauto. }
    unfold check_cache in Hin. rewrite check_cache_from_texts in Hin.
    apply list_elem_of_In, filter_In in Hin as [Hin Hu].
    split; [done|by apply list_elem_of_In].
  - destruct (Nat.lt_ge_cases a (max_retries - 1));
      [rewrite resume_retry by done|rewrite resume_fallback by done];
      cbn [fst snd]; (split; [done|]); intros t v Hin;
      by apply elem_of_nil in Hin.
Qed.

(** The invariant of the gather: the cache is the initial one with the
    [cache.set] calls of the trace applied, and each of them has its key
    among the initially un-cached texts of the batches. *)
Lemma deliver_cache st b :
  tasks_bound cache0 batches (pool_tasks st) ->
  pool_cache st = apply_sets (pool_sets (pool_trace st)) cache0 ->
  sets_ok cache0 batches (pool_sets (pool_trace st)) ->
  let st' := deliver json_loads api st b in
  tasks_bound cache0 batches (pool_tasks st') /\
  pool_cache st' = apply_sets (pool_sets (pool_trace st')) cache0 /\
  sets_ok cache0 batches (pool_sets (pool_trace st')).
Proof.
  intros Hbound Hcache Hsets. cbv zeta. unfold deliver.
  destruct (pool_tasks st !! b) as [[texts ck a|r]|] eqn:Hb; try done.
  destruct (Hbound b texts ck a Hb) as [Hbatch ->].
  pose proof (resume_sets (pool_cache st) texts a (api b a)) as [Hc Hk].
  pose proof (resume_texts_of (pool_cache st) texts a (api b a)) as Ht.
  destruct (resume json_loads (pool_cache st)
              (InFlight texts (check_cache cache0 texts) a) (api b a))
    as [[c t] ev]. cbn [fst snd pool_tasks pool_cache pool_trace] in *.
  split; [|split].
  - intros b' texts' ck' a' Hb'. destruct (decide (b = b')) as [<-|Hne].
    + rewrite list_lookup_insert_eq in Hb' by (by apply lookup_lt_Some in Hb).
      injection Hb' as ->. destruct (Ht _ _ _ eq_refl) as [-> ->]. done.
    + rewrite list_lookup_insert_ne in Hb' by done. by eapply Hbound.
  - by rewrite pool_sets_app, apply_sets_app, <- Hcache.
  - rewrite pool_sets_app. intros t' v Hin.
    apply elem_of_app in Hin as [Hin|Hin]; [by eapply Hsets|].
    destruct (Hk t' v Hin) as [Hu Hin']. split; [done|].
    exists texts. split; [|done]. apply list_elem_of_lookup. eauto.
Qed.

Lemma gather_cache sched :
  let st := gather json_loads cache0 batches (Phase api sched) in
  pool_cache st = apply_sets (pool_sets (pool_trace st)) cache0 /\
  sets_ok cache0 batches (pool_sets (pool_trace st)).
Proof.
  cbv zeta. unfold gather.
  pose proof spawn_bound as Hb. pose proof spawn_sets as Hs.
  destruct (spawn cache0 batches) as [tasks tr]. cbn [fst snd] in *.
  assert (Hinv : tasks_bound cache0 batches (pool_tasks (Pool cache0 tasks tr))
            /\ pool_cache (Pool cache0 tasks tr)
               = apply_sets (pool_sets (pool_trace (Pool cache0 tasks tr)))
                            cache0
            /\ sets_ok cache0 batches
                 (pool_sets (pool_trace (Pool cache0 tasks tr)))).
  { cbn [pool_tasks pool_cache pool_trace]. rewrite Hs.
    split; [done|]. split; [done|]. intros t v Hin.
    by apply elem_of_nil in Hin. }
  revert Hinv. generalize (Pool cache0 tasks tr). simpl.
  match goal with |- context [fold_left _ ?ds _] => generalize ds end.
  intros ds. induction ds as [|d ds IH]; intros st (H1 & H2 & H3); [done|].
  simpl. apply IH. by apply deliver_cache.
Qed.

End GatherCache.

(** X8 -- What a run does to the cache. The cache [translate_all_batches]
    leaves is the cache it found with the [cache.set] calls of the run
    applied, and every one of them stores under an input text that was
    un-cached when the run started. So an entry that was a hit is still
    there with the same translation, no entry for a text outside the input
    is touched, and no entry is ever removed. *)
Theorem translate_all_batches_cache json_loads BATCH_SIZE texts cache ph
        out cache' tr :
  translate_all_batches json_loads BATCH_SIZE texts cache ph
    = Some (out, cache', tr) ->
  cache' = apply_sets (pool_sets tr) cache /\
  (forall t v, (t, v) ∈ pool_sets tr -> uncached cache t = true /\ t ∈ texts) /\
  (forall t, uncached cache t = false -> cache' !! t = cache !! t) /\
  (forall k, k ∉ texts -> cache' !! k = cache !! k) /\
  (forall k, is_Some (cache !! k) -> is_Some (cache' !! k)).
Proof.
  unfold translate_all_batches. intros Hrun.
  destruct (batch_list texts BATCH_SIZE) as [batches|] eqn:Hb; [|done].
  cbn -[gather results_of] in Hrun. destruct ph as [api sched].
  destruct (gather_cache json_loads api cache batches sched) as [Hc Hs].
  destruct (results_of _) as [rs|]; [|done]. simpl in Hrun.
  injection Hrun as <- <- <-.
  set (st := gather json_loads cache batches (Phase api sched)) in *.
  assert (Hkeys : forall t v, (t, v) ∈ pool_sets (pool_trace st) ->
            uncached cache t = true /\ t ∈ texts).
  { intros t v Hin. destruct (Hs t v Hin) as (Hu & batch & Hbatch & Ht).
    split; [done|]. by eapply batch_list_subseteq. }
  split; [done|]. split; [done|].
  assert (Hframe : forall k,
            (forall v, (k, v) ∈ pool_sets (pool_trace st) -> False) ->
            pool_cache st !! k = cache !! k).
  { intros k Hno. rewrite Hc.
    destruct (apply_sets_lookup (pool_sets (pool_trace st)) cache k)
      as [[_ Hl]|(v & Hin & _)]; [done|]. by destruct (Hno v). }
  split; [|split].
  - intros t Hu. apply Hframe. intros v Hin.
    destruct (Hkeys t v Hin). congruence.
  - intros k Hk. apply Hframe. intros v Hin. by destruct (Hkeys k v Hin).
  - intros k Hsome. rewrite Hc.
    destruct (apply_sets_lookup (pool_sets (pool_trace st)) cache k)
      as [[_ Hl]|(v & _ & Hl)]; rewrite Hl; [done|by eexists].
Qed.

Lemma translate_all_batches_cache_witness :
  exists out cache' tr,
    translate_all_batches sample_loads 2 sample_texts
      (<["Quanto custa?" := JStr "How much?"]> ∅)
      (Phase (fun _ _ => body_of "ONE") [0]) = Some (out, cache', tr) /\
    cache' = apply_sets (pool_sets tr)
                        (<["Quanto custa?" := JStr "How much?"]> ∅) /\
    (forall t v, (t, v) ∈ pool_sets tr ->
       uncached (<["Quanto custa?" := JStr "How much?"]> ∅) t = true /\
       t ∈ sample_texts) /\
    (forall t, uncached (<["Quanto custa?" := JStr "How much?"]> ∅) t = false ->
       cache' !! t
       = (<["Quanto custa?" := JStr "How much?"]> ∅ : cache_t) !! t) /\
    (forall k, k ∉ sample_texts ->
       cache' !! k
       = (<["Quanto custa?" := JStr "How much?"]> ∅ : cache_t) !! k) /\
    (forall k,
       is_Some ((<["Quanto custa?" := JStr "How much?"]> ∅ : cache_t) !! k) ->
       is_Some (cache' !! k)).
Proof.
  destruct (translate_all_batches sample_loads 2 sample_texts
              (<["Quanto custa?" := JStr "How much?"]> ∅)
              (Phase (fun _ _ => body_of "ONE") [0]))
    as [[[out cache'] tr]|] eqn:Hrun; [|by vm_compute in Hrun].
  exists out, cache', tr. split; [reflexivity|].
  exact (translate_all_batches_cache sample_loads 2 sample_texts _ _
           out cache' tr Hrun).
Defined.

(** ** Batches do not affect one another *)

Lemma drive_ext json_loads fuel resp resp' : forall cache t,
  (forall a, a < max_retries -> resp a = resp' a) -> task_wf t ->
  drive json_loads fuel resp cache t = drive json_loads fuel resp' cache t.
Proof.
  induction fuel as [|fuel IH]; intros cache t Hext Hwf; [done|].
  destruct t as [texts ck a|r]; [|done].
  rewrite !drive_step. cbv zeta. rewrite <- (Hext a Hwf).
  destruct (resume_wf json_loads cache (InFlight texts ck a) (resp a) Hwf)
    as [Hwf' _].
  by rewrite (IH _ _ Hext Hwf').
Qed.

Lemma batch_result_ext json_loads cache batch resp resp' :
  (forall a, a < max_retries -> resp a = resp' a) ->
  batch_result json_loads cache batch resp
  = batch_result json_loads cache batch resp'.
Proof.
  intros Hext. unfold batch_result, translate_batch_async.
  pose proof (start_wf cache batch) as Hwf.
  destruct (start cache batch) as [t0 ev0]. cbn [fst] in Hwf.
  by rewrite (drive_ext json_loads max_retries resp resp' cache t0 Hext Hwf).
Qed.

(** Element [i] of the output is element [i mod n] of the result of batch
    [i / n]. *)
Lemma reference_output_lookup json_loads n texts cache api i :
  0 < n -> i < length texts ->
  reference_output json_loads n texts cache api !! i =
  batch_result json_loads cache (take n (drop (i / n * n) texts))
               (api (i / n)) !! (i mod n).
Proof.
  intros Hn Hlt. unfold reference_output.
  set (R := imap (fun b batch => batch_result json_loads cache batch (api b))
                 (chunks n texts)).
  pose proof (Nat.div_mod_eq i n) as Hdm.
  pose proof (Nat.mod_upper_bound i n ltac:(lia)) as Hmod.
  destruct (chunk_count_bound n (length texts) Hn) as [_ Hcount].
  set (b := i / n) in *. set (q := i mod n) in *.
  pose proof (chunks_lookup n texts b (Hcount i Hlt)) as Hb.
  set (batch := take n (drop (b * n) texts)) in *.
  assert (Hq : q < length batch).
  { subst batch. rewrite length_take, length_drop. nia. }
  replace i with (b * n + q) by lia.
  apply concat_lookup_uniform.
  - intros b' r' Hb' Hr'. subst R.
    apply list_lookup_imap_Some in Hr' as (batch' & Hbatch' & ->).
    rewrite (proj1 (batch_result_slots json_loads cache batch' (api b'))).
    apply chunks_lookup_Some in Hbatch' as ->.
    rewrite length_take, length_drop. nia.
  - subst R. by rewrite list_lookup_imap, Hb.
  - by rewrite (proj1 (batch_result_slots json_loads cache batch (api b))).
Qed.

(** X9 -- Batch isolation. What [translate_all_batches] returns at the
    positions of a batch depends on the remote answers to that batch only:
    two runs from the same cache whose API behaviours agree on batch [b],
    whatever they do for the other batches and in whatever order the
    responses arrive, return the same elements at every position of
    batch [b]. *)
Theorem batch_isolation json_loads p texts cache api api' sched sched' b :
  (forall a, a < max_retries -> api b a = api' b a) ->
  exists out cache1 tr1 out' cache2 tr2,
    translate_all_batches json_loads (Zpos p) texts cache (Phase api sched)
      = Some (out, cache1, tr1) /\
    translate_all_batches json_loads (Zpos p) texts cache (Phase api' sched')
      = Some (out', cache2, tr2) /\
    forall i, i / Pos.to_nat p = b -> out !! i = out' !! i.
Proof.
  intros Hext.
  destruct (translate_all_batches_output json_loads p texts cache api sched)
    as (c1 & tr1 & Hrun).
  destruct (translate_all_batches_output json_loads p texts cache api' sched')
    as (c2 & tr2 & Hrun').
  eexists _, _, _, _, _, _. split; [exact Hrun|]. split; [exact Hrun'|].
  intros i Hi. assert (Hn : 0 < Pos.to_nat p) by lia.
  destruct (Nat.lt_ge_cases i (length texts)) as [Hlt|Hge].
  - rewrite !reference_output_lookup by done. rewrite Hi.
    by rewrite (batch_result_ext json_loads cache _ (api b) (api' b) Hext).
  - rewrite !(proj2 (lookup_ge_None _ _)); [done|..];
      by rewrite (proj1 (reference_output_slots _ _ _ _ _ Hn)).
Qed.

Lemma batch_isolation_witness :
  exists out cache1 tr1 out' cache2 tr2,
    translate_all_batches sample_loads 1 sample_texts ∅
      (Phase (fun _ _ => body_of "ONE") [0; 1]) = Some (out, cache1, tr1) /\
    translate_all_batches sample_loads 1 sample_texts ∅
      (Phase (fun b _ => if b =? 0 then body_of "ONE" else HttpError) [1; 0])
      = Some (out', cache2, tr2) /\
    forall i, i / Pos.to_nat 1 = 0 -> out !! i = out' !! i.
Proof.
  apply (batch_isolation sample_loads 1 sample_texts ∅
           (fun _ _ => body_of "ONE")
           (fun b _ => if b =? 0 then body_of "ONE" else HttpError)
           [0; 1] [1; 0] 0).
  intros a _. reflexivity.
Defined.

(** ** The status report and the resume run *)

Lemma analyze_fold_None qa_pairs : fold_left analyze_step qa_pairs None = None.
Proof. by induction qa_pairs. Qed.

(** The report and the scan of [translate_missing_only] call
    [needs_translation] on the same pairs in the same order: they raise
    together, and the report counts what the scan collects. *)
Lemma analyze_fold qa_pairs : forall s0 idx,
  match fold_left analyze_step qa_pairs (Some s0), flagged_from idx qa_pairs with
  | Some s, Some fl =>
      st_total s = st_total s0 /\
      st_needs_translation s = st_needs_translation s0 + length fl /\
      st_already_translated s + length fl
        = st_already_translated s0 + length qa_pairs /\
      st_missing_question s <= st_missing_question s0 + length fl /\
      st_missing_answer s <= st_missing_answer s0 + length fl /\
      st_failed_translation s <= st_failed_translation s0 + length fl
  | None, None => True
  | _, _ => False
  end.
Proof.
  induction qa_pairs as [|qa rest IH]; intros s0 idx.
  { simpl. repeat split; lia. }
  cbn [fold_left flagged_from]. unfold analyze_step at 2. cbn [mbind option_bind].
  destruct (needs_translation qa) as [flag|]; cbn [mbind option_bind];
    [|by rewrite analyze_fold_None].
  destruct flag.
  - match goal with
    | |- context [fold_left _ rest (Some ?s1)] => specialize (IH s1 (S idx))
    end.
    destruct (fold_left _ rest _) as [s|], (flagged_from (S idx) rest) as [fl|];
      cbn [mbind option_bind]; try done.
    cbn [st_total st_needs_translation st_already_translated
         st_missing_question st_missing_answer st_failed_translation
         length] in *.
    destruct IH as (? & ? & ? & Hq & Ha & Hf). repeat split; try lia.
    + destruct (truthy (get_or_none "question_en" qa)); lia.
    + destruct (truthy (get_or_none "answer_en" qa)); lia.
    + destruct (_ || _); lia.
  - match goal with
    | |- context [fold_left _ rest (Some ?s1)] => specialize (IH s1 (S idx))
    end.
    destruct (fold_left _ rest _) as [s|], (flagged_from (S idx) rest) as [fl|];
      cbn [mbind option_bind]; try done.
    cbn [st_total st_needs_translation st_already_translated
         st_missing_question st_missing_answer st_failed_translation
         length] in *.
    destruct IH as (? & ? & ? & Hq & Ha & Hf). repeat split; lia.
Qed.

(** X11 -- The status report adds up. When [analyze_translation_status]
    returns, [total] is the number of pairs, every pair is counted once as
    [needs_translation] or as [already_translated], none of the three
    problem counters exceeds [needs_translation], and [needs_translation] is
    the number of pairs the scan of [translate_missing_only] selects. *)
Theorem analyze_translation_status_counts qa_pairs status :
  analyze_translation_status qa_pairs = Some status ->
  st_total status = length qa_pairs /\
  st_needs_translation status + st_already_translated status
    = length qa_pairs /\
  st_missing_question status <= st_needs_translation status /\
  st_missing_answer status <= st_needs_translation status /\
  st_failed_translation status <= st_needs_translation status /\
  exists flagged, flagged_from 0 qa_pairs = Some flagged /\
                  length flagged = st_needs_translation status.
Proof.
  unfold analyze_translation_status. intros Hrun.
  pose proof (analyze_fold qa_pairs (Status (length qa_pairs) 0 0 0 0 0) 0)
    as Hfold.
  rewrite Hrun in Hfold.
  destruct (flagged_from 0 qa_pairs) as [fl|]; [|done]. simpl in Hfold.
  destruct Hfold as (? & ? & ? & ? & ? & ?).
  repeat split; try lia. exists fl. split; [done|lia].
Qed.

Lemma analyze_translation_status_counts_witness :
  st_total (Status 3 1 2 0 0 1) = length sample_prior /\
  st_needs_translation (Status 3 1 2 0 0 1)
    + st_already_translated (Status 3 1 2 0 0 1) = length sample_prior /\
  st_missing_question (Status 3 1 2 0 0 1)
    <= st_needs_translation (Status 3 1 2 0 0 1) /\
  st_missing_answer (Status 3 1 2 0 0 1)
    <= st_needs_translation (Status 3 1 2 0 0 1) /\
  st_failed_translation (Status 3 1 2 0 0 1)
    <= st_needs_translation (Status 3 1 2 0 0 1) /\
  exists flagged, flagged_from 0 sample_prior = Some flagged /\
                  length flagged = st_needs_translation (Status 3 1 2 0 0 1).
Proof.
  apply (analyze_translation_status_counts sample_prior (Status 3 1 2 0 0 1)).
  vm_compute. reflexivity.
Defined.

(** X12 -- A clean report means a run without effect. When the report
    counts no pair that needs translation, [translate_missing_only] returns
    the pairs as they are, sends no request and leaves the cache alone,
    whatever the batch size and the remote behaviour. *)
Theorem clean_report_nothing_to_do json_loads BATCH_SIZE qa_pairs status cache
        ph_q ph_a ph_c :
  analyze_translation_status qa_pairs = Some status ->
  st_needs_translation status = 0 ->
  translate_missing_only json_loads BATCH_SIZE qa_pairs cache ph_q ph_a ph_c
  = Some (qa_pairs, cache, []).
Proof.
  unfold analyze_translation_status. intros Hrun Hzero.
  pose proof (analyze_fold qa_pairs (Status (length qa_pairs) 0 0 0 0 0) 0)
    as Hfold.
  rewrite Hrun in Hfold. unfold translate_missing_only.
  destruct (flagged_from 0 qa_pairs) as [fl|]; [|done]. simpl in Hfold.
  destruct Hfold as (_ & Hlen & _). destruct fl; [done|]. simpl in Hlen. lia.
Qed.

Lemma clean_report_nothing_to_do_witness :
  translate_missing_only sample_loads 0
    [sample_pair "Oi, tudo bem?" "Hi, all good?" "Tudo" "All good"] ∅
    sample_phase sample_phase sample_phase
  = Some ([sample_pair "Oi, tudo bem?" "Hi, all good?" "Tudo" "All good"],
          ∅, []).
Proof.
  apply (clean_report_nothing_to_do sample_loads 0
           [sample_pair "Oi, tudo bem?" "Hi, all good?" "Tudo" "All good"]
           (Status 1 0 1 0 0 0)).
  - vm_compute. reflexivity.
  - reflexivity.
Defined.

(** ** A degraded pair is picked up by the resume script *)

Lemma mapM_lookup_Some {A B} (f : A -> option B) l k i x :
  mapM f l = Some k -> l !! i = Some x ->
  exists y, f x = Some y /\ k !! i = Some y.
Proof.
  intros Hm Hx. apply mapM_Some in Hm.
  destruct (Forall2_lookup_l _ _ _ _ _ Hm Hx) as (y & Hy & Hf). by exists y.
Qed.

(** X10 -- The main script and the resume script fit together. If the
    question of the pair at [idx] is not cached and every attempt of the
    questions batch holding it is rejected, [translate_qa_pairs] still
    returns, the pair at [idx] of its output carries the Portuguese question
    as [question_en], and [needs_translation] flags that pair: a later run
    of the resume script translates it again. *)
Theorem degraded_pairs_are_flagged json_loads p qa_pairs cache api_q sched_q
        ph_a ph_c questions answers contexts idx q :
  let n := Pos.to_nat p in
  let batch := take n (drop (idx / n * n) questions) in
  mapM (text_field "question_pt") qa_pairs = Some questions ->
  mapM (text_field "answer_pt") qa_pairs = Some answers ->
  mapM context_text qa_pairs = Some contexts ->
  questions !! idx = Some q ->
  uncached cache q = true ->
  (forall a, a < max_retries ->
     attempt_body json_loads (check_cache cache batch) (api_q (idx / n) a)
     = None) ->
  exists out cache' tr qa',
    translate_qa_pairs json_loads (Zpos p) qa_pairs cache
                       (Phase api_q sched_q) ph_a ph_c
      = Some (out, cache', tr) /\
    out !! idx = Some qa' /\
    qa' !! "question_en" = Some (JStr q) /\
    qa' !! "question_pt" = Some (JStr q) /\
    needs_translation qa' = Some true.
Proof.
  intros n batch Hq Ha Hc Hidx Hu Hrej.
  destruct (translate_qa_pairs_merge json_loads p qa_pairs cache
              (Phase api_q sched_q) ph_a ph_c questions answers contexts
              Hq Ha Hc)
    as (tq & ta & tc & c1 & c2 & c3 & tr1 & tr2 & tr3 & out
        & Hrq & _ & _ & Hrun & _ & Hmerge).
  destruct (translate_all_batches_output json_loads p questions cache
              api_q sched_q) as (c1' & tr1' & Hrq').
  rewrite Hrq in Hrq'. injection Hrq' as -> _ _.
  assert (Hn : 0 < n) by (subst n; lia).
  destruct (proj2 (reference_output_slots json_loads n questions cache api_q Hn)
              idx q Hidx) as (v & Hv & _ & Hslot).
  unfold slot_ok in Hslot. rewrite Hu in Hslot.
  assert (Hslice : slice questions (idx / n * n) (idx / n * n + n) = batch).
  { unfold slice, batch. f_equal. lia. }
  rewrite Hslice in Hslot.
  assert (v = JStr q) as ->.
  { destruct Hslot as [(K & l & HK & _ & Hsome & _)|[_ ->]]; [|done].
    rewrite (Hrej K HK) in Hsome. done. }
  assert (Hlt : idx < length qa_pairs).
  { rewrite (length_mapM _ _ _ Hq). by apply lookup_lt_Some in Hidx. }
  destruct (lookup_lt_is_Some_2 qa_pairs idx Hlt) as [qa Hqa].
  destruct (mapM_lookup_Some _ _ _ _ _ Hq Hqa) as (q' & Hfield & Hq').
  assert (q' = q) as -> by congruence.
  assert (Hpt : qa !! "question_pt" = Some (JStr q)).
  { unfold text_field in Hfield.
    destruct (qa !! "question_pt") as [[| | | |s| |]|]; try done. congruence. }
  destruct (Hmerge idx qa Hqa) as (q1 & a1 & Hq1 & _ & Hout).
  fold n in Hq1. assert (q1 = JStr q) as -> by congruence.
  eexists out, c3, _, _. split; [exact Hrun|]. split; [exact Hout|].
  assert (Hen : forall c a,
            (<["context_en" := c]> (<["answer_en" := a]>
               (<["question_en" := JStr q]> qa)) : qa_t) !! "question_en"
            = Some (JStr q)).
  { intros c a. rewrite lookup_insert_ne by done.
    rewrite lookup_insert_ne by done. by rewrite lookup_insert_eq. }
  assert (Hpt' : forall c a,
            (<["context_en" := c]> (<["answer_en" := a]>
               (<["question_en" := JStr q]> qa)) : qa_t) !! "question_pt"
            = Some (JStr q)).
  { intros c a. by rewrite !lookup_insert_ne. }
  split; [apply Hen|]. split; [apply Hpt'|].
  unfold needs_translation, get_or_empty. rewrite Hen, Hpt'. simpl.
  destruct (negb _ || negb _); [done|].
  by rewrite String.eqb_refl.
Qed.

Lemma degraded_pairs_are_flagged_witness :
  exists out cache' tr qa',
    translate_qa_pairs sample_loads 2
      [sample_pair "Oi" "" "Sim" ""] ∅
      (Phase (fun _ _ => HttpError) []) sample_phase sample_phase
      = Some (out, cache', tr) /\
    out !! 0 = Some qa' /\
    qa' !! "question_en" = Some (JStr "Oi") /\
    qa' !! "question_pt" = Some (JStr "Oi") /\
    needs_translation qa' = Some true.
Proof.
  apply (degraded_pairs_are_flagged sample_loads 2
           [sample_pair "Oi" "" "Sim" ""] ∅ (fun _ _ => HttpError) []
           sample_phase sample_phase ["Oi"] ["Sim"] ["N/A"] 0 "Oi");
    try reflexivity.
Defined.

(** ** The resume run returns *)

Lemma translate_missing_only_returns_witness :
  is_Some (translate_missing_only sample_loads 2 sample_prior ∅
             sample_phase sample_phase sample_phase).
Proof.
  apply (translate_missing_only_returns sample_loads 2 sample_prior ∅
           sample_phase sample_phase sample_phase
           [(1, sample_pair "Oi" "Oi" "Sim" "Yes")]).
  - reflexivity.
  - exists ["Oi"]. reflexivity.
  - exists ["Sim"]. reflexivity.
  - exists ["N/A"]. reflexivity.
Defined.

(** ** The fenced response *)

Lemma string_app_nil_r (s : string) : String.append s EmptyString = s.
Proof.
  induction s as [|c s IH]; [done|].
  change (String c (String.append s EmptyString) = String c s).
  by rewrite IH.
Qed.

Lemma prefix_append (p s : string) : String.prefix p (String.append p s) = true.
Proof.
  induction p as [|c p IH]; [by destruct s|].
  change (String.append (String c p) s) with (String c (String.append p s)).
  cbn [String.prefix]. by destruct (ascii_dec c c).
Qed.

Lemma split_fuel_S fuel sep s :
  split_fuel (S fuel) sep s =
  match partition_at sep s with
  | Some (before, after) => before :: split_fuel fuel sep after
  | None => [s]
  end.
Proof. reflexivity. Qed.

(** Up to the first fence, a text without backquote is kept whole. *)
Lemma partition_at_body body tail :
  (forall i, String.get i body <> Some "`"%char) ->
  partition_at FENCE (String.append body tail) =
  match partition_at FENCE tail with
  | Some (before, after) => Some (String.append body before, after)
  | None => None
  end.
Proof.
  induction body as [|c body IH]; intros Hno.
  { change (String.append EmptyString tail) with tail.
    destruct (partition_at FENCE tail) as [[? ?]|]; reflexivity. }
  assert (Hc : c <> "`"%char).
  { intros ->. by apply (Hno 0). }
  assert (Hno' : forall i, String.get i body <> Some "`"%char).
  { intros i. apply (Hno (S i)). }
  change (String.append (String c body) tail)
    with (String c (String.append body tail)).
  cbn [partition_at]. unfold FENCE at 1. cbn [String.prefix].
  destruct (ascii_dec "`" c) as [Heq|_]; [by subst|].
  fold FENCE. rewrite (IH Hno').
  by destruct (partition_at FENCE tail) as [[? ?]|].
Qed.

(** X16 -- A fenced answer is unwrapped. For a content that opens with a
    code fence, [unwrap_fence] keeps what stands between the opening fence
    and the next one, without a leading [json] tag and stripped; whatever
    follows the closing fence is dropped, and a closing fence that is
    missing is tolerated. *)
Theorem unwrap_fence_fenced body tail :
  (forall i, String.get i body <> Some "`"%char) ->
  tail = EmptyString \/ startswith tail FENCE = true ->
  unwrap_fence (String.append FENCE (String.append body tail)) =
  strip (if startswith body "json" then str_drop 4 body else body).
Proof.
  intros Hno Htail. unfold unwrap_fence.
  set (rest := String.append body tail).
  assert (Hstart : startswith (String.append FENCE rest) FENCE = true).
  { apply prefix_append. }
  rewrite Hstart. unfold split.
  change (String.length (String.append FENCE rest))
    with (S (S (S (String.length rest)))).
  assert (Hfirst : partition_at FENCE (String.append FENCE rest)
                   = Some (EmptyString, rest)).
  { unfold partition_at. destruct (String.append FENCE rest) eqn:Heq;
      [done|]. fold partition_at. rewrite <- Heq, prefix_append. done. }
  rewrite split_fuel_S, Hfirst, split_fuel_S.
  assert (Hsecond : exists more,
            match partition_at FENCE rest with
            | Some (before, after) =>
                before :: split_fuel (S (String.length rest)) FENCE after
            | None => [rest]
            end = body :: more).
  { subst rest. rewrite (partition_at_body body tail Hno).
    destruct Htail as [->|Htail].
    - simpl. rewrite string_app_nil_r. by eexists.
    - assert (Hp : partition_at FENCE tail
                   = Some (EmptyString, str_drop (String.length FENCE) tail)).
      { unfold startswith in Htail. destruct tail as [|c t]; [done|].
        cbn [partition_at]. by rewrite Htail. }
      rewrite Hp, string_app_nil_r. by eexists. }
  destruct Hsecond as [more ->]. reflexivity.
Qed.

Lemma unwrap_fence_fenced_witness :
  unwrap_fence (String.append FENCE (String.append "json [1]" "``` done")) =
  strip (if startswith "json [1]" "json" then str_drop 4 "json [1]"
         else "json [1]").
Proof.
  apply (unwrap_fence_fenced "json [1]" "``` done").
  - intros i. do 9 (destruct i as [|i]; [done|]). done.
  - right. reflexivity.
Defined.

Example unwrap_fence_sample :
  unwrap_fence "```json [1]``` done" = "[1]".
Proof. reflexivity. Qed.

(** ** Every batch acts as if it ran alone *)

Lemma actions_of_app b tr1 tr2 :
  actions_of b (tr1 ++ tr2) = actions_of b tr1 ++ actions_of b tr2.
Proof. apply omap_app. Qed.

Lemma actions_of_tag_eq b ev : actions_of b (tag b ev) = ev.
Proof.
  induction ev as [|e ev IH]; [done|].
  unfold actions_of, tag in *. simpl.
  rewrite Nat.eqb_refl. f_equal. exact IH.
Qed.

Lemma actions_of_tag_ne b b' ev : b' <> b -> actions_of b (tag b' ev) = [].
Proof.
  intros Hne. induction ev as [|e ev IH]; [done|].
  unfold actions_of, tag in *. simpl.
  destruct (Nat.eqb_spec b' b); [done|]. exact IH.
Qed.

Lemma actions_of_first_steps (g : list string -> list event) l : forall off b,
  actions_of b (concat (imap (fun k batch => tag (off + k) (g batch)) l)) =
  if off <=? b then
    match l !! (b - off) with Some batch => g batch | None => [] end
  else [].
Proof.
  induction l as [|x l IH]; intros off b.
  { simpl. by destruct (off <=? b). }
  rewrite imap_cons. cbn [concat]. rewrite actions_of_app.
  rewrite (imap_ext _ (fun k batch => tag (S off + k) (g batch)))
    by (intros; simpl; f_equal; lia).
  rewrite IH. rewrite Nat.add_0_r.
  destruct (Nat.leb_spec off b) as [Hle|Hgt].
  - destruct (decide (off = b)) as [->|Hne].
    + rewrite actions_of_tag_eq, Nat.sub_diag.
      destruct (Nat.leb_spec (S b) b); [lia|]. by rewrite app_nil_r.
    + rewrite actions_of_tag_ne by done.
      destruct (Nat.leb_spec (S off) b); [|lia].
      replace (b - off) with (S (b - S off)) by lia. done.
  - rewrite actions_of_tag_ne by lia.
    by destruct (Nat.leb_spec (S off) b); [lia|].
Qed.

Section GatherTrace.

Variable json_loads : string -> option json.

Lemma resume_events_indep cache cache' t o :
  (resume json_loads cache t o).2 = (resume json_loads cache' t o).2.
Proof.
  destruct t as [texts ck a|r]; [|done].
  destruct (attempt_body json_loads ck o) as [l|] eqn:Hl.
  - by rewrite !(resume_accept _ _ _ _ _ _ _ Hl).
  - destruct (Nat.lt_ge_cases a (max_retries - 1));
      [rewrite !resume_retry by done|rewrite !resume_fallback by done]; done.
Qed.

Lemma drive_events_indep fuel resp : forall cache cache' t,
  (drive json_loads fuel resp cache t).2 =
  (drive json_loads fuel resp cache' t).2.
Proof.
  induction fuel as [|fuel IH]; intros cache cache' t; [done|].
  destruct t as [texts ck a|r]; [|done].
  rewrite !drive_step. cbn zeta. cbn [fst snd].
  rewrite (resume_events_indep cache cache').
  rewrite (resume_task_indep json_loads cache cache'). f_equal. apply IH.
Qed.

Lemma drive_events_fuel fuel resp : forall fuel' cache t,
  task_wf t -> task_need t <= fuel -> task_need t <= fuel' ->
  (drive json_loads fuel resp cache t).2 =
  (drive json_loads fuel' resp cache t).2.
Proof.
  induction fuel as [|fuel IH]; intros fuel' cache t Hwf Hf Hf'.
  - destruct t as [texts ck a|r];
      [unfold task_wf, task_need in *; lia|]. by rewrite !drive_done.
  - destruct t as [texts ck a|r]; [|by rewrite !drive_done].
    destruct fuel' as [|fuel'];
      [unfold task_wf, task_need in *; lia|].
    rewrite !drive_step. cbn zeta. cbn [fst snd].
    destruct (resume_wf json_loads cache (InFlight texts ck a) (resp a) Hwf)
      as [Hwf' Hdec].
    f_equal. apply IH; [done|..]; unfold task_wf, task_need in *; lia.
Qed.

(** The actions a task has still to perform, when each response is
    delivered as soon as awaited. *)
Lemma remaining_resume resp cache texts ck a :
  a < max_retries ->
  (drive json_loads max_retries resp ∅ (InFlight texts ck a)).2 =
  (resume json_loads cache (InFlight texts ck a) (resp a)).2 ++
  (drive json_loads max_retries resp ∅
     (resume json_loads cache (InFlight texts ck a) (resp a)).1.2).2.
Proof.
  intros Ha. change max_retries with (S (max_retries - 1)) at 1.
  rewrite drive_step. cbn zeta. cbn [fst snd].
  destruct (resume_wf json_loads ∅ (InFlight texts ck a) (resp a) Ha)
    as [Hwf' Hdec].
  rewrite (resume_events_indep cache ∅).
  rewrite (resume_task_indep json_loads cache ∅). f_equal.
  set (t' := (resume json_loads ∅ (InFlight texts ck a) (resp a)).1.2) in *.
  rewrite (drive_events_indep (max_retries - 1) resp _ ∅).
  apply drive_events_fuel; [done|..];
    unfold task_wf, task_need, max_retries in *; lia.
Qed.

Variable api : nat -> nat -> http_outcome.
Variable cache0 : cache_t.
Variable batches : list (list string).

Lemma spawn_trace_inv :
  trace_inv json_loads api cache0 batches (Pool cache0 (spawn cache0 batches).1 (spawn cache0 batches).2).
Proof.
  unfold spawn, trace_inv. cbn [fst snd pool_tasks pool_trace].
  split; [by rewrite length_map|]. split.
  - intros b e Hin. apply elem_of_concat in Hin as (evs & Hin & Hevs).
    apply list_elem_of_lookup in Hevs as [k Hk].
    apply list_lookup_imap_Some in Hk as (batch & Hbatch & ->).
    apply elem_of_tag in Hin as [-> _]. by apply lookup_lt_Some in Hbatch.
  - intros b batch t Hb Ht. rewrite list_lookup_fmap, Hb in Ht.
    injection Ht as <-. split; [apply start_wf|].
    pose proof (actions_of_first_steps (fun batch => (start cache0 batch).2)
                  batches 0 b) as Hfirst.
    cbn [Nat.add Nat.leb] in Hfirst. rewrite Nat.sub_0_r, Hb in Hfirst.
    rewrite Hfirst. unfold translate_batch_async.
    destruct (start cache0 batch) as [t0 ev0]. cbn [fst snd].
    rewrite (drive_events_indep max_retries (api b) ∅ cache0).
    by destruct (drive json_loads max_retries (api b) cache0 t0) as [[c t] ev].
Qed.

Lemma deliver_trace_inv st b :
  trace_inv json_loads api cache0 batches st ->
  trace_inv json_loads api cache0 batches (deliver json_loads api st b).
Proof.
  intros (Hlen & Htags & Hinv). unfold deliver.
  destruct (pool_tasks st !! b) as [[texts ck a|r]|] eqn:Hb; try done.
  destruct (resume json_loads (pool_cache st) (InFlight texts ck a) (api b a))
    as [[c' t'] ev] eqn:Hres.
  pose proof (lookup_lt_Some _ _ _ Hb) as Hlt.
  unfold trace_inv. cbn [pool_tasks pool_trace].
  split; [by rewrite length_insert|]. split.
  - intros b' e Hin. apply elem_of_app in Hin as [Hin|Hin]; [by eapply Htags|].
    apply elem_of_tag in Hin as [-> _]. lia.
  - intros b' batch t Hbatch Ht. rewrite actions_of_app.
    destruct (decide (b = b')) as [<-|Hne].
    + rewrite list_lookup_insert_eq in Ht by done. injection Ht as <-.
      destruct (Hinv b batch _ Hbatch Hb) as [Hwf Hact].
      split.
      * pose proof (proj1 (resume_wf json_loads (pool_cache st)
                             (InFlight texts ck a) (api b a) Hwf)) as Hwf'.
        by rewrite Hres in Hwf'.
      * rewrite actions_of_tag_eq, <- Hact.
        rewrite (remaining_resume (api b) (pool_cache st) texts ck a Hwf).
        rewrite Hres. cbn [fst snd]. by rewrite <- app_assoc.
    + rewrite list_lookup_insert_ne in Ht by done.
      rewrite actions_of_tag_ne, app_nil_r by done. by apply Hinv.
Qed.

Lemma gather_trace sched :
  let st := gather json_loads cache0 batches (Phase api sched) in
  (forall b e, (b, e) ∈ pool_trace st -> b < length batches) /\
  forall b batch, batches !! b = Some batch ->
    actions_of b (pool_trace st)
    = (translate_batch_async json_loads cache0 batch (api b)).2.
Proof.
  cbv zeta.
  assert (Hfinal : trace_inv json_loads api cache0 batches
                     (gather json_loads cache0 batches (Phase api sched))).
  { unfold gather. pose proof spawn_trace_inv as Hinv.
    destruct (spawn cache0 batches) as [tasks tr]. cbn [fst snd] in Hinv.
    revert Hinv. generalize (Pool cache0 tasks tr). simpl.
    match goal with |- context [fold_left _ ?ds _] => generalize ds end.
    intros ds. induction ds as [|d ds IH]; intros st Hinv; [done|].
    simpl. apply IH. by apply deliver_trace_inv. }
  destruct Hfinal as (_ & Htags & Hinv). split; [done|].
  intros b batch Hb.
  pose proof (gather_tasks json_loads api cache0 batches sched b batch Hb) as Ht.
  destruct (Hinv b batch _ Hb Ht) as [_ Hact].
  rewrite drive_done in Hact. cbn [snd] in Hact. by rewrite app_nil_r in Hact.
Qed.

End GatherTrace.

(** X17 -- Concurrency changes the interleaving only. In the trace of a
    run of [translate_all_batches], the actions of each batch, taken in
    order, are exactly the actions of [translate_batch_async] run alone on
    that batch against the cache the run started with: the same requests,
    the same backoff sleeps, the same [cache.set] calls, one rate-limiter
    token at most, whatever the other batches do and in whatever order the
    responses arrive. No action belongs to a batch that does not exist. *)
Theorem concurrent_batches_act_alone json_loads p texts cache api sched
        out cache' tr :
  let n := Pos.to_nat p in
  translate_all_batches json_loads (Zpos p) texts cache (Phase api sched)
    = Some (out, cache', tr) ->
  (forall b, b * n < length texts ->
     actions_of b tr
     = (translate_batch_async json_loads cache
          (take n (drop (b * n) texts)) (api b)).2) /\
  (forall b e, (b, e) ∈ tr -> b * n < length texts).
Proof.
  intros n. unfold translate_all_batches. rewrite batch_list_pos.
  cbn -[gather results_of]. fold n.
  destruct (gather_trace json_loads api cache (chunks n texts) sched)
    as [Htags Hact].
  destruct (results_of _) as [rs|]; [|done]. simpl. intros [= <- <- <-].
  assert (Hn : 0 < n) by (subst n; lia).
  assert (Hcount : forall b, b < (length texts + n - 1) / n <->
                             b * n < length texts).
  { intros b. pose proof (Nat.div_mod_eq (length texts + n - 1) n) as Hdm.
    pose proof (Nat.mod_upper_bound (length texts + n - 1) n ltac:(lia)) as Hm.
    split; intros Hb; nia. }
  split.
  - intros b Hb. apply Hact, chunks_lookup. by apply Hcount.
  - intros b e Hin. apply Hcount. specialize (Htags b e Hin).
    unfold chunks in Htags. by rewrite length_map, length_seq in Htags.
Qed.

Lemma concurrent_batches_act_alone_witness :
  exists out cache' tr,
    translate_all_batches sample_loads 1 sample_texts ∅
      (Phase (fun _ _ => body_of "ONE") [1; 0]) = Some (out, cache', tr) /\
    (forall b, b * Pos.to_nat 1 < length sample_texts ->
       actions_of b tr
       = (translate_batch_async sample_loads ∅
            (take (Pos.to_nat 1) (drop (b * Pos.to_nat 1) sample_texts))
            (fun _ => body_of "ONE")).2) /\
    (forall b e, (b, e) ∈ tr -> b * Pos.to_nat 1 < length sample_texts).
Proof.
  destruct (translate_all_batches sample_loads 1 sample_texts ∅
              (Phase (fun _ _ => body_of "ONE") [1; 0]))
    as [[[out cache'] tr]|] eqn:Hrun; [|by vm_compute in Hrun].
  exists out, cache', tr. split; [reflexivity|].
  exact (concurrent_batches_act_alone sample_loads 1 sample_texts ∅
           (fun _ _ => body_of "ONE") [1; 0] out cache' tr Hrun).
Defined.
